(** * BeamerPresenter: page cache, drawing history and colour format

  A shallow embedding of five parts of the program:

  - [ColorFormat]: [color_to_rgba] and [rgba_to_color] of
    src/drawing/pathcontainer.cpp, the colour syntax of the saved drawings;
  - [PathContainer]: the undo/redo engine of src/drawing/pathcontainer.cpp
    over the steps of src/drawhistorystep.h;
  - [PixCache]: the bounded page cache of src/rendering/pixcache.cpp;
  - [SlideScene]: the eraser events of [SlideScene::handleEvents] in
    src/slidescene.cpp, which drive the micro-steps of the history;
  - [PdfDoc]: the lookups of pages, labels and slides of src/pdfdoc.cpp.

  Qt containers are modelled by lists: a [QList] is a list, a [QMap] with
  [int] keys is an association list kept in ascending key order, which is
  the order in which the source iterates over it.

  The first part of the file is the model, the second part the proofs:
  [ColorFormatProofs] (colours are read back as written) and
  [ColorParsing]; [PathContainerProofs], [HistoryReplay], [UndoRedo],
  [HistoryCursor], [RecordedSteps] and [EraserStroke] (the history
  engine); [PixCacheProofs], [CacheEviction], [RenderQueue] and
  [CacheLookups] (the cache); [PdfDocProofs] (the document). *)

From Stdlib Require Import ZArith List Lia Bool Ascii QArith Qabs Sorted.
Import ListNotations.
Open Scope Z_scope.

(** ** Qt containers

    [QList] as Qt 5 implements it: [removeAt] ignores an index outside the
    list and [insert] clamps it.  Qt 6 differs only on indices outside the
    list. *)

Module QList.

(** [QList::removeAt(i)]: an index outside the list is ignored. *)
Definition removeAt {A : Type} (i : Z) (l : list A) : list A :=
  if (0 <=? i) && (i <? Z.of_nat (length l))
  then firstn (Z.to_nat i) l ++ skipn (S (Z.to_nat i)) l
  else l.

(** [QList::insert(i, x)]: [i <= 0] prepends, [i >= size()] appends. *)
Definition insert {A : Type} (i : Z) (x : A) (l : list A) : list A :=
  if i <=? 0 then x :: l
  else if Z.of_nat (length l) <=? i then l ++ [x]
  else firstn (Z.to_nat i) l ++ x :: skipn (Z.to_nat i) l.

(** [QList::value(i)]: the default value outside the list. *)
Definition value {A : Type} (d : A) (i : Z) (l : list A) : A :=
  if (0 <=? i) && (i <? Z.of_nat (length l)) then nth (Z.to_nat i) l d else d.

Definition size {A : Type} (l : list A) : Z := Z.of_nat (length l).

End QList.

Module QMap.

(** A [QMap<int, V>]: pairs in strictly ascending key order. *)
Definition t (V : Type) : Type := list (Z * V).

Definition keys {V : Type} (m : t V) : list Z := map fst m.
Definition values {V : Type} (m : t V) : list V := map snd m.

(** [m[k] = v]: insert or overwrite. *)
Fixpoint insert {V : Type} (k : Z) (v : V) (m : t V) : t V :=
  match m with
  | [] => [(k, v)]
  | (k', v') :: m' =>
      if k <? k' then (k, v) :: m
      else if k =? k' then (k, v) :: m'
      else (k', v') :: insert k v m'
  end.

(** [constFind(k)]: [None] stands for [cend()]. *)
Fixpoint find {V : Type} (k : Z) (m : t V) : option V :=
  match m with
  | [] => None
  | (k', v') :: m' => if k =? k' then Some v' else find k m'
  end.

Definition contains {V : Type} (k : Z) (m : t V) : bool :=
  match find k m with Some _ => true | None => false end.

(** [value(k, d)]. *)
Definition value {V : Type} (d : V) (k : Z) (m : t V) : V :=
  match find k m with Some v => v | None => d end.

(** [remove(k)]. *)
Fixpoint remove {V : Type} (k : Z) (m : t V) : t V :=
  match m with
  | [] => []
  | (k', v') :: m' => if k =? k' then m' else (k', v') :: remove k m'
  end.

Definition size {V : Type} (m : t V) : Z := Z.of_nat (length m).

Definition firstKey {V : Type} (m : t V) : Z :=
  match m with [] => 0 | (k, _) :: _ => k end.

Definition lastKey {V : Type} (m : t V) : Z := firstKey (rev m).

(** Representation invariant: the keys are strictly ascending. *)
Definition wf {V : Type} (m : t V) : Prop := StronglySorted Z.lt (keys m).

End QMap.

(** ** The colour syntax of saved drawings *)

Module ColorFormat.

Local Open Scope char_scope.

Definition QString : Type := list ascii.

(** A colour with 8-bit red, green, blue and alpha components. *)
Record QColor : Type := fromRgb { red : Z; green : Z; blue : Z; alpha : Z }.

Definition valid_color (c : QColor) : Prop :=
  (0 <= red c < 256 /\ 0 <= green c < 256 /\
   0 <= blue c < 256 /\ 0 <= alpha c < 256)%Z.

(** Arithmetic of [unsigned int]. *)
Definition uint32 (z : Z) : Z := (z mod 2 ^ 32)%Z.

(** [QColor::rgb()]: the colour as 0xffRRGGBB ([qRgb]). *)
Definition rgb (c : QColor) : Z :=
  Z.lor (Z.shiftl 255 24)
    (Z.lor (Z.shiftl (Z.land (red c) 255) 16)
       (Z.lor (Z.shiftl (Z.land (green c) 255) 8) (Z.land (blue c) 255))).

Definition hex_char (d : Z) : ascii :=
  nth (Z.to_nat d)
    ["0"; "1"; "2"; "3"; "4"; "5"; "6"; "7"; "8"; "9";
     "a"; "b"; "c"; "d"; "e"; "f"] "0".

(** The hexadecimal digits of [n] without leading zeros, at most [fuel]. *)
Fixpoint hex_digits (fuel : nat) (n : Z) : QString :=
  match fuel with
  | O => []
  | S fuel' =>
      if (n =? 0)%Z then []
      else hex_digits fuel' (n / 16) ++ [hex_char (n mod 16)]
  end.

(** [QString::number(n, 16)] for an [unsigned int] (at most 8 digits). *)
Definition number16 (n : Z) : QString :=
  if (n =? 0)%Z then ["0"] else hex_digits 8 n.

(** [QString::rightJustified(width, fill, truncate)]. *)
Definition rightJustified (width : nat) (fill : ascii) (truncate : bool)
    (s : QString) : QString :=
  if (length s <? width)%nat then repeat fill (width - length s) ++ s
  else if truncate then firstn width s else s.

(** [QString::right(n)] and [QString::mid(pos, n)]. *)
Definition right (n : nat) (s : QString) : QString :=
  skipn (length s - n) s.
Definition mid (pos n : nat) (s : QString) : QString :=
  firstn n (skipn pos s).

Definition color_to_rgba (color : QColor) : QString :=
  "#" :: rightJustified 8 "0" true
           (number16 (uint32 (uint32 (Z.shiftl (rgb color) 8) + alpha color))).

(** Qt's [h2i] and [hex2int]: -1 on a character that is no hex digit. *)
Definition h2i (c : ascii) : Z :=
  let n := Z.of_N (N_of_ascii c) in
  if (48 <=? n)%Z && (n <=? 57)%Z then (n - 48)%Z
  else if (97 <=? n)%Z && (n <=? 102)%Z then (n - 97 + 10)%Z
  else if (65 <=? n)%Z && (n <=? 70)%Z then (n - 65 + 10)%Z
  else (-1)%Z.

Fixpoint hex2int (s : QString) (result : Z) : Z :=
  match s with
  | [] => result
  | c :: s' =>
      let h := h2i c in
      if (h <? 0)%Z then (-1)%Z else hex2int s' (result * 16 + h)%Z
  end.

(** [QColor(const QString &)] on the hexadecimal forms [#RGB], [#RRGGBB]
    and [#AARRGGBB]; [None] is the invalid colour.  Colour names and the
    forms with more than 8 bits per component are outside this model and
    read as invalid. *)
Definition QColor_fromString (name : QString) : option QColor :=
  match name with
  | "#" :: digits =>
      match digits with
      | [a1; a2; r1; r2; g1; g2; b1; b2] =>
          let a := hex2int [a1; a2] 0 in
          let r := hex2int [r1; r2] 0 in
          let g := hex2int [g1; g2] 0 in
          let b := hex2int [b1; b2] 0 in
          if (a <? 0)%Z || (r <? 0)%Z || (g <? 0)%Z || (b <? 0)%Z then None
          else Some (fromRgb r g b a)
      | [r1; r2; g1; g2; b1; b2] =>
          let r := hex2int [r1; r2] 0 in
          let g := hex2int [g1; g2] 0 in
          let b := hex2int [b1; b2] 0 in
          if (r <? 0)%Z || (g <? 0)%Z || (b <? 0)%Z then None
          else Some (fromRgb r g b 255)
      | [r1; g1; b1] =>
          let r := hex2int [r1; r1] 0 in
          let g := hex2int [g1; g1] 0 in
          let b := hex2int [b1; b1] 0 in
          if (r <? 0)%Z || (g <? 0)%Z || (b <? 0)%Z then None
          else Some (fromRgb r g b 255)
      | _ => None
      end
  | _ => None
  end.

Definition rgba_to_color (string : QString) : option QColor :=
  match length string with
  | 9%nat => QColor_fromString ("#" :: right 2 string ++ mid 1 6 string)
  | _ => QColor_fromString string
  end.

(** Two lowercase hexadecimal digits of an 8-bit value. *)
Definition hex2 (v : Z) : QString := [hex_char (v / 16); hex_char (v mod 16)].

(** Fixed-width hexadecimal: [k] digits, leading zeros kept. *)
Fixpoint hexN (k : nat) (n : Z) : QString :=
  match k with
  | O => []
  | S k' => hexN k' (n / 16) ++ [hex_char (n mod 16)]
  end.

End ColorFormat.


(** ** The drawing history of one slide *)

Module PathContainer.

(** Run-time type of a graphics item ([QGraphicsItem::type()]) other than
    [QGraphicsItemGroup]. *)
Inductive ItemType : Type :=
  | AbstractGraphicsPathType
  | FullGraphicsPathType
  | BasicGraphicsPathType
  | TextGraphicsItemType
  | QGraphicsLineItemType
  | OtherItemType.

(** A drawable object on the heap: its run-time type and its address. *)
Record GraphicsObject : Type := mkObject { objType : ItemType; objAddr : nat }.

(** What a cell of [paths] points to: one object, or the
    [QGraphicsItemGroup] that holds the pieces of a path while it is erased.
    The only pointer to such a group is the cell itself, so the group is
    held by value. *)
Inductive Item : Type :=
  | Single (o : GraphicsObject)
  | ItemGroup (children : list GraphicsObject).

(** A [QGraphicsItem*]; [None] is the null pointer. *)
Definition ItemPtr : Type := option Item.

Definition ItemType_eq_dec (a b : ItemType) : {a = b} + {a <> b}.
Proof. decide equality. Defined.

Definition GraphicsObject_eq_dec (a b : GraphicsObject) : {a = b} + {a <> b}.
Proof. decide equality; [apply Nat.eq_dec | apply ItemType_eq_dec]. Defined.

Definition Item_eq_dec (a b : Item) : {a = b} + {a <> b}.
Proof.
  decide equality;
    [apply GraphicsObject_eq_dec | apply (list_eq_dec GraphicsObject_eq_dec)].
Defined.

Definition ItemPtr_eq_dec (a b : ItemPtr) : {a = b} + {a <> b}.
Proof. decide equality. apply Item_eq_dec. Defined.

(** src/drawhistorystep.h *)
Record DrawHistoryStep : Type := mkStep {
  createdItems : QMap.t ItemPtr;
  deletedItems : QMap.t ItemPtr
}.

Definition emptyStep : DrawHistoryStep := mkStep [] [].

(** Messages written with [qCritical()]. *)
Inductive Diagnostic : Type :=
  | TriedMicrostep (inHistory : Z)
  | ShouldApplyMicroStep (inHistory : Z).

(** The state of a [PathContainer]; [qCritical] is what it has logged. *)
Record t : Type := mkContainer {
  paths : list ItemPtr;
  history : list DrawHistoryStep;
  inHistory : Z;
  qCritical : list Diagnostic
}.

(** [preferences()]: the part the container reads. *)
Record Preferences : Type := mkPreferences {
  history_length_visible_slides : Z
}.

Definition QPointF : Type := (Q * Q)%type.
Definition qreal : Type := Q.

(** The geometry of the drawn objects, which lives in classes outside
    src/drawing/pathcontainer.cpp:
    - [boundingRectContains item pos size] is
      [item->boundingRect().marginsAdded(QMargins(size, size, size, size)).contains(pos)];
    - [splitErase path pos size] is [path->splitErase(pos, size)]: the empty
      list when the path is erased completely, a list starting with the
      null pointer when the eraser does not touch it, the remaining pieces
      otherwise;
    - [clone] gives the duplicate made by [copy()], [textIsEmpty] is
      [TextGraphicsItem::isEmpty()]. *)
Record Geometry : Type := mkGeometry {
  boundingRectContains : Item -> QPointF -> qreal -> bool;
  splitErase : GraphicsObject -> QPointF -> qreal -> list (option GraphicsObject);
  clone : GraphicsObject -> GraphicsObject;
  textIsEmpty : GraphicsObject -> bool
}.

(** Remove the cells at the keys of [m], highest key first. *)
Definition removeKeys (m : QMap.t ItemPtr) (p : list ItemPtr) : list ItemPtr :=
  fold_left (fun acc kv => QList.removeAt (fst kv) acc) (rev m) p.

(** Insert the items of [m] at their keys, lowest key first. *)
Definition insertItems (m : QMap.t ItemPtr) (p : list ItemPtr) : list ItemPtr :=
  fold_left (fun acc kv => QList.insert (fst kv) (snd kv) acc) m p.

(** [history[i]]; the callers guard the index. *)
Definition stepAt (i : Z) (h : list DrawHistoryStep) : DrawHistoryStep :=
  QList.value emptyStep i h.

(** [PathContainer::undo].  The calls on the scene only change what is
    displayed; the container's state is [paths], [history], [inHistory]. *)
Definition undo (c : t) : bool * t :=
  if (inHistory c <? 0) || (QList.size (history c) - inHistory c <? 1)
  then (false, c)
  else
    let inH := inHistory c + 1 in
    let step := stepAt (QList.size (history c) - inH) (history c) in
    (true,
     mkContainer
       (insertItems (deletedItems step) (removeKeys (createdItems step) (paths c)))
       (history c) inH (qCritical c)).

(** [PathContainer::redo]. *)
Definition redo (c : t) : bool * t :=
  if inHistory c <? 1 then (false, c)
  else
    let step := stepAt (QList.size (history c) - inHistory c) (history c) in
    (true,
     mkContainer
       (insertItems (createdItems step) (removeKeys (deletedItems step) (paths c)))
       (history c) (inHistory c - 1) (qCritical c)).

(** [n] times [history.takeLast()]. *)
Fixpoint takeLast_times (n : nat) (h : list DrawHistoryStep) : list DrawHistoryStep :=
  match n with
  | O => h
  | S n' => takeLast_times n' (removelast h)
  end.

(** [n] times [history.takeFirst()]. *)
Fixpoint takeFirst_times (n : nat) (h : list DrawHistoryStep) : list DrawHistoryStep :=
  match n with
  | O => h
  | S n' => takeFirst_times n' (tl h)
  end.

(** The loop of [clearHistory(n)]:
    [for (int i = history.length() - inHistory; i > n; i--) history.takeFirst()]. *)
Definition dropOldest (n : Z) (c : t) : t :=
  let n := if n <? 0 then 0 else n in
  mkContainer (paths c)
    (takeFirst_times (Z.to_nat (QList.size (history c) - inHistory c - n)) (history c))
    (inHistory c) (qCritical c).

(** The tail shared by the mutating operations:
    [if (history.length() > preferences()->history_length_visible_slides)
       clearHistory(preferences()->history_length_visible_slides)].
    It is reached with [inHistory == 0], where [clearHistory] is its loop. *)
Definition limitHistory (prefs : Preferences) (c : t) : t :=
  if QList.size (history c) >? history_length_visible_slides prefs
  then dropOldest (history_length_visible_slides prefs) c
  else c.

(** Step 1 of [applyMicroStep]: the children of every group that replaced an
    erased path become created items; [shift] counts new items minus deleted
    items before the key. *)
Fixpoint addChildren (key shift : Z) (children : list GraphicsObject)
    (created : QMap.t ItemPtr) : Z * QMap.t ItemPtr :=
  match children with
  | [] => (shift, created)
  | child :: rest =>
      addChildren key (shift + 1) rest
        (QMap.insert (key + shift) (Some (Single child)) created)
  end.

Fixpoint fixStep (p : list ItemPtr) (oldItems : QMap.t ItemPtr) (shift : Z)
    (created : QMap.t ItemPtr) : QMap.t ItemPtr :=
  match oldItems with
  | [] => created
  | (key, _) :: rest =>
      match QList.value None key p with
      | Some (ItemGroup children) =>
          let '(shift', created') := addChildren key shift children created in
          fixStep p rest (shift' - 1) created'
      | _ => fixStep p rest (shift - 1) created
      end
  end.

(** [history.last()] replaced by [step]. *)
Definition setLast (step : DrawHistoryStep) (h : list DrawHistoryStep) :
    list DrawHistoryStep :=
  removelast h ++ [step].

(** [PathContainer::applyMicroStep]. *)
Definition applyMicroStep (prefs : Preferences) (c : t) : bool * t :=
  if negb (inHistory c =? -1) then
    (true,
     mkContainer (paths c) (history c) 0
       (qCritical c ++ [ShouldApplyMicroStep (inHistory c)]))
  else
    let oldItems := deletedItems (last (history c) emptyStep) in
    match oldItems with
    | [] => (false, mkContainer (paths c) (removelast (history c)) 0 (qCritical c))
    | _ :: _ =>
        let newItems :=
          fixStep (paths c) oldItems 0 (createdItems (last (history c) emptyStep)) in
        let p := insertItems newItems (removeKeys oldItems (paths c)) in
        (true,
         limitHistory prefs
           (mkContainer p (setLast (mkStep newItems oldItems) (history c)) 0
              (qCritical c)))
    end.

(** [PathContainer::truncateHistory]. *)
Definition truncateHistory (prefs : Preferences) (c : t) : t :=
  if inHistory c =? -1 then snd (applyMicroStep prefs c)
  else if inHistory c =? -2 then
    mkContainer (paths c) (history c) 0 (qCritical c)
  else if inHistory c >? 0 then
    mkContainer (paths c)
      (takeLast_times (Z.to_nat (inHistory c)) (history c)) 0 (qCritical c)
  else c.

(** [PathContainer::clearHistory]. *)
Definition clearHistory (prefs : Preferences) (n : Z) (c : t) : t :=
  if inHistory c =? -2 then c
  else
    let c1 := if inHistory c =? -1 then snd (applyMicroStep prefs c) else c in
    dropOldest n c1.

(** The map [{0: l[0], 1: l[1], ...}] built by the loop of [clearPaths]. *)
Fixpoint enumerateFrom (i : Z) (l : list ItemPtr) (m : QMap.t ItemPtr) :
    QMap.t ItemPtr :=
  match l with
  | [] => m
  | x :: l' => enumerateFrom (i + 1) l' (QMap.insert i x m)
  end.

(** [PathContainer::clearPaths]. *)
Definition clearPaths (prefs : Preferences) (c : t) : t :=
  let c1 := truncateHistory prefs c in
  let step := mkStep [] (enumerateFrom 0 (paths c1) []) in
  limitHistory prefs
    (mkContainer [] (history c1 ++ [step]) (inHistory c1) (qCritical c1)).

(** [PathContainer::append]. *)
Definition append (prefs : Preferences) (item : ItemPtr) (c : t) : t :=
  let c1 := truncateHistory prefs c in
  let step := mkStep (QMap.insert (QList.size (paths c1)) item []) [] in
  limitHistory prefs
    (mkContainer (paths c1 ++ [item]) (history c1 ++ [step]) (inHistory c1)
       (qCritical c1)).

(** [PathContainer::startMicroStep]. *)
Definition startMicroStep (prefs : Preferences) (c : t) : t :=
  let c1 := truncateHistory prefs c in
  mkContainer (paths c1) (history c1 ++ [emptyStep]) (-1) (qCritical c1).

Definition isPath (ty : ItemType) : bool :=
  match ty with
  | AbstractGraphicsPathType | FullGraphicsPathType | BasicGraphicsPathType => true
  | _ => false
  end.

Definition isFullOrBasic (ty : ItemType) : bool :=
  match ty with
  | FullGraphicsPathType | BasicGraphicsPathType => true
  | _ => false
  end.

(** The non-null pointers of a list, in order ([addToGroup] ignores null). *)
Definition nonNull (l : list (option GraphicsObject)) : list GraphicsObject :=
  flat_map (fun o => match o with Some x => [x] | None => [] end) l.

(** [group->removeFromGroup(child)]. *)
Fixpoint removeFromGroup (child : GraphicsObject) (children : list GraphicsObject) :
    list GraphicsObject :=
  match children with
  | [] => []
  | x :: rest =>
      if GraphicsObject_eq_dec x child then rest
      else x :: removeFromGroup child rest
  end.

(** The eraser applied to one child of a group. *)
Definition eraseChild (g : Geometry) (pos : QPointF) (size : qreal)
    (children : list GraphicsObject) (child : GraphicsObject) : list GraphicsObject :=
  if isFullOrBasic (objType child) then
    match splitErase g child pos size with
    | None :: _ => children
    | list => removeFromGroup child (children ++ nonNull list)
    end
  else children.

(** The body of the loop of [eraserMicroStep] at cell [i]: the new content
    of the cell and the new [history.last()->deletedItems]. *)
Definition eraseAt (g : Geometry) (pos : QPointF) (size : qreal) (i : Z)
    (p : ItemPtr) (deleted : QMap.t ItemPtr) : ItemPtr * QMap.t ItemPtr :=
  match p with
  | None => (p, deleted)
  | Some item =>
      if boundingRectContains g item pos size then
        match item with
        | Single path =>
            if isPath (objType path) then
              match splitErase g path pos size with
              | [] => (None, QMap.insert i p deleted)
              | None :: _ => (p, deleted)
              | list => (Some (ItemGroup (nonNull list)), QMap.insert i p deleted)
              end
            else (p, deleted)
        | ItemGroup children =>
            (Some (ItemGroup (fold_left (eraseChild g pos size) children children)),
             deleted)
        end
      else (p, deleted)
  end.

Fixpoint eraserLoop (g : Geometry) (pos : QPointF) (size : qreal) (i : Z)
    (p : list ItemPtr) (deleted : QMap.t ItemPtr) : list ItemPtr * QMap.t ItemPtr :=
  match p with
  | [] => ([], deleted)
  | x :: rest =>
      let '(x', deleted1) := eraseAt g pos size i x deleted in
      let '(rest', deleted2) := eraserLoop g pos size (i + 1) rest deleted1 in
      (x' :: rest', deleted2)
  end.

(** [PathContainer::eraserMicroStep]. *)
Definition eraserMicroStep (g : Geometry) (pos : QPointF) (size : qreal) (c : t) : t :=
  if negb (inHistory c =? -1) then
    mkContainer (paths c) (history c) (inHistory c)
      (qCritical c ++ [TriedMicrostep (inHistory c)])
  else
    let step := last (history c) emptyStep in
    let '(p, deleted) := eraserLoop g pos size 0 (paths c) (deletedItems step) in
    mkContainer p (setLast (mkStep (createdItems step) deleted) (history c))
      (inHistory c) (qCritical c).

(** [paths.indexOf(item)]. *)
Fixpoint indexOfFrom (i : Z) (item : ItemPtr) (l : list ItemPtr) : Z :=
  match l with
  | [] => -1
  | x :: rest =>
      if ItemPtr_eq_dec x item then i else indexOfFrom (i + 1) item rest
  end.

Definition indexOf (item : ItemPtr) (l : list ItemPtr) : Z := indexOfFrom 0 item l.

(** [PathContainer::removeItem]; freeing [item] leaves no trace in the state. *)
Definition removeItem (prefs : Preferences) (item : Item) (c : t) : t :=
  let index := indexOf (Some item) (paths c) in
  if index <? 0 then c
  else
    let c1 := truncateHistory prefs c in
    let step := mkStep [] (QMap.insert index (Some item) []) in
    limitHistory prefs
      (mkContainer (QList.removeAt index (paths c1)) (history c1 ++ [step])
         (inHistory c1) (qCritical c1)).

(** [PathContainer::addTextItem]. *)
Definition addTextItem (prefs : Preferences) (item : Item) (c : t) : t :=
  if negb (indexOf (Some item) (paths c) <? 0) then
    if inHistory c =? -2
    then mkContainer (paths c) (history c) 0 (qCritical c)
    else c
  else append prefs (Some item) c.

(** One item of [paths] as [copy()] duplicates it. *)
Definition copyItem (g : Geometry) (p : ItemPtr) : list ItemPtr :=
  match p with
  | Some (Single o) =>
      match objType o with
      | TextGraphicsItemType =>
          if textIsEmpty g o then [] else [Some (Single (clone g o))]
      | FullGraphicsPathType | BasicGraphicsPathType | QGraphicsLineItemType =>
          [Some (Single (clone g o))]
      | _ => []
      end
  | _ => []
  end.

(** [PathContainer::copy]: a detached container without history. *)
Definition copy (g : Geometry) (c : t) : t :=
  mkContainer (flat_map (copyItem g) (paths c)) [] (-2) (qCritical c).

(** The container a slide starts with. *)
Definition empty : t := mkContainer [] [] 0 [].

(** *** Iterated undo and redo *)

Fixpoint undo_times (k : nat) (c : t) : t :=
  match k with
  | O => c
  | S k' => undo_times k' (snd (undo c))
  end.

Fixpoint redo_times (k : nat) (c : t) : t :=
  match k with
  | O => c
  | S k' => redo_times k' (snd (redo c))
  end.

(** *** Reachable states

    The states a container goes through when its operations are called as
    the state machine of the history cursor allows.  Three calls that the
    state machine rules out are left out, because the source does not
    recover from them: [applyMicroStep] while steps are undone
    ([inHistory > 0]; it would set the cursor to 0 without replaying them),
    [removeItem] during an open micro-step (it looks up the index of the
    item before [truncateHistory] applies the open step and renumbers the
    cells), and [copy] during an open micro-step (it reads the type of every
    cell, and erased cells are null).  Items handed to the container are
    single objects. *)
Inductive Reachable (g : Geometry) : t -> Prop :=
  | R_empty : Reachable g empty
  | R_append prefs o c :
      Reachable g c -> Reachable g (append prefs (Some (Single o)) c)
  | R_addTextItem prefs o c :
      Reachable g c -> Reachable g (addTextItem prefs (Single o) c)
  | R_removeItem prefs item c :
      Reachable g c -> inHistory c <> -1 -> Reachable g (removeItem prefs item c)
  | R_clearPaths prefs c :
      Reachable g c -> Reachable g (clearPaths prefs c)
  | R_startMicroStep prefs c :
      Reachable g c -> Reachable g (startMicroStep prefs c)
  | R_eraserMicroStep pos size c :
      Reachable g c -> Reachable g (eraserMicroStep g pos size c)
  | R_applyMicroStep prefs c :
      Reachable g c -> inHistory c <= 0 ->
      Reachable g (snd (applyMicroStep prefs c))
  | R_undo c : Reachable g c -> Reachable g (snd (undo c))
  | R_redo c : Reachable g c -> Reachable g (snd (redo c))
  | R_truncateHistory prefs c :
      Reachable g c -> Reachable g (truncateHistory prefs c)
  | R_clearHistory prefs n c :
      Reachable g c -> Reachable g (clearHistory prefs n c)
  | R_copy c :
      Reachable g c -> inHistory c <> -1 -> Reachable g (copy g c).

(** *** What the history records

    [step_links s before after]: replaying [s] backwards turns [after] into
    [before], replaying it forwards turns [before] into [after]. *)
Definition undoPaths (s : DrawHistoryStep) (p : list ItemPtr) : list ItemPtr :=
  insertItems (deletedItems s) (removeKeys (createdItems s) p).

Definition redoPaths (s : DrawHistoryStep) (p : list ItemPtr) : list ItemPtr :=
  insertItems (createdItems s) (removeKeys (deletedItems s) p).

Definition step_links (s : DrawHistoryStep) (before after : list ItemPtr) : Prop :=
  undoPaths s after = before /\ redoPaths s before = after.

Definition plainPtr (p : ItemPtr) : Prop := exists o, p = Some (Single o).

Definition plain (l : list ItemPtr) : Prop := Forall plainPtr l.

(** [links h l0 l]: the steps of [h], oldest first, lead from the sequence
    [l0] to the sequence [l] through sequences of single objects. *)
Fixpoint links (h : list DrawHistoryStep) (l0 l : list ItemPtr) : Prop :=
  match h with
  | [] => l0 = l /\ plain l0
  | s :: h' => exists l1, plain l0 /\ step_links s l0 l1 /\ links h' l1 l
  end.

(** Cell [i] during an open micro-step, against the sequence [orig] the
    micro-step started from: a recorded cell is null or a group, any other
    cell is untouched. *)
Definition slot_ok (deleted : QMap.t ItemPtr) (i : Z) (o p : ItemPtr) : Prop :=
  match QMap.find i deleted with
  | Some d => d = o /\ (p = None \/ exists ch, p = Some (ItemGroup ch))
  | None => p = o
  end.

Fixpoint slots_ok (deleted : QMap.t ItemPtr) (i : Z) (orig p : list ItemPtr) : Prop :=
  match orig, p with
  | [], [] => True
  | o :: orig', x :: p' => slot_ok deleted i o x /\ slots_ok deleted (i + 1) orig' p'
  | _, _ => False
  end.

Definition keys_within (n : Z) (m : QMap.t ItemPtr) : Prop :=
  Forall (fun k => 0 <= k < n) (QMap.keys m).

(** The invariant of the reachable states. *)
Definition Inv (c : t) : Prop :=
  (inHistory c = -2 /\ history c = [] /\ plain (paths c))
  \/ (inHistory c = -1 /\
      exists applied s orig l0,
        history c = applied ++ [s] /\ createdItems s = [] /\
        links applied l0 orig /\
        slots_ok (deletedItems s) 0 orig (paths c) /\
        QMap.wf (deletedItems s) /\
        keys_within (QList.size orig) (deletedItems s))
  \/ (0 <= inHistory c /\
      exists applied undone l0 top,
        history c = applied ++ undone /\
        Z.of_nat (length undone) = inHistory c /\
        links applied l0 (paths c) /\ links undone (paths c) top).

(** The eraser has no effect on the cell [p]. *)
Definition eraserMisses (g : Geometry) (pos : QPointF) (size : qreal) (p : ItemPtr) : bool :=
  match p with
  | None => true
  | Some item =>
      if boundingRectContains g item pos size then
        match item with
        | Single path =>
            if isPath (objType path) then
              match splitErase g path pos size with
              | None :: _ => true
              | _ => false
              end
            else true
        | ItemGroup children =>
            forallb
              (fun child =>
                 if isFullOrBasic (objType child) then
                   match splitErase g child pos size with
                   | None :: _ => true
                   | _ => false
                   end
                 else true)
              children
        end
      else true
  end.

End PathContainer.

(** ** The cache of rendered pages *)

Module PixCache.

(** The content of a [QPixmap]: a tag for the image and the number of bytes
    of its PNG encoding. *)
Record QPixmap : Type := mkPixmap { pixTag : nat; pixPngBytes : Z }.

(** A [PngPixmap]: the compressed image of a page at a resolution. *)
Record PngPixmap : Type := mkPng {
  getPage : Z;
  getResolution : Q;
  size : Z;
  isNull : bool;
  pixmap : QPixmap
}.

(** [new PngPixmap(pix, page, resolution)]. *)
Definition newPngPixmap (pix : QPixmap) (page : Z) (resolution : Q) : PngPixmap :=
  mkPng page resolution (pixPngBytes pix) false pix.

Inductive PagePart : Type := FullPage | LeftHalf | RightHalf.

(** The renderer: [renderPixmap] answers [None] for a null pixmap. *)
Record AbstractRenderer : Type := mkRenderer {
  isValid : bool;
  pagePart : PagePart;
  renderPixmap : Z -> Q -> option QPixmap
}.

Record PdfDocument : Type := mkDocument {
  numberOfPages : Z;
  pageSize : Z -> Q * Q
}.

(** What the cache makes visible to the outside: signals, timers, calls of
    the renderer in the calling thread, and messages. *)
Inductive Event : Type :=
  | pageReady (pix : QPixmap) (page : Z)
  | setPixCacheThreadPage (thread : nat) (page : Z) (resolution : Q)
  | startTimer
  | rendered (page : Z) (resolution : Q)
  | criticalInvalidRenderer
  | criticalRenderingFailed (page : Z) (resolution : Q).

(** The state of a [PixCache].  [maxMemory] is a [float] in the source; the
    model keeps its value, a whole number of bytes (budgets with a fraction
    of a byte are left out, and of the whole numbers the program has those
    that a [float] holds), and rounds to [float] wherever the source
    computes or compares in [float] ([toFloat], [roundFloat] below).  A
    thread is the null pointer ([None]) or is running or idle. *)
Record t : Type := mkCache {
  cache : QMap.t (option PngPixmap);
  priority : list Z;
  region : Z * Z;
  frame : Q * Q;
  maxMemory : Z;
  usedMemory : Z;
  maxNumber : Z;
  threads : list (option bool);
  renderer : option AbstractRenderer;
  pdfDoc : PdfDocument;
  trace : list Event
}.

(** [preferences()]: the part the cache reads. *)
Record Preferences : Type := mkPreferences { page : Z }.

Definition MAX_RESOLUTION_DEVIATION : Q := 1 # 1000000000.

(** [INT_MAX >> 1] *)
Definition INT_MAX_HALF : Z := Z.shiftr 2147483647 1.

Definition setCache (m : QMap.t (option PngPixmap)) (used : Z) (c : t) : t :=
  mkCache m (priority c) (region c) (frame c) (maxMemory c) used (maxNumber c)
    (threads c) (renderer c) (pdfDoc c) (trace c).

Definition setRegion (r : Z * Z) (c : t) : t :=
  mkCache (cache c) (priority c) r (frame c) (maxMemory c) (usedMemory c)
    (maxNumber c) (threads c) (renderer c) (pdfDoc c) (trace c).

Definition setPriority (p : list Z) (c : t) : t :=
  mkCache (cache c) p (region c) (frame c) (maxMemory c) (usedMemory c)
    (maxNumber c) (threads c) (renderer c) (pdfDoc c) (trace c).

Definition setFrame (f : Q * Q) (c : t) : t :=
  mkCache (cache c) (priority c) (region c) f (maxMemory c) (usedMemory c)
    (maxNumber c) (threads c) (renderer c) (pdfDoc c) (trace c).

Definition emit (e : Event) (c : t) : t :=
  mkCache (cache c) (priority c) (region c) (frame c) (maxMemory c)
    (usedMemory c) (maxNumber c) (threads c) (renderer c) (pdfDoc c)
    (trace c ++ [e]).

Definition Qltb (a b : Q) : bool := negb (Qle_bool b a).

(** [abs(a - b) < MAX_RESOLUTION_DEVIATION] *)
Definition sameResolution (a b : Q) : bool :=
  Qltb (Qabs (a - b)) MAX_RESOLUTION_DEVIATION.

(** [PixCache::clear]. *)
Definition clear (prefs : Preferences) (c : t) : t :=
  setRegion (page prefs, page prefs) (setCache [] 0 c).

(** [PixCache::getResolution]; without a renderer the page part counts as
    the full page. *)
Definition resolutionOf (c : t) (n : Z) : Q :=
  let '(w, h) := pageSize (pdfDoc c) n in
  if Qle_bool w 0 || Qle_bool h 0 then (-1)%Q
  else
    let part := match renderer c with Some r => pagePart r | None => FullPage end in
    let w := match part with FullPage => w | _ => (w / 2)%Q end in
    if Qltb (h * fst (frame c)) (w * snd (frame c))
    then (fst (frame c) / w)%Q
    else (snd (frame c) / h)%Q.

(** The cached image of [n] that fits [resolution], if there is one. *)
Definition cached (c : t) (n : Z) (resolution : Q) : option PngPixmap :=
  match QMap.find n (cache c) with
  | Some (Some png) =>
      if sameResolution (getResolution png) resolution then Some png else None
  | _ => None
  end.

(** "Write pixmap to cache": the entry of the page is replaced and the
    memory total follows. *)
Definition store (png : PngPixmap) (n : Z) (c : t) : t :=
  let used :=
    match QMap.value None n (cache c) with
    | Some old => usedMemory c - size old
    | None => usedMemory c
    end in
  setCache (QMap.insert n (Some png) (cache c)) (used + size png) c.

(** [PixCache::pixmap]: the pixmap ([None] when null) and the new state. *)
Definition getPixmap (n : Z) (resolution : Q) (c : t) : option QPixmap * t :=
  let resolution := if Qle_bool resolution 0 then resolutionOf c n else resolution in
  match cached c n resolution with
  | Some png => (Some (pixmap png), c)
  | None =>
      if (n <? 0) || (n >=? numberOfPages (pdfDoc c)) then (None, c)
      else
        match renderer c with
        | None => (None, emit criticalInvalidRenderer c)
        | Some r =>
            if negb (isValid r) then (None, emit criticalInvalidRenderer c)
            else
              let c1 := emit (rendered n resolution) c in
              match renderPixmap r n resolution with
              | None => (None, emit (criticalRenderingFailed n resolution) c1)
              | Some pix =>
                  (Some pix, store (newPngPixmap pix n resolution) n c1)
              end
        end
  end.

(** [PixCache::requestRenderPage]. *)
Definition requestRenderPage (n : Z) (c : t) : t :=
  let c1 :=
    if negb (existsb (Z.eqb n) (priority c)) && negb (QMap.contains n (cache c))
    then setPriority (priority c ++ [n]) c
    else c in
  emit startTimer c1.

(** [QList::removeOne]. *)
Fixpoint removeOne (n : Z) (l : list Z) : list Z :=
  match l with
  | [] => []
  | x :: rest => if x =? n then rest else x :: removeOne n rest
  end.

(** The two loops of [pageNumberChanged] that walk over the cached keys next
    to the region; each turn uses up one key. *)
Fixpoint extendDown (fuel : nat) (m : QMap.t (option PngPixmap)) (first : Z) : Z :=
  match fuel with
  | O => first
  | S fuel' =>
      if QMap.contains first m then extendDown fuel' m (first - 1) else first
  end.

Fixpoint extendUp (fuel : nat) (m : QMap.t (option PngPixmap)) (second : Z) : Z :=
  match fuel with
  | O => second
  | S fuel' =>
      if QMap.contains second m then extendUp fuel' m (second + 1) else second
  end.

(** [PixCache::pageNumberChanged]. *)
Definition pageNumberChanged (n : Z) (c : t) : t :=
  if negb (QMap.contains n (cache c)) then
    let c1 :=
      match priority c with
      | first :: _ =>
          if negb (first =? n)
          then setPriority (n :: removeOne n (priority c)) c
          else c
      | [] => c
      end in
    setRegion (n, n) c1
  else
    let r :=
      if (fst (region c) >? n) || (snd (region c) <? n) then (n - 1, n + 1)
      else region c in
    let first := extendDown (length (cache c)) (cache c) (fst r) in
    let second := extendUp (length (cache c)) (cache c) (snd r) in
    emit startTimer (setRegion (first, second) c).

Definition threadsLength (c : t) : Z := QList.size (threads c).

Definition isRunning (th : option bool) : bool :=
  match th with Some true => true | _ => false end.

Definition runningThreads (c : t) : Z :=
  Z.of_nat (length (filter isRunning (threads c))).

(** *** Arithmetic in [float]

    A [float] is an IEEE 754 binary32 number: 24 significant bits, results
    rounded to nearest, ties to even.  The model keeps the value of a float
    as a rational number and leaves the exponent unbounded: with budgets
    and sizes that are whole numbers of bytes no result is subnormal, and a
    result overflows only for budgets beyond 10^38 bytes. *)

(** The integer nearest to [num / den], ties to even; [0 <= num], [0 < den]. *)
Definition roundHalfEven (num den : Z) : Z :=
  let q := num / den in
  let r := num mod den in
  if 2 * r <? den then q
  else if 2 * r >? den then q + 1
  else if Z.even q then q else q + 1.

(** [e] with [2^e <= p / q < 2^(e+1)], for [0 < p] and [0 < q]. *)
Definition binaryExponent (p q : Z) : Z :=
  let e := Z.log2 p - Z.log2 q in
  let below :=
    if e >=? 0 then p <? q * 2 ^ e else p * 2 ^ (- e) <? q in
  if below then e - 1 else e.

(** [p / q] rounded to 24 significant bits, for [0 < p] and [0 < q]. *)
Definition roundPositive (p q : Z) : Q :=
  let s := binaryExponent p q - 23 in
  if s >=? 0 then inject_Z (roundHalfEven p (q * 2 ^ s) * 2 ^ s)
  else Qmake (roundHalfEven (p * 2 ^ (- s)) q) (Z.to_pos (2 ^ (- s))).

(** The [float] nearest to [x]: the result of a [float] operation whose
    exact result is [x]. *)
Definition roundFloat (x : Q) : Q :=
  match Qnum x with
  | Z0 => 0%Q
  | Zpos p => roundPositive (Zpos p) (Zpos (Qden x))
  | Zneg p => (- roundPositive (Zpos p) (Zpos (Qden x)))%Q
  end.

(** The conversion of an [int] or a [qint64] to [float]. *)
Definition toFloat (z : Z) : Q := roundFloat (inject_Z z).

(** The conversion of a [float] to [int]: the fraction is dropped. *)
Definition truncate (x : Q) : Z := Z.quot (Qnum x) (Zpos (Qden x)).

(** [(maxMemory - usedMemory) * cached_slides / usedMemory] assigned to an
    [int]: [usedMemory] and [cached_slides] are converted to [float], each
    of the three operations rounds its result to [float], and the quotient
    is truncated. *)
Definition slidesInMemory (maxMem used cached_slides : Z) : Z :=
  let difference := roundFloat (inject_Z maxMem - toFloat used) in
  let product := roundFloat (difference * toFloat cached_slides) in
  truncate (roundFloat (product / toFloat used)).

(** [usedMemory <= maxMemory]: [usedMemory] is converted to [float]. *)
Definition fitsMemory (used maxMem : Z) : bool :=
  Qle_bool (toFloat used) (inject_Z maxMem).

(** The test that ends the eviction with 0: the cached pages fit the
    budgets, lie around and mostly ahead of the current page; or fewer than
    two are left. *)
Definition settled (pref_page first last : Z) (c : t) : bool :=
  (((maxNumber c <? 0) || (QMap.size (cache c) <=? maxNumber c))
   && ((maxMemory c <? 0) || fitsMemory (usedMemory c) (maxMemory c))
   && (last >? pref_page)
   && (last - first <=? QMap.size (cache c))
   && (2 * last + 3 * first >? 5 * pref_page))
  || (QMap.size (cache c) <? 2).

(** [allowed_slides] as the loop recomputes it after a page was deleted. *)
Definition allowedAfterRemoval (cached_slides : Z) (c : t) : Z :=
  if (usedMemory c >? 0) && (cached_slides >? 0) then
    let allowed := slidesInMemory (maxMemory c) (usedMemory c) cached_slides in
    if allowed + QMap.size (cache c) >? maxNumber c
    then maxNumber c - QMap.size (cache c)
    else allowed
  else maxNumber c - QMap.size (cache c).

(** The end of [limitCacheSize] after the loop. *)
Definition shrinkRegion (first last : Z) (c : t) : t :=
  let r1 := if first >? fst (region c) + 1 then first - 1 else fst (region c) in
  let r2 := if last + 1 <? snd (region c) then last + 1 else snd (region c) in
  setRegion (r1, r2) c.

(** One eviction: the entry at the end ([std::prev(cache.end())]) or at the
    start ([cache.begin()]) is erased; unless it is the null pointer, its
    size is taken off [usedMemory]. *)
Definition evictEntry (fromEnd : bool) (c : t) : option PngPixmap * t :=
  let remove :=
    if fromEnd then snd (List.last (cache c) (0, None))
    else snd (hd (0, None) (cache c)) in
  let m := if fromEnd then removelast (cache c) else tl (cache c) in
  let used :=
    match remove with
    | Some png => usedMemory c - size png
    | None => usedMemory c
    end in
  (remove, setCache m used c).

(** The [do ... while] loop of [limitCacheSize].  Every turn deletes one
    entry, so [fuel], the number of entries at the start, is never used up
    before the test [cache.size() < 2] ends the loop with 0. *)
Fixpoint evictLoop (fuel : nat) (pref_page first last allowed_slides cached_slides : Z)
    (c : t) : Z * t :=
  match fuel with
  | O => (0, c)
  | S fuel' =>
      if settled pref_page first last c then (0, c)
      else
        let fromEnd := last + 3 * first >? 4 * pref_page in
        let '(remove, c1) := evictEntry fromEnd c in
        let first' := if fromEnd then first else QMap.firstKey (cache c1) in
        let last' := if fromEnd then QMap.lastKey (cache c1) else last in
        match remove with
        | None =>
            if (allowed_slides <? threadsLength c) && (cached_slides >? 0)
            then evictLoop fuel' pref_page first' last' allowed_slides cached_slides c1
            else (allowed_slides, shrinkRegion first' last' c1)
        | Some png =>
            let cached_slides' := cached_slides - 1 in
            let allowed' := allowedAfterRemoval cached_slides' c1 in
            if (allowed' <? threadsLength c) && (cached_slides' >? 0)
            then evictLoop fuel' pref_page first' last' allowed' cached_slides' c1
            else (allowed', shrinkRegion first' last' c1)
        end
  end.

(** [PixCache::limitCacheSize]. *)
Definition limitCacheSize (prefs : Preferences) (c : t) : Z * t :=
  if (maxMemory c <? 0) && (maxNumber c <? 0) then
    if QMap.size (cache c) =? numberOfPages (pdfDoc c) then (0, c)
    else (INT_MAX_HALF, c)
  else if (maxNumber c =? 0) || (maxMemory c =? 0) then (0, clear prefs c)
  else
    let pref_page := page prefs in
    let c1 :=
      if fst (region c) >? snd (region c) then setRegion (pref_page, pref_page) c
      else c in
    let cached_slides := QMap.size (cache c1) - runningThreads c1 in
    if cached_slides <=? 0 then (INT_MAX_HALF, c1)
    else
      let byMemory :=
        if maxMemory c1 >? 0 then
          if (usedMemory c1 >? 0) && (cached_slides >? 0)
          then slidesInMemory (maxMemory c1) (usedMemory c1) cached_slides
          else threadsLength c1
        else INT_MAX_HALF in
      let allowed_slides :=
        if (maxNumber c1 >? 0) && (byMemory + QMap.size (cache c1) >? maxNumber c1)
        then maxNumber c1 - QMap.size (cache c1)
        else byMemory in
      if allowed_slides >=? threadsLength c1 then (allowed_slides, c1)
      else
        evictLoop (length (cache c1)) pref_page (QMap.firstKey (cache c1))
          (QMap.lastKey (cache c1)) allowed_slides cached_slides c1.

(** The first loop of [renderNext]: pages of the priority queue. *)
Fixpoint takeUncached (m : QMap.t (option PngPixmap)) (queue : list Z) :
    option Z * list Z :=
  match queue with
  | [] => (None, [])
  | n :: rest =>
      if negb (QMap.contains n m) then (Some n, rest) else takeUncached m rest
  end.

(** The second loop of [renderNext], [while (true)]: [None] when [fuel]
    turns do not find a page. *)
Fixpoint growRegion (fuel : nat) (m : QMap.t (option PngPixmap)) (pref_page : Z)
    (r : Z * Z) : option (Z * (Z * Z)) :=
  match fuel with
  | O => None
  | S fuel' =>
      let '(first, second) := r in
      if (second + 3 * first >? 4 * pref_page) && (first >=? 0) then
        if negb (QMap.contains first m) then Some (first, (first - 1, second))
        else growRegion fuel' m pref_page (first - 1, second)
      else
        if negb (QMap.contains second m) then Some (second, (first, second + 1))
        else growRegion fuel' m pref_page (first, second + 1)
  end.

(** [PixCache::renderNext]. *)
Definition renderNext (prefs : Preferences) (c : t) : option (Z * t) :=
  match takeUncached (cache c) (priority c) with
  | (Some n, rest) => Some (n, setPriority rest c)
  | (None, rest) =>
      let c1 := setPriority rest c in
      let pref_page := page prefs in
      let r :=
        if fst (region c1) >? snd (region c1) then (pref_page, pref_page)
        else region c1 in
      match growRegion (2 * length (cache c1) + 1) (cache c1) pref_page r with
      | Some (n, r') => Some (n, setRegion r' c1)
      | None => None
      end
  end.

(** The loop of [startRendering] over the threads, from thread [i] on. *)
Fixpoint dispatch (prefs : Preferences) (i : nat) (ths : list (option bool))
    (allowed_pages : Z) (c : t) : option t :=
  match ths with
  | [] => Some c
  | th :: rest =>
      match th with
      | Some false =>
          if allowed_pages >? 0 then
            match renderNext prefs c with
            | None => None
            | Some (n, c1) =>
                if (n <? 0) || (n >=? numberOfPages (pdfDoc c1)) then Some c1
                else
                  dispatch prefs (S i) rest (allowed_pages - 1)
                    (emit (setPixCacheThreadPage i n (resolutionOf c1 n)) c1)
            end
          else dispatch prefs (S i) rest allowed_pages c
      | _ => dispatch prefs (S i) rest allowed_pages c
      end
  end.

(** [PixCache::startRendering], the scheduling pass. *)
Definition startRendering (prefs : Preferences) (c : t) : option t :=
  let '(allowed_pages, c1) := limitCacheSize prefs c in
  if allowed_pages <=? 0 then Some c1
  else dispatch prefs 0 (threads c1) allowed_pages c1.

(** [PixCache::receiveData]; [None] is the null pointer. *)
Definition receiveData (data : option PngPixmap) (c : t) : t :=
  match data with
  | None => c
  | Some png =>
      if isNull png then c
      else
        let c1 :=
          if Qltb MAX_RESOLUTION_DEVIATION
               (Qabs (resolutionOf c (getPage png) - getResolution png))
          then
            match QMap.value None (getPage png) (cache c) with
            | None => setCache (QMap.remove (getPage png) (cache c)) (usedMemory c) c
            | Some _ => c
            end
          else store png (getPage png) c in
        emit startTimer c1
  end.

(** [PixCache::updateFrame]. *)
Definition updateFrame (prefs : Preferences) (size : Q * Q) (c : t) : t :=
  if negb (Qeq_bool (fst (frame c)) (fst size) && Qeq_bool (snd (frame c)) (snd size))
     && (threadsLength c >? 0)
  then clear prefs (setFrame size c)
  else c.

(** [PixCache::requestPage]. *)
Definition requestPage (n : Z) (resolution : Q) (cache_page : bool) (c : t) : t :=
  match cached c n resolution with
  | Some png => emit (pageReady (pixmap png) n) c
  | None =>
      if (n <? 0) || (n >=? numberOfPages (pdfDoc c)) then c
      else
        match renderer c with
        | None => emit criticalInvalidRenderer c
        | Some r =>
            if negb (isValid r) then emit criticalInvalidRenderer c
            else
              let c1 := emit (rendered n resolution) c in
              match renderPixmap r n resolution with
              | None => emit (criticalRenderingFailed n resolution) c1
              | Some pix =>
                  let c2 := emit (pageReady pix n) c1 in
                  let c3 :=
                    if cache_page then store (newPngPixmap pix n resolution) n c2
                    else c2 in
                  emit startTimer c3
              end
        end
  end.

(** *** Accounting *)

(** The bytes held by the entries of the cache; an entry that is the null
    pointer (a page being rendered) holds none. *)
Fixpoint cachedBytes (m : QMap.t (option PngPixmap)) : Z :=
  match m with
  | [] => 0
  | (_, Some png) :: m' => size png + cachedBytes m'
  | (_, None) :: m' => cachedBytes m'
  end.

(** [usedMemory] is the sum of the sizes of the cached images. *)
Definition accounted (c : t) : Prop :=
  QMap.wf (cache c) /\ usedMemory c = cachedBytes (cache c).


End PixCache.

(** ** The eraser on a slide scene *)

Module SlideScene.
Import PathContainer.

(** [device & Tool::AnyEvent]; [OtherEvent] stands for the values that match
    no case of the switch. *)
Inductive DeviceEvent : Type :=
  | UpdateEvent
  | StartEvent
  | StopEvent
  | CancelEvent
  | OtherEvent.

(** [for (const QPointF &point : pos)
       container->eraserMicroStep(point, ptool->size());] *)
Definition eraserPoints (g : Geometry) (pos : list QPointF) (size : qreal)
    (c : t) : t :=
  fold_left (fun st point => eraserMicroStep g point size st) pos c.

(** The case [Tool::Eraser] of [SlideScene::handleEvents]
    (src/slidescene.cpp) on the container of the page, when there is one:
    the new state of the container and whether [newUnsavedDrawings] is
    emitted. *)
Definition eraserEvent (g : Geometry) (prefs : Preferences) (device : DeviceEvent)
    (pos : list QPointF) (size : qreal) (c : t) : bool * t :=
  match device with
  | UpdateEvent => (false, eraserPoints g pos size c)
  | StartEvent => (false, eraserPoints g pos size (startMicroStep prefs c))
  | StopEvent =>
      let '(applied, c1) := applyMicroStep prefs c in
      if applied then (true, c1) else (false, c1)
  | CancelEvent =>
      let '(applied, c1) := applyMicroStep prefs c in
      if applied then (true, snd (undo c1)) else (false, c1)
  | OtherEvent => (false, c)
  end.

(** The events of one stroke of the eraser after its [StartEvent]: the
    points and the eraser size of each [UpdateEvent]. *)
Definition updateEvents (g : Geometry) (prefs : Preferences)
    (updates : list (list QPointF * qreal)) (c : t) : t :=
  fold_left
    (fun st ev => snd (eraserEvent g prefs UpdateEvent (fst ev) (snd ev) st))
    updates c.

End SlideScene.

(** ** Pages and slides of a document (src/pdfdoc.cpp) *)

Module PdfDoc.

Definition QString : Type := list ascii.

Definition QString_eq_dec (a b : QString) : {a = b} + {a <> b} :=
  list_eq_dec ascii_dec a b.

(** What the functions below read of a [Poppler::Page].  The duration is a
    [double] in the source; it is only compared with constants. *)
Record Page : Type := mkPage {
  label : QString;
  duration : Q;
  pageSize : Z * Z
}.

(** A [PdfDoc] after [loadDocument]: [pdfPages] holds the pages of the
    document, [popplerDoc->numPages()] is their number. *)
Record t : Type := mkDoc { pdfPages : list Page }.

Definition numPages (doc : t) : Z := QList.size (pdfPages doc).

(** The list [labels] as the loop of [loadDocument] fills it. *)
Definition labels (doc : t) : list QString := map label (pdfPages doc).

(** [l[i]]; [None] when the index is out of range, where [QList] aborts or
    reads outside the list. *)
Definition at_ {A : Type} (l : list A) (i : Z) : option A :=
  if (i <? 0) || (i >=? QList.size l) then None
  else nth_error l (Z.to_nat i).

(** [PdfDoc::getPage]. *)
Definition getPage (doc : t) (pageNumber : Z) : option Page :=
  if pageNumber <? 0 then at_ (pdfPages doc) 0
  else if pageNumber >=? numPages doc then at_ (pdfPages doc) (numPages doc - 1)
  else at_ (pdfPages doc) pageNumber.

(** [PdfDoc::getPageSize]. *)
Definition getPageSize (doc : t) (pageNumber : Z) : option (Z * Z) :=
  option_map pageSize (getPage doc pageNumber).

(** [PdfDoc::getLabel]; [labels.first()] and [labels.last()] need a list
    that is not empty. *)
Definition getLabel (doc : t) (pageNumber : Z) : option QString :=
  if pageNumber <? 0 then hd_error (labels doc)
  else if pageNumber >? numPages doc then
    at_ (labels doc) (QList.size (labels doc) - 1)
  else at_ (labels doc) pageNumber.

(** The loop of [getNextSlideIndex]:
    [for (int i=index; i<popplerDoc->numPages(); i++)
       if (label != labels[i]) return i;]
    followed by [return popplerDoc->numPages()-1].  [fuel] is the number of
    pages from [i] on. *)
Fixpoint nextSlideLoop (doc : t) (fuel : nat) (lbl : QString) (i : Z) : option Z :=
  match fuel with
  | O => Some (numPages doc - 1)
  | S fuel' =>
      if i <? numPages doc then
        match at_ (labels doc) i with
        | None => None
        | Some l =>
            if QString_eq_dec lbl l then nextSlideLoop doc fuel' lbl (i + 1)
            else Some i
        end
      else Some (numPages doc - 1)
  end.

(** [PdfDoc::getNextSlideIndex]. *)
Definition getNextSlideIndex (doc : t) (index : Z) : option Z :=
  match at_ (labels doc) index with
  | None => None
  | Some lbl =>
      nextSlideLoop doc (Z.to_nat (numPages doc - index)) lbl index
  end.

(** [duration > -0.01 && duration < 1.] *)
Definition shortDuration (d : Q) : bool :=
  negb (Qle_bool d (-1 # 100)) && negb (Qle_bool 1 d).

(** What a function that reads [pdfPages] and [labels] by index comes to:
    a value, or a read at an index outside the list. *)
Inductive Outcome : Type :=
  | Returns (j : Z)
  | ReadsOutside (i : Z)
  | OutOfFuel.

(** The inner loop of [getPreviousSlideEnd]:
    [while (duration > -0.01 && duration < 1. && (labels[j] == labels[i]))
       duration = pdfPages[--j]->duration();]
    Every turn lowers [j] and reads [pdfPages[j]], so the loop takes at most
    [j + 1] turns inside the list; [fuel] is never used up. *)
Fixpoint skipShortPages (doc : t) (fuel : nat) (i j : Z) (d : Q) : Outcome :=
  match fuel with
  | O => OutOfFuel
  | S fuel' =>
      if shortDuration d then
        match at_ (labels doc) j, at_ (labels doc) i with
        | Some lj, Some li =>
            if QString_eq_dec lj li then
              match at_ (pdfPages doc) (j - 1) with
              | None => ReadsOutside (j - 1)
              | Some p => skipShortPages doc fuel' i (j - 1) (duration p)
              end
            else Returns j
        | None, _ => ReadsOutside j
        | _, None => ReadsOutside i
        end
      else Returns j
  end.

(** The outer loop of [getPreviousSlideEnd]: [for (int i=index; i>0; i--)],
    then [return 0]. *)
Fixpoint previousSlideLoop (doc : t) (fuel : nat) (lbl : QString) (i : Z) :
    Outcome :=
  match fuel with
  | O => Returns 0
  | S fuel' =>
      if i >? 0 then
        match at_ (labels doc) i with
        | None => ReadsOutside i
        | Some l =>
            if QString_eq_dec lbl l then previousSlideLoop doc fuel' lbl (i - 1)
            else
              match at_ (pdfPages doc) i with
              | None => ReadsOutside i
              | Some p =>
                  skipShortPages doc (S (S (Z.to_nat i))) i i (duration p)
              end
        end
      else Returns 0
  end.

(** [PdfDoc::getPreviousSlideEnd]. *)
Definition getPreviousSlideEnd (doc : t) (index : Z) : Outcome :=
  match at_ (labels doc) index with
  | None => ReadsOutside index
  | Some lbl => previousSlideLoop doc (Z.to_nat index) lbl index
  end.

End PdfDoc.

(** * Proofs *)

(** ** Lists and maps *)

Module QListFacts.

Import QList.

Lemma removeAt_outside {A : Type} (i : Z) (l : list A) :
  ~ (0 <= i < Z.of_nat (length l)) -> removeAt i l = l.
Proof.
  intros H. unfold removeAt.
  destruct (Z.leb_spec 0 i), (Z.ltb_spec i (Z.of_nat (length l)));
    simpl; try reflexivity; lia.
Qed.

Lemma removeAt_inside {A : Type} (i : Z) (l : list A) :
  0 <= i < Z.of_nat (length l) ->
  removeAt i l = firstn (Z.to_nat i) l ++ skipn (S (Z.to_nat i)) l.
Proof.
  intros H. unfold removeAt.
  destruct (Z.leb_spec 0 i), (Z.ltb_spec i (Z.of_nat (length l)));
    simpl; try reflexivity; lia.
Qed.

Lemma length_removeAt {A : Type} (i : Z) (l : list A) :
  0 <= i < Z.of_nat (length l) -> S (length (removeAt i l)) = length l.
Proof.
  intros H. rewrite removeAt_inside by assumption.
  rewrite length_app, length_firstn, length_skipn. lia.
Qed.

Lemma length_insert {A : Type} (i : Z) (x : A) (l : list A) :
  length (insert i x l) = S (length l).
Proof.
  unfold insert.
  destruct (Z.leb_spec i 0); [reflexivity |].
  destruct (Z.leb_spec (Z.of_nat (length l)) i).
  - rewrite length_app. simpl. lia.
  - rewrite length_app. simpl. rewrite length_firstn, length_skipn. lia.
Qed.

Lemma insert_split {A : Type} (i : Z) (x : A) (l : list A) :
  0 <= i <= Z.of_nat (length l) ->
  insert i x l = firstn (Z.to_nat i) l ++ x :: skipn (Z.to_nat i) l.
Proof.
  intros H. unfold insert.
  destruct (Z.leb_spec i 0).
  - replace i with 0 by lia. reflexivity.
  - destruct (Z.leb_spec (Z.of_nat (length l)) i); [| reflexivity].
    replace (Z.to_nat i) with (length l) by lia.
    rewrite firstn_all, skipn_all. reflexivity.
Qed.

(** Removing what was just inserted. *)
Lemma removeAt_insert {A : Type} (i : Z) (x : A) (l : list A) :
  0 <= i <= Z.of_nat (length l) -> removeAt i (insert i x l) = l.
Proof.
  intros H. rewrite removeAt_inside by (rewrite length_insert; lia).
  rewrite insert_split by assumption.
  assert (Hlen : length (firstn (Z.to_nat i) l) = Z.to_nat i)
    by (rewrite length_firstn; lia).
  rewrite firstn_app, Hlen, Nat.sub_diag, firstn_O, app_nil_r.
  rewrite firstn_firstn, Nat.min_id.
  rewrite skipn_app, Hlen.
  replace (S (Z.to_nat i) - Z.to_nat i)%nat with 1%nat by lia.
  rewrite (skipn_all2 (n := S (Z.to_nat i))) by (rewrite Hlen; lia).
  simpl. apply firstn_skipn.
Qed.

(** Inserting back what was just removed. *)
Lemma insert_removeAt {A : Type} (d : A) (i : Z) (l : list A) :
  0 <= i < Z.of_nat (length l) ->
  insert i (nth (Z.to_nat i) l d) (removeAt i l) = l.
Proof.
  intros H.
  assert (Hlen : length (firstn (Z.to_nat i) l) = Z.to_nat i)
    by (rewrite length_firstn; lia).
  rewrite insert_split.
  2:{ pose proof (length_removeAt i l H). lia. }
  rewrite removeAt_inside by assumption.
  rewrite firstn_app, Hlen, Nat.sub_diag, firstn_O, app_nil_r.
  rewrite firstn_firstn, Nat.min_id.
  rewrite skipn_app, Hlen, Nat.sub_diag.
  rewrite (skipn_all2 (n := Z.to_nat i)) by (rewrite Hlen; lia).
  simpl.
  rewrite <- (firstn_skipn (Z.to_nat i) l) at 4.
  f_equal.
  assert (Hlt : (Z.to_nat i < length l)%nat) by lia.
  revert Hlt. generalize (Z.to_nat i). clear.
  intros n. revert l. induction n as [| n IH]; intros [| y l] Hlt;
    simpl in *; try lia; [reflexivity |].
  apply IH. lia.
Qed.

Lemma insert_at_end {A : Type} (x : A) (l : list A) :
  insert (Z.of_nat (length l)) x l = l ++ [x].
Proof.
  unfold insert. destruct (Z.leb_spec (Z.of_nat (length l)) 0).
  - destruct l; [reflexivity | simpl in *; lia].
  - rewrite Z.leb_refl. reflexivity.
Qed.

Lemma removeAt_last {A : Type} (x : A) (l : list A) :
  removeAt (Z.of_nat (length l)) (l ++ [x]) = l.
Proof.
  rewrite <- insert_at_end. apply removeAt_insert. lia.
Qed.

Lemma value_inside {A : Type} (d : A) (i : Z) (l : list A) :
  0 <= i < Z.of_nat (length l) -> value d i l = nth (Z.to_nat i) l d.
Proof.
  intros H. unfold value.
  destruct (Z.leb_spec 0 i), (Z.ltb_spec i (Z.of_nat (length l)));
    simpl; try reflexivity; lia.
Qed.

Lemma value_outside {A : Type} (d : A) (i : Z) (l : list A) :
  ~ (0 <= i < Z.of_nat (length l)) -> value d i l = d.
Proof.
  intros H. unfold value.
  destruct (Z.leb_spec 0 i), (Z.ltb_spec i (Z.of_nat (length l)));
    simpl; try reflexivity; lia.
Qed.

(** A cell of the list after a removal: cells below [k] stay, the others
    move down by one. *)
Lemma nth_removeAt {A : Type} (d : A) (k : Z) (l : list A) (j : nat) :
  0 <= k < Z.of_nat (length l) ->
  nth j (removeAt k l) d
  = if (j <? Z.to_nat k)%nat then nth j l d else nth (S j) l d.
Proof.
  intros H. rewrite removeAt_inside by assumption.
  assert (Hlen : length (firstn (Z.to_nat k) l) = Z.to_nat k)
    by (rewrite length_firstn; lia).
  destruct (Nat.ltb_spec j (Z.to_nat k)) as [Hlt | Hge].
  - rewrite app_nth1 by lia. rewrite nth_firstn.
    destruct (Nat.ltb_spec j (Z.to_nat k)); [reflexivity | lia].
  - rewrite app_nth2 by lia. rewrite Hlen.
    rewrite nth_skipn. f_equal. lia.
Qed.

End QListFacts.

Module QMapFacts.

Import QMap.

Lemma insert_last {V : Type} (k : Z) (v : V) (m : t V) :
  Forall (fun k' => k' < k) (keys m) -> insert k v m = m ++ [(k, v)].
Proof.
  induction m as [| [k' v'] m IH]; intros H; [reflexivity |].
  inversion H as [| ? ? Hk Hrest]; subst. simpl in *.
  destruct (Z.ltb_spec k k'); [lia |].
  destruct (Z.eqb_spec k k'); [lia |].
  rewrite IH by assumption. reflexivity.
Qed.

Lemma find_insert_same {V : Type} (k : Z) (v : V) (m : t V) :
  find k (insert k v m) = Some v.
Proof.
  induction m as [| [k' v'] m IH]; simpl.
  - rewrite Z.eqb_refl. reflexivity.
  - destruct (Z.ltb_spec k k'); simpl.
    + rewrite Z.eqb_refl. reflexivity.
    + destruct (Z.eqb_spec k k') as [-> | Hne]; simpl.
      * rewrite Z.eqb_refl. reflexivity.
      * destruct (Z.eqb_spec k k'); [contradiction | exact IH].
Qed.

Lemma find_insert_other {V : Type} (j k : Z) (v : V) (m : t V) :
  j <> k -> find j (insert k v m) = find j m.
Proof.
  intros Hjk. induction m as [| [k' v'] m IH]; simpl.
  - destruct (Z.eqb_spec j k); [contradiction | reflexivity].
  - destruct (Z.ltb_spec k k'); simpl.
    + destruct (Z.eqb_spec j k); [contradiction | reflexivity].
    + destruct (Z.eqb_spec k k') as [-> | Hne]; simpl.
      * destruct (Z.eqb_spec j k'); [contradiction | reflexivity].
      * destruct (Z.eqb_spec j k'); [reflexivity | exact IH].
Qed.

Lemma keys_insert {V : Type} (j k : Z) (v : V) (m : t V) :
  In j (keys (insert k v m)) <-> j = k \/ In j (keys m).
Proof.
  induction m as [| [k' v'] m IH]; simpl.
  - intuition.
  - destruct (Z.ltb_spec k k'); simpl; [intuition |].
    destruct (Z.eqb_spec k k') as [-> | Hne]; simpl; [intuition |].
    unfold keys in IH. rewrite IH. intuition.
Qed.

Lemma wf_insert {V : Type} (k : Z) (v : V) (m : t V) :
  wf m -> wf (insert k v m).
Proof.
  unfold wf. induction m as [| [k' v'] m IH]; intros H; simpl.
  - repeat constructor.
  - inversion H as [| ? ? Hs Hall]; subst.
    destruct (Z.ltb_spec k k'); simpl.
    + constructor; [exact H |].
      constructor; [assumption |].
      eapply Forall_impl; [| exact Hall]. intros; simpl in *; lia.
    + destruct (Z.eqb_spec k k') as [-> | Hne]; simpl.
      * constructor; assumption.
      * constructor; [apply IH; assumption |].
        apply Forall_forall. intros j Hj.
        apply (keys_insert j k v m) in Hj. destruct Hj as [-> | Hj]; [lia |].
        rewrite Forall_forall in Hall. apply Hall. exact Hj.
Qed.

Lemma find_None_keys {V : Type} (k : Z) (m : t V) :
  find k m = None <-> ~ In k (keys m).
Proof.
  induction m as [| [k' v'] m IH]; simpl; [intuition |].
  destruct (Z.eqb_spec k k') as [-> | Hne].
  - split; [discriminate | intros H; exfalso; apply H; left; reflexivity].
  - rewrite IH. intuition.
Qed.

Lemma find_Some_keys {V : Type} (k : Z) (v : V) (m : t V) :
  find k m = Some v -> In k (keys m).
Proof.
  intros H. destruct (in_dec Z.eq_dec k (keys m)) as [Hin | Hnin]; [exact Hin |].
  apply find_None_keys in Hnin. congruence.
Qed.

Lemma find_In {V : Type} (k : Z) (v : V) (m : t V) :
  wf m -> In (k, v) m -> find k m = Some v.
Proof.
  unfold wf. induction m as [| [k' v'] m IH]; intros Hwf Hin; [contradiction |].
  simpl in *. inversion Hwf as [| ? ? Hs Hall]; subst.
  destruct Hin as [Heq | Hin].
  - inversion Heq; subst. rewrite Z.eqb_refl. reflexivity.
  - destruct (Z.eqb_spec k k') as [-> | Hne].
    + rewrite Forall_forall in Hall.
      assert (k' < k') by (apply Hall; apply (in_map fst _ _ Hin)). lia.
    + apply IH; assumption.
Qed.

End QMapFacts.

(** ** Colours survive writing and reading *)

Module ColorFormatProofs.

Import ColorFormat.
Local Open Scope char_scope.

Lemma lor_shiftl_add (hi lo n : Z) :
  (0 <= n -> 0 <= lo < 2 ^ n -> Z.lor (Z.shiftl hi n) lo = hi * 2 ^ n + lo)%Z.
Proof.
  intros Hn Hlo.
  assert (Hland : Z.land (Z.shiftl hi n) lo = 0%Z).
  { apply Z.bits_inj'; intros i Hi.
    rewrite Z.land_spec, Z.bits_0.
    destruct (Z.lt_ge_cases i n) as [Hlt | Hge].
    - rewrite Z.shiftl_spec_low by assumption. reflexivity.
    - rewrite <- (Z.mod_small lo (2 ^ n)) by assumption.
      rewrite Z.mod_pow2_bits_high by lia.
      apply andb_false_r. }
  rewrite <- Z.lxor_lor by assumption.
  rewrite <- Z.add_nocarry_lxor by assumption.
  rewrite Z.shiftl_mul_pow2 by assumption. reflexivity.
Qed.

Lemma land_255 (x : Z) : (0 <= x < 256 -> Z.land x 255 = x)%Z.
Proof.
  intros Hx. change 255%Z with (Z.ones 8).
  rewrite Z.land_ones by lia. apply Z.mod_small. simpl. lia.
Qed.

Lemma rgb_value (c : QColor) :
  valid_color c ->
  (rgb c = 255 * 2 ^ 24 + red c * 2 ^ 16 + green c * 2 ^ 8 + blue c)%Z.
Proof.
  intros (Hr & Hg & Hb & _). unfold rgb.
  rewrite !land_255 by assumption.
  rewrite (lor_shiftl_add (green c) (blue c) 8) by lia.
  rewrite (lor_shiftl_add (red c)) by lia.
  rewrite (lor_shiftl_add 255) by lia.
  lia.
Qed.

(** The 32-bit word that [color_to_rgba] prints is 0xRRGGBBAA. *)
Lemma rgba_word (c : QColor) :
  valid_color c ->
  uint32 (uint32 (Z.shiftl (rgb c) 8) + alpha c)
  = (red c * 2 ^ 24 + green c * 2 ^ 16 + blue c * 2 ^ 8 + alpha c)%Z.
Proof.
  intros Hc. pose proof Hc as (Hr & Hg & Hb & Ha).
  rewrite rgb_value by assumption.
  rewrite Z.shiftl_mul_pow2 by lia. unfold uint32.
  replace ((255 * 2 ^ 24 + red c * 2 ^ 16 + green c * 2 ^ 8 + blue c) * 2 ^ 8)%Z
    with ((red c * 2 ^ 24 + green c * 2 ^ 16 + blue c * 2 ^ 8) + 255 * 2 ^ 32)%Z
    by lia.
  rewrite Z.mod_add by lia.
  rewrite (Z.mod_small (red c * 2 ^ 24 + green c * 2 ^ 16 + blue c * 2 ^ 8))
    by lia.
  apply Z.mod_small. lia.
Qed.

Lemma hexN_zero (k : nat) : hexN k 0 = repeat "0" k.
Proof.
  induction k as [| k IH]; [reflexivity |].
  cbn [hexN]. change (0 / 16)%Z with 0%Z. rewrite IH.
  change (hex_char (0 mod 16)) with "0".
  rewrite <- repeat_cons. reflexivity.
Qed.

(** Padding the shortest form with zeros gives the fixed-width form. *)
Lemma hex_digits_pad (k : nat) : forall n : Z,
  (0 <= n < 16 ^ Z.of_nat k)%Z ->
  (length (hex_digits k n) <= k)%nat /\
  repeat "0" (k - length (hex_digits k n)) ++ hex_digits k n = hexN k n.
Proof.
  induction k as [| k IH]; intros n Hn.
  - simpl. split; [lia | reflexivity].
  - simpl hex_digits. destruct (Z.eqb_spec n 0) as [-> | Hnz].
    + split; [simpl; lia |].
      rewrite hexN_zero. simpl length. rewrite Nat.sub_0_r, app_nil_r.
      reflexivity.
    + assert (Hdiv : (0 <= n / 16 < 16 ^ Z.of_nat k)%Z).
      { rewrite Nat2Z.inj_succ, Z.pow_succ_r in Hn by lia.
        split; [apply Z.div_pos; lia |].
        apply Z.div_lt_upper_bound; lia. }
      destruct (IH _ Hdiv) as [Hlen Hpad].
      rewrite length_app. simpl length. split; [lia |].
      replace (S k - (length (hex_digits k (n / 16)) + 1))%nat
        with (k - length (hex_digits k (n / 16)))%nat by lia.
      rewrite app_assoc, Hpad. reflexivity.
Qed.

Lemma rightJustified_number16 (n : Z) :
  (0 <= n < 2 ^ 32)%Z -> rightJustified 8 "0" true (number16 n) = hexN 8 n.
Proof.
  intros Hn. unfold number16.
  destruct (Z.eqb_spec n 0) as [-> | Hnz]; [reflexivity |].
  destruct (hex_digits_pad 8 n) as [Hlen Hpad]; [simpl; lia |].
  unfold rightJustified.
  destruct (Nat.ltb_spec (length (hex_digits 8 n)) 8) as [Hlt | Hge].
  - exact Hpad.
  - replace (8 - length (hex_digits 8 n))%nat with 0%nat in Hpad by lia.
    cbn [repeat app] in Hpad. rewrite <- Hpad.
    apply firstn_all2. lia.
Qed.

Lemma h2i_hex_char (d : Z) : (0 <= d < 16)%Z -> h2i (hex_char d) = d.
Proof.
  intros Hd.
  assert (H : (d = 0 \/ d = 1 \/ d = 2 \/ d = 3 \/ d = 4 \/ d = 5 \/ d = 6 \/
               d = 7 \/ d = 8 \/ d = 9 \/ d = 10 \/ d = 11 \/ d = 12 \/
               d = 13 \/ d = 14 \/ d = 15)%Z) by lia.
  repeat (destruct H as [-> | H]; [reflexivity |]). subst d. reflexivity.
Qed.

Lemma hex2int_hex2 (v : Z) : (0 <= v < 256)%Z -> hex2int (hex2 v) 0 = v.
Proof.
  intros Hv. unfold hex2, hex2int.
  assert (Hhi : (0 <= v / 16 < 16)%Z).
  { split; [apply Z.div_pos; lia | apply Z.div_lt_upper_bound; lia]. }
  assert (Hlo : (0 <= v mod 16 < 16)%Z) by (apply Z.mod_pos_bound; lia).
  rewrite !h2i_hex_char by assumption.
  destruct (Z.ltb_spec (v / 16) 0); [lia |].
  destruct (Z.ltb_spec (v mod 16) 0); [lia |].
  pose proof (Z.div_mod v 16). lia.
Qed.

(** The eight digits of 0xRRGGBBAA, component by component. *)
Lemma hexN_rgba (r g b a : Z) :
  (0 <= r < 256 -> 0 <= g < 256 -> 0 <= b < 256 -> 0 <= a < 256 ->
   hexN 8 (r * 2 ^ 24 + g * 2 ^ 16 + b * 2 ^ 8 + a)
   = hex2 r ++ hex2 g ++ hex2 b ++ hex2 a)%Z.
Proof.
  intros Hr Hg Hb Ha. unfold hex2. cbn [hexN app].
  set (w := (r * 2 ^ 24 + g * 2 ^ 16 + b * 2 ^ 8 + a)%Z).
  assert (E1 : (w / 16 / 16 = r * 2 ^ 16 + g * 2 ^ 8 + b)%Z).
  { rewrite Z.div_div by lia. symmetry. apply (Z.div_unique _ _ _ a); [lia |].
    unfold w. lia. }
  assert (E2 : (w / 16 / 16 / 16 / 16 = r * 2 ^ 8 + g)%Z).
  { rewrite E1. rewrite Z.div_div by lia. symmetry.
    apply (Z.div_unique _ _ _ b); lia. }
  assert (E3 : (w / 16 / 16 / 16 / 16 / 16 / 16 = r)%Z).
  { rewrite E2. rewrite Z.div_div by lia. symmetry.
    apply (Z.div_unique _ _ _ g); lia. }
  assert (M : forall x y : Z, (0 <= y < 256 ->
             (x * 2 ^ 8 + y) mod 16 = y mod 16 /\
             ((x * 2 ^ 8 + y) / 16) mod 16 = y / 16)%Z).
  { intros x y Hy.
    assert (Hq : (0 <= y / 16 < 16)%Z).
    { split; [apply Z.div_pos; lia | apply Z.div_lt_upper_bound; lia]. }
    pose proof (Z.div_mod y 16 ltac:(lia)) as Hy16.
    pose proof (Z.mod_pos_bound y 16 ltac:(lia)) as Hm.
    assert (Ediv : ((x * 2 ^ 8 + y) / 16 = x * 16 + y / 16)%Z).
    { symmetry. apply (Z.div_unique _ _ _ (y mod 16)); lia. }
    split.
    - symmetry. apply (Z.mod_unique _ _ (x * 16 + y / 16)); lia.
    - rewrite Ediv. symmetry. apply (Z.mod_unique _ _ x); lia. }
  assert (D0 : (w mod 16 = a mod 16 /\ (w / 16) mod 16 = a / 16)%Z).
  { unfold w.
    replace (r * 2 ^ 24 + g * 2 ^ 16 + b * 2 ^ 8 + a)%Z
      with ((r * 2 ^ 16 + g * 2 ^ 8 + b) * 2 ^ 8 + a)%Z by lia.
    apply M; assumption. }
  assert (D1 : ((w / 16 / 16) mod 16 = b mod 16 /\
                (w / 16 / 16 / 16) mod 16 = b / 16)%Z).
  { rewrite E1.
    replace (r * 2 ^ 16 + g * 2 ^ 8 + b)%Z
      with ((r * 2 ^ 8 + g) * 2 ^ 8 + b)%Z by lia.
    apply M; assumption. }
  assert (D2 : ((w / 16 / 16 / 16 / 16) mod 16 = g mod 16 /\
                (w / 16 / 16 / 16 / 16 / 16) mod 16 = g / 16)%Z).
  { rewrite E2. apply M; assumption. }
  assert (D3 : ((w / 16 / 16 / 16 / 16 / 16 / 16) mod 16 = r mod 16 /\
                (w / 16 / 16 / 16 / 16 / 16 / 16 / 16) mod 16 = r / 16)%Z).
  { rewrite E3. replace r with (0 * 2 ^ 8 + r)%Z at 1 3 by lia.
    apply M; assumption. }
  destruct D0 as [-> ->], D1 as [-> ->], D2 as [-> ->], D3 as [-> ->].
  reflexivity.
Qed.

Lemma color_to_rgba_digits (c : QColor) :
  valid_color c ->
  color_to_rgba c
  = "#" :: hex2 (red c) ++ hex2 (green c) ++ hex2 (blue c) ++ hex2 (alpha c).
Proof.
  intros Hc. pose proof Hc as (Hr & Hg & Hb & Ha).
  unfold color_to_rgba. rewrite rgba_word by assumption.
  rewrite rightJustified_number16 by lia.
  rewrite hexN_rgba by assumption. reflexivity.
Qed.

(** C8: a colour with 8-bit red, green, blue and alpha components is written
    by [color_to_rgba] as [#rrggbbaa], two lowercase hexadecimal digits per
    component, and [rgba_to_color] reads that string back as the same
    colour. *)
Theorem rgba_to_color_color_to_rgba (c : QColor) :
  valid_color c ->
  color_to_rgba c
  = "#" :: hex2 (red c) ++ hex2 (green c) ++ hex2 (blue c) ++ hex2 (alpha c)
  /\ rgba_to_color (color_to_rgba c) = Some c.
Proof.
  intros Hc. pose proof Hc as (Hr & Hg & Hb & Ha).
  split; [apply color_to_rgba_digits; assumption |].
  rewrite color_to_rgba_digits by assumption.
  unfold rgba_to_color, right, mid, QColor_fromString.
  cbn [length hex2 app skipn firstn Nat.sub].
  fold (hex2 (alpha c)). fold (hex2 (red c)).
  fold (hex2 (green c)). fold (hex2 (blue c)).
  rewrite !hex2int_hex2 by assumption.
  destruct (Z.ltb_spec (alpha c) 0); [lia |].
  destruct (Z.ltb_spec (red c) 0); [lia |].
  destruct (Z.ltb_spec (green c) 0); [lia |].
  destruct (Z.ltb_spec (blue c) 0); [lia |].
  destruct c; reflexivity.
Qed.

Lemma rgba_to_color_color_to_rgba_witness :
  valid_color (fromRgb 255 128 0 64) /\
  color_to_rgba (fromRgb 255 128 0 64)
  = ["#"; "f"; "f"; "8"; "0"; "0"; "0"; "4"; "0"] /\
  rgba_to_color (color_to_rgba (fromRgb 255 128 0 64))
  = Some (fromRgb 255 128 0 64).
Proof.
  assert (Hc : valid_color (fromRgb 255 128 0 64)) by (unfold valid_color; simpl; lia).
  split; [exact Hc |].
  split; [reflexivity |].
  exact (proj2 (rgba_to_color_color_to_rgba (fromRgb 255 128 0 64) Hc)).
Defined.

End ColorFormatProofs.

(** ** What [rgba_to_color] accepts *)

Module ColorParsing.
Import ColorFormat.
Local Open Scope char_scope.

Lemma h2i_range (c : ascii) : (-1 <= h2i c <= 15)%Z.
Proof.
  unfold h2i. set (n := Z.of_N (N_of_ascii c)).
  destruct (Z.leb_spec 48 n), (Z.leb_spec n 57); simpl; try lia;
    destruct (Z.leb_spec 97 n), (Z.leb_spec n 102); simpl; try lia;
    destruct (Z.leb_spec 65 n), (Z.leb_spec n 70); simpl; lia.
Qed.

(** Two hexadecimal digits give a value below 256, or -1. *)
Lemma hex2int_pair (a b : ascii) :
  (hex2int [a; b] 0 <? 0)%Z = false -> (0 <= hex2int [a; b] 0 < 256)%Z.
Proof.
  pose proof (h2i_range a) as Ha. pose proof (h2i_range b) as Hb.
  simpl. destruct (Z.ltb_spec (h2i a) 0) as [Hna | Hpa];
    [intros Habs; discriminate Habs |].
  destruct (Z.ltb_spec (h2i b) 0) as [Hnb | Hpb];
    [intros Habs; discriminate Habs |].
  intros _. lia.
Qed.

Lemma QColor_fromString_hash (name : QString) (c : QColor) :
  QColor_fromString name = Some c -> exists digits, name = "#" :: digits.
Proof.
  destruct name as [| ch digits]; [intros H; discriminate H |].
  destruct ch as [b0 b1 b2 b3 b4 b5 b6 b7].
  destruct b0, b1, b2, b3, b4, b5, b6, b7; intros H; try discriminate H.
  exists digits. reflexivity.
Qed.

Lemma valid_fromRgb (r g b a : Z) :
  (0 <= r < 256 -> 0 <= g < 256 -> 0 <= b < 256 -> 0 <= a < 256 ->
   valid_color (fromRgb r g b a))%Z.
Proof. intros Hr Hg Hb Ha. repeat split; simpl; lia. Qed.

Lemma QColor_fromString_valid (name : QString) (c : QColor) :
  QColor_fromString name = Some c -> valid_color c.
Proof.
  intros H. destruct (QColor_fromString_hash name c H) as (digits & ->).
  unfold QColor_fromString in H.
  destruct digits as [| d1 [| d2 [| d3 [| d4 [| d5 [| d6 [| d7 [| d8 [| d9 rest]]]]]]]]];
    try discriminate H; cbv beta iota zeta in H.
  - (* #RGB *)
    destruct (Z.ltb (hex2int [d1; d1] 0) 0) eqn:H1; [discriminate H |].
    destruct (Z.ltb (hex2int [d2; d2] 0) 0) eqn:H2; [discriminate H |].
    destruct (Z.ltb (hex2int [d3; d3] 0) 0) eqn:H3; [discriminate H |].
    cbn [orb] in H. injection H as <-.
    apply valid_fromRgb; try (apply hex2int_pair; assumption). lia.
  - (* #RRGGBB *)
    destruct (Z.ltb (hex2int [d1; d2] 0) 0) eqn:H1; [discriminate H |].
    destruct (Z.ltb (hex2int [d3; d4] 0) 0) eqn:H2; [discriminate H |].
    destruct (Z.ltb (hex2int [d5; d6] 0) 0) eqn:H3; [discriminate H |].
    cbn [orb] in H. injection H as <-.
    apply valid_fromRgb; try (apply hex2int_pair; assumption). lia.
  - (* #AARRGGBB *)
    destruct (Z.ltb (hex2int [d1; d2] 0) 0) eqn:H0; [discriminate H |].
    destruct (Z.ltb (hex2int [d3; d4] 0) 0) eqn:H1; [discriminate H |].
    destruct (Z.ltb (hex2int [d5; d6] 0) 0) eqn:H2; [discriminate H |].
    destruct (Z.ltb (hex2int [d7; d8] 0) 0) eqn:H3; [discriminate H |].
    cbn [orb] in H. injection H as <-.
    apply valid_fromRgb; apply hex2int_pair; assumption.
Qed.

(** Whatever [rgba_to_color] reads from a string of one of the hexadecimal
    forms is a colour with all four components between 0 and 255. *)
Theorem rgba_to_color_valid (string : QString) (c : QColor) :
  rgba_to_color string = Some c -> valid_color c.
Proof.
  unfold rgba_to_color. intros H.
  destruct (Nat.eq_dec (length string) 9) as [H9 | Hn9].
  - rewrite H9 in H. exact (QColor_fromString_valid _ _ H).
  - assert (Hdefault : QColor_fromString string = Some c).
    { destruct (length string) as [| [| [| [| [| [| [| [| [| [| n]]]]]]]]]];
        try exact H. contradiction. }
    exact (QColor_fromString_valid _ _ Hdefault).
Qed.

Lemma rgba_to_color_valid_witness :
  rgba_to_color ["#"; "F"; "f"; "8"; "0"; "0"; "0"; "4"; "0"]
  = Some (fromRgb 255 128 0 64)
  /\ valid_color (fromRgb 255 128 0 64).
Proof.
  split; [reflexivity |].
  exact (rgba_to_color_valid
           ["#"; "F"; "f"; "8"; "0"; "0"; "0"; "4"; "0"]
           (fromRgb 255 128 0 64) eq_refl).
Defined.

(** [rgba_to_color] never looks at the first character of a string of nine
    characters: it puts its own ['#'] in front of the rearranged digits. *)
Theorem rgba_to_color_ignores_first (c0 c1 : ascii) (digits : QString) :
  length digits = 8%nat ->
  rgba_to_color (c0 :: digits) = rgba_to_color (c1 :: digits).
Proof.
  intros Hlen. unfold rgba_to_color. simpl length. rewrite Hlen.
  unfold right, mid. simpl length. rewrite Hlen. reflexivity.
Qed.

Lemma rgba_to_color_ignores_first_witness :
  rgba_to_color ["x"; "f"; "f"; "8"; "0"; "0"; "0"; "4"; "0"]
  = Some (fromRgb 255 128 0 64).
Proof.
  rewrite (rgba_to_color_ignores_first "x" "#"
             ["f"; "f"; "8"; "0"; "0"; "0"; "4"; "0"] eq_refl).
  reflexivity.
Defined.

End ColorParsing.

(** ** The drawing history *)

Module PathContainerProofs.

Import PathContainer.

Definition objA : GraphicsObject := mkObject FullGraphicsPathType 1.
Definition objB : GraphicsObject := mkObject BasicGraphicsPathType 2.
Definition objT : GraphicsObject := mkObject TextGraphicsItemType 3.

(** A geometry in which the eraser never touches anything. *)
Definition idleGeometry : Geometry :=
  mkGeometry (fun _ _ _ => false) (fun _ _ _ => [None]) (fun o => o)
    (fun _ => false).

Definition prefs50 : Preferences := mkPreferences 50.
Definition prefs0 : Preferences := mkPreferences 0.

(** *** [indexOf] *)

Lemma indexOfFrom_absent (x : ItemPtr) (l : list ItemPtr) : forall i,
  ~ In x l -> indexOfFrom i x l = -1.
Proof.
  induction l as [| y l IH]; intros i Hnin; simpl; [reflexivity |].
  destruct (ItemPtr_eq_dec y x) as [-> | Hne].
  - exfalso. apply Hnin. left. reflexivity.
  - apply IH. intros Hin. apply Hnin. right. exact Hin.
Qed.

Lemma indexOfFrom_present (x : ItemPtr) (l : list ItemPtr) : forall i,
  In x l ->
  i <= indexOfFrom i x l < i + Z.of_nat (length l) /\
  nth (Z.to_nat (indexOfFrom i x l - i)) l None = x.
Proof.
  induction l as [| y l IH]; intros i Hin; [contradiction |].
  simpl indexOfFrom. destruct (ItemPtr_eq_dec y x) as [-> | Hne].
  - rewrite Z.sub_diag. simpl. split; [lia | reflexivity].
  - destruct Hin as [Heq | Hin]; [contradiction |].
    destruct (IH (i + 1) Hin) as [Hrange Hnth].
    split; [simpl length; lia |].
    replace (Z.to_nat (indexOfFrom (i + 1) x l - i))
      with (S (Z.to_nat (indexOfFrom (i + 1) x l - (i + 1)))) by lia.
    exact Hnth.
Qed.

(** *** Misuse of the micro-step operations *)

Definition undoneOnce : t := snd (undo (append prefs50 (Some (Single objA)) empty)).

(** C7, as the specification states it, fails: after one [append] and one
    [undo] the cursor is 1, and [applyMicroStep] moves it to 0 (and answers
    [true]) although no micro-step is open. *)
Lemma applyMicroStep_moves_cursor :
  Reachable idleGeometry undoneOnce /\
  inHistory undoneOnce = 1 /\
  applyMicroStep prefs50 undoneOnce
  = (true,
     mkContainer (paths undoneOnce) (history undoneOnce) 0
       [ShouldApplyMicroStep 1]).
Proof.
  split; [| split; reflexivity].
  unfold undoneOnce. apply R_undo. apply R_append. apply R_empty.
Qed.

(** C7 (amended): outside an open micro-step ([inHistory <> -1]),
    [eraserMicroStep] logs a diagnostic and changes neither the live
    sequence, nor the history, nor the cursor; [applyMicroStep] logs a
    diagnostic, leaves the live sequence and the history unchanged, sets the
    cursor to 0 and returns [true]. *)
Theorem microstep_outside_open_step (g : Geometry) (prefs : Preferences)
    (pos : QPointF) (size : qreal) (c : t) :
  inHistory c <> -1 ->
  eraserMicroStep g pos size c
  = mkContainer (paths c) (history c) (inHistory c)
      (qCritical c ++ [TriedMicrostep (inHistory c)])
  /\ applyMicroStep prefs c
     = (true,
        mkContainer (paths c) (history c) 0
          (qCritical c ++ [ShouldApplyMicroStep (inHistory c)])).
Proof.
  intros Hopen. unfold eraserMicroStep, applyMicroStep.
  destruct (Z.eqb_spec (inHistory c) (-1)) as [Heq | _]; [contradiction |].
  simpl. split; reflexivity.
Qed.

Lemma microstep_outside_open_step_witness :
  inHistory undoneOnce <> -1 /\
  eraserMicroStep idleGeometry (0%Q, 0%Q) 1%Q undoneOnce
  = mkContainer (paths undoneOnce) (history undoneOnce) 1 [TriedMicrostep 1]
  /\ applyMicroStep prefs50 undoneOnce
     = (true,
        mkContainer (paths undoneOnce) (history undoneOnce) 0
          [ShouldApplyMicroStep 1]).
Proof.
  assert (H : inHistory undoneOnce <> -1) by (simpl; lia).
  split; [exact H |].
  exact (microstep_outside_open_step idleGeometry prefs50 (0%Q, 0%Q) 1%Q
           undoneOnce H).
Defined.

(** *** Removing an item that is not there *)

(** C9: [removeItem] on an item that is not in the live sequence changes
    nothing (no step is appended, the cursor stays); on an item that is in
    it, the redo steps are truncated, the first occurrence of the item is
    removed and one step recording the removal is appended (before the
    history is cut to its maximal length). *)
Theorem removeItem_present_or_absent (prefs : Preferences) (item : Item) (c : t) :
  (~ In (Some item) (paths c) -> removeItem prefs item c = c)
  /\ (In (Some item) (paths c) ->
      let index := indexOf (Some item) (paths c) in
      let c1 := truncateHistory prefs c in
      0 <= index < QList.size (paths c) /\
      nth (Z.to_nat index) (paths c) None = Some item /\
      removeItem prefs item c
      = limitHistory prefs
          (mkContainer (QList.removeAt index (paths c1))
             (history c1 ++ [mkStep [] [(index, Some item)]])
             (inHistory c1) (qCritical c1))).
Proof.
  split.
  - intros Hnin. unfold removeItem, indexOf.
    rewrite indexOfFrom_absent by assumption. reflexivity.
  - intros Hin index c1.
    destruct (indexOfFrom_present (Some item) (paths c) 0 Hin) as [Hrange Hnth].
    fold (indexOf (Some item) (paths c)) in Hrange, Hnth. fold index in Hrange, Hnth.
    rewrite Z.sub_0_r in Hnth. unfold QList.size.
    split; [lia |]. split; [exact Hnth |].
    unfold removeItem. fold index.
    destruct (Z.ltb_spec index 0); [lia |]. reflexivity.
Qed.

Lemma removeItem_present_or_absent_witness :
  removeItem prefs50 (Single objB) (append prefs50 (Some (Single objA)) empty)
  = append prefs50 (Some (Single objA)) empty
  /\ removeItem prefs50 (Single objA) (append prefs50 (Some (Single objA)) empty)
     = mkContainer []
         [mkStep [(0, Some (Single objA))] []; mkStep [] [(0, Some (Single objA))]]
         0 [].
Proof.
  pose proof (removeItem_present_or_absent prefs50 (Single objB)
                (append prefs50 (Some (Single objA)) empty)) as [Habsent _].
  split; [apply Habsent | reflexivity].
  simpl. intros [H | H]; [discriminate | contradiction].
Defined.

(** *** Replaying maps of items *)

Lemma removeKeys_cons (kv : Z * ItemPtr) (m : QMap.t ItemPtr) (p : list ItemPtr) :
  removeKeys (kv :: m) p = QList.removeAt (fst kv) (removeKeys m p).
Proof. unfold removeKeys. simpl. rewrite fold_left_app. reflexivity. Qed.

Lemma removeKeys_app (m : QMap.t ItemPtr) (kv : Z * ItemPtr) (p : list ItemPtr) :
  removeKeys (m ++ [kv]) p = removeKeys m (QList.removeAt (fst kv) p).
Proof. unfold removeKeys. rewrite rev_app_distr. reflexivity. Qed.

Lemma insertItems_app (m1 m2 : QMap.t ItemPtr) (p : list ItemPtr) :
  insertItems (m1 ++ m2) p = insertItems m2 (insertItems m1 p).
Proof. unfold insertItems. apply fold_left_app. Qed.

(** The map [{i: l[0], i+1: l[1], ...}]. *)
Fixpoint numbered (i : Z) (l : list ItemPtr) : QMap.t ItemPtr :=
  match l with
  | [] => []
  | x :: l' => (i, x) :: numbered (i + 1) l'
  end.

Lemma enumerateFrom_numbered (l : list ItemPtr) : forall i m,
  Forall (fun k => k < i) (QMap.keys m) ->
  enumerateFrom i l m = m ++ numbered i l.
Proof.
  induction l as [| x l IH]; intros i m Hm; simpl.
  - rewrite app_nil_r. reflexivity.
  - rewrite QMapFacts.insert_last by assumption.
    rewrite IH.
    + rewrite <- app_assoc. reflexivity.
    + unfold QMap.keys. rewrite map_app. apply Forall_app. split.
      * eapply Forall_impl; [| exact Hm]. intros; simpl in *; lia.
      * repeat constructor. simpl. lia.
Qed.

Lemma insertItems_numbered (l : list ItemPtr) : forall i acc,
  Z.of_nat (length acc) = i -> insertItems (numbered i l) acc = acc ++ l.
Proof.
  induction l as [| x l IH]; intros i acc Hlen; simpl.
  - rewrite app_nil_r. reflexivity.
  - change (insertItems ((i, x) :: numbered (i + 1) l) acc)
      with (insertItems (numbered (i + 1) l) (QList.insert i x acc)).
    rewrite <- Hlen, QListFacts.insert_at_end.
    rewrite IH by (rewrite length_app; simpl; lia).
    rewrite <- app_assoc. reflexivity.
Qed.

Lemma removeKeys_numbered (l : list ItemPtr) : forall i acc,
  Z.of_nat (length acc) = i -> removeKeys (numbered i l) (acc ++ l) = acc.
Proof.
  induction l as [| x l IH]; intros i acc Hlen; simpl.
  - rewrite app_nil_r. reflexivity.
  - rewrite removeKeys_cons. simpl fst.
    replace (acc ++ x :: l) with ((acc ++ [x]) ++ l)
      by (rewrite <- app_assoc; reflexivity).
    rewrite IH by (rewrite length_app; simpl; lia).
    rewrite <- Hlen. apply QListFacts.removeAt_last.
Qed.

(** *** The history as a list *)

Lemma takeFirst_times_skipn (n : nat) : forall h, takeFirst_times n h = skipn n h.
Proof.
  induction n as [| n IH]; intros h; [reflexivity |].
  destruct h as [| s h]; simpl; [rewrite IH; apply skipn_nil | apply IH].
Qed.

Lemma takeLast_times_app (u : list DrawHistoryStep) : forall a,
  takeLast_times (length u) (a ++ u) = a.
Proof.
  induction u as [| s u IH] using rev_ind; intros a.
  - simpl. apply app_nil_r.
  - rewrite length_app, Nat.add_comm. simpl.
    rewrite app_assoc, removelast_last. apply IH.
Qed.

Lemma stepAt_last (h : list DrawHistoryStep) (s : DrawHistoryStep) :
  stepAt (QList.size (h ++ [s]) - 1) (h ++ [s]) = s.
Proof.
  unfold stepAt, QList.size. rewrite length_app. simpl length.
  rewrite QListFacts.value_inside by (rewrite length_app; simpl; lia).
  replace (Z.to_nat (Z.of_nat (length h + 1) - 1)) with (length h) by lia.
  rewrite app_nth2 by lia. rewrite Nat.sub_diag. reflexivity.
Qed.

(** Cutting the history to a length of at least one keeps the newest step. *)
Lemma limitHistory_keeps_last (prefs : Preferences) (p : list ItemPtr)
    (h : list DrawHistoryStep) (s : DrawHistoryStep) (q : list Diagnostic) :
  1 <= history_length_visible_slides prefs ->
  exists h',
    limitHistory prefs (mkContainer p (h ++ [s]) 0 q) = mkContainer p (h' ++ [s]) 0 q
    /\ exists k, h' = skipn k h.
Proof.
  intros Hlimit. unfold limitHistory. simpl history.
  destruct (Z.gtb_spec (QList.size (h ++ [s])) (history_length_visible_slides prefs))
    as [Hgt | Hle].
  - unfold dropOldest. simpl.
    destruct (Z.ltb_spec (history_length_visible_slides prefs) 0); [lia |].
    rewrite takeFirst_times_skipn.
    set (k := Z.to_nat _).
    assert (Hk : (k <= length h)%nat).
    { unfold k, QList.size. rewrite length_app. simpl. lia. }
    exists (skipn k h). split; [| exists k; reflexivity].
    rewrite skipn_app.
    replace (k - length h)%nat with 0%nat by lia. reflexivity.
  - exists h. split; [reflexivity | exists 0%nat; reflexivity].
Qed.

Lemma truncateHistory_forward (prefs : Preferences) (c : t) :
  0 <= inHistory c ->
  paths (truncateHistory prefs c) = paths c /\
  inHistory (truncateHistory prefs c) = 0 /\
  qCritical (truncateHistory prefs c) = qCritical c.
Proof.
  intros H. unfold truncateHistory.
  destruct (Z.eqb_spec (inHistory c) (-1)); [lia |].
  destruct (Z.eqb_spec (inHistory c) (-2)); [lia |].
  destruct (Z.gtb_spec (inHistory c) 0); simpl; repeat split; try reflexivity.
  lia.
Qed.

Lemma undo_last_step (p : list ItemPtr) (h : list DrawHistoryStep)
    (s : DrawHistoryStep) (q : list Diagnostic) :
  undo (mkContainer p (h ++ [s]) 0 q)
  = (true, mkContainer (undoPaths s p) (h ++ [s]) 1 q).
Proof.
  unfold undo. simpl inHistory. simpl history.
  assert (Hsize : QList.size (h ++ [s]) = Z.of_nat (length h) + 1)
    by (unfold QList.size; rewrite length_app; simpl; lia).
  destruct (Z.ltb_spec (QList.size (h ++ [s]) - 0) 1); [lia |].
  simpl orb. cbv iota. simpl paths. simpl qCritical.
  change (0 + 1) with 1. rewrite stepAt_last. reflexivity.
Qed.

(** *** Clearing and undoing *)

Definition twoPaths : t :=
  append prefs50 (Some (Single objB)) (append prefs50 (Some (Single objA)) empty).

Definition twoPathsNoHistory : t :=
  append prefs0 (Some (Single objB)) (append prefs0 (Some (Single objA)) empty).

(** C5, as the specification states it, fails when the preferences keep no
    history ([history_length_visible_slides = 0]): the step that
    [clearPaths] appends is dropped at once, [undo] finds nothing to undo
    and the live sequence stays empty. *)
Lemma clearPaths_undo_without_history :
  Reachable idleGeometry twoPathsNoHistory /\
  inHistory twoPathsNoHistory = 0 /\
  paths twoPathsNoHistory = [Some (Single objA); Some (Single objB)] /\
  undo (clearPaths prefs0 twoPathsNoHistory) = (false, mkContainer [] [] 0 []).
Proof.
  split; [| repeat split].
  unfold twoPathsNoHistory. apply R_append. apply R_append. apply R_empty.
Qed.

(** C5 (amended): when the preferences keep at least one step of history,
    then from every state that is neither detached nor in an open
    micro-step, [clearPaths] followed by one [undo] gives back the live
    sequence as it was, and [undo] returns [true]. *)
Theorem clearPaths_then_undo (prefs : Preferences) (c : t) :
  1 <= history_length_visible_slides prefs ->
  0 <= inHistory c <= QList.size (history c) ->
  fst (undo (clearPaths prefs c)) = true /\
  paths (snd (undo (clearPaths prefs c))) = paths c.
Proof.
  intros Hlimit [Hcursor _].
  destruct (truncateHistory_forward prefs c Hcursor) as (Hp & Hi & Hq).
  unfold clearPaths. rewrite Hi, Hp.
  destruct (limitHistory_keeps_last prefs []
              (history (truncateHistory prefs c))
              (mkStep [] (enumerateFrom 0 (paths c) []))
              (qCritical (truncateHistory prefs c)) Hlimit)
    as (h' & -> & _).
  rewrite undo_last_step. simpl. split; [reflexivity |].
  unfold undoPaths. simpl.
  rewrite enumerateFrom_numbered by constructor.
  simpl. apply (insertItems_numbered (paths c) 0 []). reflexivity.
Qed.

Lemma clearPaths_then_undo_witness :
  1 <= history_length_visible_slides prefs50 /\
  0 <= inHistory twoPaths <= QList.size (history twoPaths) /\
  fst (undo (clearPaths prefs50 twoPaths)) = true /\
  paths (snd (undo (clearPaths prefs50 twoPaths))) = paths twoPaths.
Proof.
  assert (H1 : 1 <= history_length_visible_slides prefs50) by (simpl; lia).
  assert (H2 : 0 <= inHistory twoPaths <= QList.size (history twoPaths))
    by (vm_compute; split; discriminate).
  split; [exact H1 |]. split; [exact H2 |].
  exact (clearPaths_then_undo prefs50 twoPaths H1 H2).
Defined.

(** *** A micro-step in which the eraser touches nothing *)

Lemma eraseChild_misses (g : Geometry) (pos : QPointF) (size : qreal)
    (l : list GraphicsObject) : forall acc,
  forallb
    (fun child =>
       if isFullOrBasic (objType child) then
         match splitErase g child pos size with
         | None :: _ => true
         | _ => false
         end
       else true) l = true ->
  fold_left (eraseChild g pos size) l acc = acc.
Proof.
  induction l as [| child l IH]; intros acc H; [reflexivity |].
  simpl in H. apply andb_prop in H. destruct H as [Hchild Hrest].
  simpl. rewrite <- (IH acc Hrest) at 2. f_equal.
  unfold eraseChild. destruct (isFullOrBasic (objType child)); [| reflexivity].
  destruct (splitErase g child pos size) as [| [x |] rest];
    try discriminate; reflexivity.
Qed.

Lemma eraseAt_misses (g : Geometry) (pos : QPointF) (size : qreal) (i : Z)
    (p : ItemPtr) (deleted : QMap.t ItemPtr) :
  eraserMisses g pos size p = true ->
  eraseAt g pos size i p deleted = (p, deleted).
Proof.
  unfold eraserMisses, eraseAt. destruct p as [item |]; [| reflexivity].
  destruct (boundingRectContains g item pos size); [| reflexivity].
  destruct item as [path | children].
  - destruct (isPath (objType path)); [| reflexivity].
    destruct (splitErase g path pos size) as [| [x |] rest];
      try discriminate; reflexivity.
  - intros H. rewrite eraseChild_misses by assumption. reflexivity.
Qed.

Lemma eraserLoop_misses (g : Geometry) (pos : QPointF) (size : qreal)
    (l : list ItemPtr) : forall i deleted,
  Forall (fun p => eraserMisses g pos size p = true) l ->
  eraserLoop g pos size i l deleted = (l, deleted).
Proof.
  induction l as [| p l IH]; intros i deleted H; [reflexivity |].
  inversion H as [| ? ? Hp Hl]; subst. simpl.
  rewrite eraseAt_misses by assumption. rewrite IH by assumption.
  reflexivity.
Qed.

Lemma setLast_same (h : list DrawHistoryStep) (s : DrawHistoryStep) :
  setLast (last (h ++ [s]) emptyStep) (h ++ [s]) = h ++ [s].
Proof. unfold setLast. rewrite last_last, removelast_last. reflexivity. Qed.

Lemma eraserMicroStep_misses (g : Geometry) (prefs : Preferences)
    (pos : QPointF) (size : qreal) (c : t) :
  Forall (fun p => eraserMisses g pos size p = true) (paths (startMicroStep prefs c)) ->
  eraserMicroStep g pos size (startMicroStep prefs c) = startMicroStep prefs c.
Proof.
  intros H. unfold eraserMicroStep.
  unfold startMicroStep in *. simpl in *.
  rewrite eraserLoop_misses by assumption.
  rewrite last_last. simpl. unfold setLast. rewrite removelast_last.
  reflexivity.
Qed.

(** C6: after [startMicroStep], if every [eraserMicroStep] of the micro-step
    touches no path of the live sequence, the deleted map of the open step
    stays empty and [applyMicroStep] returns [false], leaves the live
    sequence as it was, removes the opened step from the history and sets
    the cursor to 0. *)
Theorem applyMicroStep_of_idle_micro_step (g : Geometry) (prefs : Preferences)
    (calls : list (QPointF * qreal)) (c : t) :
  let c1 := startMicroStep prefs c in
  let c2 :=
    fold_left (fun st call => eraserMicroStep g (fst call) (snd call) st) calls c1 in
  Forall
    (fun call =>
       Forall (fun p => eraserMisses g (fst call) (snd call) p = true) (paths c1))
    calls ->
  deletedItems (last (history c2) emptyStep) = []
  /\ applyMicroStep prefs c2
     = (false,
        mkContainer (paths c1) (history (truncateHistory prefs c)) 0 (qCritical c1))
  /\ paths c1 = paths (truncateHistory prefs c)
  /\ history c1 = history (truncateHistory prefs c) ++ [emptyStep].
Proof.
  intros c1 c2 Hcalls.
  assert (Hc2 : c2 = c1).
  { unfold c2. clear c2. induction calls as [| call calls IH]; [reflexivity |].
    inversion Hcalls as [| ? ? Hcall Hrest]; subst. simpl.
    unfold c1 at 1. rewrite eraserMicroStep_misses by exact Hcall.
    apply IH. exact Hrest. }
  rewrite Hc2. unfold c1, startMicroStep. simpl history. rewrite last_last.
  split; [reflexivity |]. split; [| split; reflexivity].
  unfold applyMicroStep. simpl. rewrite last_last. simpl.
  rewrite removelast_last. reflexivity.
Qed.

(** A geometry in which the eraser is inside every bounding box but splits
    no path, with one stroke of the eraser. *)
Definition grazingGeometry : Geometry :=
  mkGeometry (fun _ _ _ => true) (fun _ _ _ => [None]) (fun o => o)
    (fun _ => false).

Lemma applyMicroStep_of_idle_micro_step_witness :
  Forall
    (fun call =>
       Forall (fun p => eraserMisses grazingGeometry (fst call) (snd call) p = true)
         (paths (startMicroStep prefs50 twoPaths)))
    [((1 # 2)%Q, 3%Q, 2%Q)]
  /\ applyMicroStep prefs50
       (eraserMicroStep grazingGeometry ((1 # 2)%Q, 3%Q) 2%Q
          (startMicroStep prefs50 twoPaths))
     = (false, twoPaths).
Proof.
  assert (H : Forall
    (fun call =>
       Forall (fun p => eraserMisses grazingGeometry (fst call) (snd call) p = true)
         (paths (startMicroStep prefs50 twoPaths)))
    [((1 # 2)%Q, 3%Q, 2%Q)]) by (repeat constructor).
  split; [exact H |].
  exact (proj1 (proj2 (applyMicroStep_of_idle_micro_step grazingGeometry prefs50
                         [((1 # 2)%Q, 3%Q, 2%Q)] twoPaths H))).
Defined.

End PathContainerProofs.

(** ** Replaying a step of the history *)

Module HistoryReplay.

Import PathContainer.
Import PathContainerProofs.

(** [insertable base m]: inserting the items of [m] in order into a list of
    length [base] never reaches outside the list. *)
Fixpoint insertable (base : Z) (m : QMap.t ItemPtr) : Prop :=
  match m with
  | [] => True
  | (q, _) :: m' => 0 <= q <= base /\ insertable (base + 1) m'
  end.

(** [recorded m l]: [m] holds cells of [l] under their indices. *)
Definition recorded (m : QMap.t ItemPtr) (l : list ItemPtr) : Prop :=
  Forall (fun kv => 0 <= fst kv < Z.of_nat (length l) /\
                    nth (Z.to_nat (fst kv)) l None = snd kv) m.

Lemma wf_app_last (m : QMap.t ItemPtr) (k : Z) (v : ItemPtr) :
  QMap.wf (m ++ [(k, v)]) ->
  QMap.wf m /\ Forall (fun k' => k' < k) (QMap.keys m).
Proof.
  unfold QMap.wf, QMap.keys. rewrite map_app. simpl.
  induction (map fst m) as [| k' ks IH]; intros H; simpl in *.
  - split; constructor.
  - inversion H as [| ? ? Hs Hall]; subst.
    destruct (IH Hs) as [Hwf Hlt].
    rewrite Forall_app in Hall. destruct Hall as [Hall Hk].
    inversion Hk; subst.
    split; constructor; assumption.
Qed.

(** Items inserted within the list come out again, highest key first. *)
Lemma removeKeys_insertItems (m : QMap.t ItemPtr) :
  forall (base : Z) (l : list ItemPtr),
  insertable base m -> Z.of_nat (length l) = base ->
  removeKeys m (insertItems m l) = l.
Proof.
  induction m as [| [q v] m IH]; intros base l Hins Hlen; [reflexivity |].
  destruct Hins as [Hq Hrest].
  rewrite removeKeys_cons. simpl fst.
  change (insertItems ((q, v) :: m) l) with (insertItems m (QList.insert q v l)).
  rewrite (IH (base + 1)); [| exact Hrest |].
  - apply QListFacts.removeAt_insert. lia.
  - rewrite QListFacts.length_insert. lia.
Qed.

Lemma keys_within_app_last (n : Z) (m : QMap.t ItemPtr) (k : Z) (v : ItemPtr) :
  keys_within n (m ++ [(k, v)]) -> keys_within n m /\ 0 <= k < n.
Proof.
  unfold keys_within, QMap.keys. rewrite map_app, Forall_app.
  intros [Hm Hk]. inversion Hk; subst. split; assumption.
Qed.

(** The keys below the last key still fit after the last cell is removed. *)
Lemma keys_within_removeAt (m : QMap.t ItemPtr) (k : Z) (l : list ItemPtr) :
  keys_within (Z.of_nat (length l)) m ->
  Forall (fun k' => k' < k) (QMap.keys m) ->
  0 <= k < Z.of_nat (length l) ->
  keys_within (Z.of_nat (length (QList.removeAt k l))) m.
Proof.
  intros Hkeys Hlt Hk.
  pose proof (QListFacts.length_removeAt k l Hk) as Hlen.
  unfold keys_within in *. rewrite Forall_forall in *.
  intros j Hj. specialize (Hkeys j Hj). specialize (Hlt j Hj).
  simpl in *. lia.
Qed.

Lemma length_removeKeys (m : QMap.t ItemPtr) : forall l : list ItemPtr,
  QMap.wf m -> keys_within (Z.of_nat (length l)) m ->
  (length (removeKeys m l) + length m = length l)%nat.
Proof.
  induction m as [| [k v] m IH] using rev_ind; intros l Hwf Hkeys.
  - unfold removeKeys. simpl. lia.
  - apply wf_app_last in Hwf. destruct Hwf as [Hwf Hlt].
    apply keys_within_app_last in Hkeys. destruct Hkeys as [Hkeys Hk].
    rewrite removeKeys_app. simpl fst.
    pose proof (QListFacts.length_removeAt k l Hk) as Hlen.
    rewrite length_app. simpl.
    pose proof (IH _ Hwf (keys_within_removeAt m k l Hkeys Hlt Hk)). lia.
Qed.

(** Cells removed highest key first go back in lowest key first. *)
Lemma insertItems_removeKeys (m : QMap.t ItemPtr) : forall l : list ItemPtr,
  QMap.wf m -> recorded m l -> insertItems m (removeKeys m l) = l.
Proof.
  induction m as [| [k v] m IH] using rev_ind; intros l Hwf Hrec.
  - reflexivity.
  - apply wf_app_last in Hwf. destruct Hwf as [Hwf Hlt].
    unfold recorded in Hrec. rewrite Forall_app in Hrec.
    destruct Hrec as [Hrec Hk]. inversion Hk as [| ? ? [Hk' Hnth] _]; subst.
    simpl in Hk', Hnth.
    rewrite removeKeys_app, insertItems_app. simpl fst.
    rewrite IH; [| exact Hwf |].
    + unfold insertItems. simpl. rewrite <- Hnth.
      apply QListFacts.insert_removeAt. exact Hk'.
    + unfold recorded. rewrite Forall_forall in *.
      intros [j w] Hj. specialize (Hrec _ Hj). simpl in *.
      assert (Hjk : j < k) by (apply (Hlt j); apply (in_map fst _ _ Hj)).
      pose proof (QListFacts.length_removeAt k l Hk') as Hlen.
      split; [lia |].
      rewrite QListFacts.nth_removeAt by assumption.
      destruct (Nat.ltb_spec (Z.to_nat j) (Z.to_nat k)); [| lia].
      apply Hrec.
Qed.

(** Two lists that agree outside the keys agree once the keys are removed. *)
Lemma removeKeys_agree (m : QMap.t ItemPtr) : forall l1 l2 : list ItemPtr,
  QMap.wf m -> keys_within (Z.of_nat (length l1)) m ->
  length l1 = length l2 ->
  (forall j : nat, ~ In (Z.of_nat j) (QMap.keys m) ->
                   nth j l1 None = nth j l2 None) ->
  removeKeys m l1 = removeKeys m l2.
Proof.
  induction m as [| [k v] m IH] using rev_ind; intros l1 l2 Hwf Hkeys Hlen Hagree.
  - simpl. apply (nth_ext _ _ None None Hlen).
    intros j _. apply Hagree. intros [].
  - apply wf_app_last in Hwf. destruct Hwf as [Hwf Hlt].
    apply keys_within_app_last in Hkeys. destruct Hkeys as [Hkeys Hk].
    rewrite !removeKeys_app. simpl fst.
    assert (Hk2 : 0 <= k < Z.of_nat (length l2)) by lia.
    pose proof (QListFacts.length_removeAt k l1 Hk) as Hlen1.
    pose proof (QListFacts.length_removeAt k l2 Hk2) as Hlen2.
    apply IH;
      [exact Hwf
      |
      | apply eq_add_S; transitivity (length l1);
        [exact Hlen1 | rewrite Hlen; symmetry; exact Hlen2]
      |].
    + apply keys_within_removeAt; assumption.
    + intros j Hj.
      rewrite !QListFacts.nth_removeAt by assumption.
      unfold QMap.keys in Hagree. rewrite Forall_forall in Hlt.
      destruct (Nat.ltb_spec j (Z.to_nat k)) as [Hjk | Hjk];
        apply Hagree; rewrite map_app, in_app_iff; simpl;
        intros [Hin | [Heq | []]]; try lia.
      * apply Hj. exact Hin.
      * specialize (Hlt _ Hin). simpl in Hlt. lia.
Qed.

(** *** The created items of a micro-step *)

Lemma insertable_app (m1 : QMap.t ItemPtr) : forall base m2,
  insertable base m1 -> insertable (base + Z.of_nat (length m1)) m2 ->
  insertable base (m1 ++ m2).
Proof.
  induction m1 as [| [q v] m1 IH]; intros base m2 H1 H2; simpl in *.
  - rewrite Z.add_0_r in H2. exact H2.
  - destruct H1 as [Hq H1]. split; [exact Hq |].
    apply IH; [exact H1 |].
    replace (base + 1 + Z.of_nat (length m1))
      with (base + Z.pos (Pos.of_succ_nat (length m1))) by lia.
    exact H2.
Qed.

(** The entries [addChildren] writes for the children of one group. *)
Fixpoint childEntries (key shift : Z) (children : list GraphicsObject) :
    QMap.t ItemPtr :=
  match children with
  | [] => []
  | child :: rest =>
      (key + shift, Some (Single child)) :: childEntries key (shift + 1) rest
  end.

Lemma length_childEntries (key : Z) (children : list GraphicsObject) :
  forall shift, length (childEntries key shift children) = length children.
Proof.
  induction children as [| c rest IH]; intros shift; simpl;
    [reflexivity | rewrite IH; reflexivity].
Qed.

Lemma keys_childEntries (key : Z) (children : list GraphicsObject) :
  forall shift,
  Forall (fun q => key + shift <= q < key + shift + Z.of_nat (length children))
    (QMap.keys (childEntries key shift children)).
Proof.
  induction children as [| c rest IH]; intros shift; simpl; constructor.
  - simpl. lia.
  - eapply Forall_impl; [| apply IH]. intros q Hq. simpl in Hq. lia.
Qed.

Lemma plain_childEntries (key : Z) (children : list GraphicsObject) :
  forall shift, Forall plainPtr (QMap.values (childEntries key shift children)).
Proof.
  induction children as [| c rest IH]; intros shift; simpl; constructor.
  - exists c. reflexivity.
  - apply IH.
Qed.

Lemma insertable_childEntries (key : Z) (children : list GraphicsObject) :
  forall shift base,
  0 <= key + shift <= base -> insertable base (childEntries key shift children).
Proof.
  induction children as [| c rest IH]; intros shift base H; simpl; [exact I |].
  split; [exact H |]. apply IH. lia.
Qed.

Lemma addChildren_entries (key : Z) (children : list GraphicsObject) :
  forall shift created,
  Forall (fun q => q < key + shift) (QMap.keys created) ->
  addChildren key shift children created
  = (shift + Z.of_nat (length children),
     created ++ childEntries key shift children).
Proof.
  induction children as [| c rest IH]; intros shift created H; simpl.
  - rewrite Z.add_0_r, app_nil_r. reflexivity.
  - rewrite QMapFacts.insert_last by exact H.
    rewrite IH.
    + rewrite <- app_assoc. simpl. f_equal. lia.
    + unfold QMap.keys. rewrite map_app, Forall_app. split.
      * eapply Forall_impl; [| exact H]. intros q Hq. simpl in Hq. lia.
      * repeat constructor. simpl. lia.
Qed.

(** The least of [d] ascending keys below [n] is at most [n - d]. *)
Lemma sorted_first_bound (n : Z) (ks : list Z) :
  StronglySorted Z.lt ks -> Forall (fun k => k < n) ks ->
  forall k rest, ks = k :: rest -> k + Z.of_nat (length ks) <= n.
Proof.
  induction ks as [| k0 ks IH]; intros Hs Hn k rest Heq; [discriminate |].
  inversion Heq; subst. inversion Hs as [| ? ? Hs' Hall]; subst.
  inversion Hn as [| ? ? Hk Hn']; subst.
  destruct rest as [| k1 rest]; [simpl; lia |].
  specialize (IH Hs' Hn' k1 rest eq_refl).
  inversion Hall; subst. simpl length in *. lia.
Qed.

(** Step 1 of [applyMicroStep] appends to the created map entries that can
    be inserted in order into the cleaned list. *)
Lemma fixStep_entries (p : list ItemPtr) (n : Z) (oldItems : QMap.t ItemPtr) :
  forall shift created base,
  QMap.wf oldItems ->
  Forall (fun k => 0 <= k + shift /\ k < n) (QMap.keys oldItems) ->
  n - Z.of_nat (length oldItems) <= base - shift ->
  (forall q k, In q (QMap.keys created) -> In k (QMap.keys oldItems) ->
               q < k + shift) ->
  exists entries,
    fixStep p oldItems shift created = created ++ entries /\
    insertable base entries /\
    Forall plainPtr (QMap.values entries).
Proof.
  induction oldItems as [| [k v] rest IH]; intros shift created base Hwf Hkeys Hbase Hlt.
  - exists []. simpl. rewrite app_nil_r. repeat split. constructor.
  - unfold QMap.wf in Hwf. simpl in Hwf.
    inversion Hwf as [| ? ? Hwf' Hall]; subst.
    simpl in Hkeys. inversion Hkeys as [| ? ? [Hk0 Hkn] Hkeys']; subst.
    assert (Hfirst : k + Z.of_nat (length ((k, v) :: rest)) <= n).
    { pose proof (sorted_first_bound n (k :: QMap.keys rest)) as Hb.
      unfold QMap.keys in *. simpl length in *. rewrite length_map in Hb.
      apply (Hb Hwf) with (rest := map fst rest); [| reflexivity].
      constructor; [exact Hkn |].
      eapply Forall_impl; [| exact Hkeys']. intros a Ha. simpl in Ha. lia. }
    simpl length in Hfirst, Hbase.
    assert (Hrest : forall k', In k' (QMap.keys rest) -> k < k' /\ k' < n).
    { intros k' Hin. rewrite Forall_forall in Hall, Hkeys'.
      split; [apply Hall; exact Hin | apply (Hkeys' k' Hin)]. }
    assert (Hcreated : Forall (fun q => q < k + shift) (QMap.keys created)).
    { apply Forall_forall. intros q Hq. apply Hlt; [exact Hq | left; reflexivity]. }
    assert (Hother :
      exists entries,
        fixStep p rest (shift - 1) created = created ++ entries /\
        insertable base entries /\ Forall plainPtr (QMap.values entries)).
    { apply IH; [exact Hwf' | | lia |].
      - apply Forall_forall. intros k' Hin. destruct (Hrest k' Hin). lia.
      - intros q k' Hq Hin. destruct (Hrest k' Hin).
        rewrite Forall_forall in Hcreated. specialize (Hcreated q Hq).
        simpl in Hcreated. lia. }
    simpl fixStep.
    destruct (QList.value None k p) as [[o | children] |]; try exact Hother.
    rewrite addChildren_entries by exact Hcreated.
    destruct (IH (shift + Z.of_nat (length children) - 1)
                (created ++ childEntries k shift children)
                (base + Z.of_nat (length children)) Hwf')
      as (entries & Hfix & Hins & Hplain).
    + apply Forall_forall. intros k' Hin. destruct (Hrest k' Hin). lia.
    + lia.
    + intros q k' Hq Hin. destruct (Hrest k' Hin).
      unfold QMap.keys in Hq. rewrite map_app, in_app_iff in Hq.
      destruct Hq as [Hq | Hq].
      * rewrite Forall_forall in Hcreated. specialize (Hcreated q Hq).
        simpl in Hcreated. lia.
      * pose proof (keys_childEntries k children shift) as Hce.
        rewrite Forall_forall in Hce. specialize (Hce q Hq).
        simpl in Hce. lia.
    + exists (childEntries k shift children ++ entries).
      rewrite Hfix, <- app_assoc. split; [reflexivity |]. split.
      * apply insertable_app.
        -- apply insertable_childEntries. lia.
        -- rewrite length_childEntries. exact Hins.
      * unfold QMap.values. rewrite map_app, Forall_app. split.
        -- apply plain_childEntries.
        -- exact Hplain.
Qed.

(** *** Sequences of single objects *)

Lemma Forall_firstn {A : Type} (P : A -> Prop) (n : nat) : forall l,
  Forall P l -> Forall P (firstn n l).
Proof.
  induction n as [| n IH]; intros [| x l] H; simpl; try constructor;
    inversion H; subst; [assumption | apply IH; assumption].
Qed.

Lemma Forall_skipn {A : Type} (P : A -> Prop) (n : nat) : forall l,
  Forall P l -> Forall P (skipn n l).
Proof.
  induction n as [| n IH]; intros [| x l] H; simpl; try assumption.
  inversion H; subst. apply IH. assumption.
Qed.

Lemma plain_removeAt (k : Z) (l : list ItemPtr) : plain l -> plain (QList.removeAt k l).
Proof.
  unfold plain, QList.removeAt. intros H.
  destruct ((0 <=? k) && (k <? Z.of_nat (length l))); [| exact H].
  apply Forall_app. split; [apply Forall_firstn | apply Forall_skipn]; exact H.
Qed.

Lemma plain_insert (k : Z) (x : ItemPtr) (l : list ItemPtr) :
  plainPtr x -> plain l -> plain (QList.insert k x l).
Proof.
  unfold plain, QList.insert. intros Hx H.
  destruct (k <=? 0); [constructor; assumption |].
  destruct (Z.of_nat (length l) <=? k).
  - apply Forall_app. split; [exact H | repeat constructor; exact Hx].
  - apply Forall_app. split; [apply Forall_firstn; exact H |].
    constructor; [exact Hx | apply Forall_skipn; exact H].
Qed.

Lemma plain_removeKeys (m : QMap.t ItemPtr) : forall l : list ItemPtr,
  plain l -> plain (removeKeys m l).
Proof.
  induction m as [| kv m IH]; intros l H; [exact H |].
  rewrite removeKeys_cons. apply plain_removeAt. apply IH. exact H.
Qed.

Lemma plain_insertItems (m : QMap.t ItemPtr) : forall l : list ItemPtr,
  Forall plainPtr (QMap.values m) -> plain l -> plain (insertItems m l).
Proof.
  induction m as [| [k v] m IH]; intros l Hm H; [exact H |].
  inversion Hm; subst.
  change (insertItems ((k, v) :: m) l) with (insertItems m (QList.insert k v l)).
  apply IH; [assumption |]. apply plain_insert; assumption.
Qed.

End HistoryReplay.

(** ** Undo and redo over the reachable states *)

Module UndoRedo.

Import PathContainer.
Import PathContainerProofs.
Import HistoryReplay.

(** *** Chains of steps *)

Lemma links_plain_start (h : list DrawHistoryStep) (l0 l : list ItemPtr) :
  links h l0 l -> plain l0.
Proof.
  destruct h as [| s h]; simpl.
  - intros [_ H]. exact H.
  - intros (l1 & H & _). exact H.
Qed.

Lemma links_plain_end (h : list DrawHistoryStep) : forall l0 l,
  links h l0 l -> plain l.
Proof.
  induction h as [| s h IH]; simpl; intros l0 l.
  - intros [<- H]. exact H.
  - intros (l1 & _ & _ & H). exact (IH _ _ H).
Qed.

Lemma links_nil (l : list ItemPtr) : plain l -> links [] l l.
Proof. intros H. split; [reflexivity | exact H]. Qed.

Lemma links_app (h1 : list DrawHistoryStep) : forall h2 a c,
  links (h1 ++ h2) a c <-> exists b, links h1 a b /\ links h2 b c.
Proof.
  induction h1 as [| s h1 IH]; intros h2 a c; simpl.
  - split.
    + intros H. exists a. split; [apply links_nil; exact (links_plain_start _ _ _ H) | exact H].
    + intros (b & [-> _] & H). exact H.
  - split.
    + intros (l1 & Hp & Hs & H). apply IH in H. destruct H as (b & H1 & H2).
      exists b. split; [exists l1; auto | exact H2].
    + intros (b & (l1 & Hp & Hs & H1) & H2).
      exists l1. split; [exact Hp |]. split; [exact Hs |].
      apply IH. exists b. auto.
Qed.

Lemma links_snoc (h : list DrawHistoryStep) (s : DrawHistoryStep)
    (a b c : list ItemPtr) :
  links h a b -> step_links s b c -> plain c -> links (h ++ [s]) a c.
Proof.
  intros Hh Hs Hc. apply links_app. exists b. split; [exact Hh |].
  exists c. split; [exact (links_plain_end _ _ _ Hh) |]. split; [exact Hs |].
  apply links_nil. exact Hc.
Qed.

Lemma links_skipn (k : nat) (h : list DrawHistoryStep) (a c : list ItemPtr) :
  links h a c -> exists b, links (skipn k h) b c.
Proof.
  intros H. rewrite <- (firstn_skipn k h) in H. apply links_app in H.
  destruct H as (b & _ & H). exists b. exact H.
Qed.

(** *** States with nothing undone *)

Definition Forward (c : t) : Prop :=
  inHistory c = 0 /\ exists l0, links (history c) l0 (paths c).

Lemma Forward_Inv (c : t) : Forward c -> Inv c.
Proof.
  intros [Hi (l0 & Hl)]. right. right. split; [lia |].
  exists (history c), [], l0, (paths c).
  rewrite app_nil_r. repeat split; try assumption.
  - simpl. lia.
  - exact (links_plain_end _ _ _ Hl).
Qed.

Lemma dropOldest_Forward (n : Z) (c : t) : Forward c -> Forward (dropOldest n c).
Proof.
  intros [Hi (l0 & Hl)]. split; [exact Hi |]. simpl.
  rewrite takeFirst_times_skipn. eapply links_skipn. exact Hl.
Qed.

Lemma limitHistory_Forward (prefs : Preferences) (c : t) :
  Forward c -> Forward (limitHistory prefs c).
Proof.
  intros H. unfold limitHistory.
  destruct (QList.size (history c) >? history_length_visible_slides prefs);
    [apply dropOldest_Forward |]; exact H.
Qed.

(** A new step on top of a state with nothing undone. *)
Lemma push_Forward (c : t) (s : DrawHistoryStep) (p : list ItemPtr)
    (q : list Diagnostic) :
  Forward c -> step_links s (paths c) p -> plain p ->
  Forward (mkContainer p (history c ++ [s]) 0 q).
Proof.
  intros [Hi (l0 & Hl)] Hs Hp. split; [reflexivity |].
  exists l0. simpl. eapply links_snoc; eassumption.
Qed.

(** *** The steps of the simple operations *)

Lemma step_links_append (l : list ItemPtr) (x : ItemPtr) :
  step_links (mkStep (QMap.insert (QList.size l) x []) []) l (l ++ [x]).
Proof.
  unfold step_links, undoPaths, redoPaths, QList.size. simpl. split.
  - unfold insertItems, removeKeys. simpl. apply QListFacts.removeAt_last.
  - unfold insertItems, removeKeys. simpl. apply QListFacts.insert_at_end.
Qed.

Lemma step_links_removeAt (l : list ItemPtr) (i : Z) (x : ItemPtr) :
  0 <= i < Z.of_nat (length l) -> nth (Z.to_nat i) l None = x ->
  step_links (mkStep [] (QMap.insert i x [])) l (QList.removeAt i l).
Proof.
  intros Hi Hx. unfold step_links, undoPaths, redoPaths. simpl. split.
  - unfold insertItems, removeKeys. simpl. rewrite <- Hx.
    apply QListFacts.insert_removeAt. exact Hi.
  - reflexivity.
Qed.

Lemma step_links_clear (l : list ItemPtr) :
  step_links (mkStep [] (enumerateFrom 0 l [])) l [].
Proof.
  unfold step_links, undoPaths, redoPaths. simpl.
  rewrite enumerateFrom_numbered by constructor. simpl. split.
  - apply (insertItems_numbered l 0 []). reflexivity.
  - apply (removeKeys_numbered l 0 []). reflexivity.
Qed.

(** *** Cells during an open micro-step *)

Lemma slots_ok_length (deleted : QMap.t ItemPtr) (orig : list ItemPtr) :
  forall (i : Z) (p : list ItemPtr),
  slots_ok deleted i orig p -> length orig = length p.
Proof.
  induction orig as [| o orig IH]; intros i [| x p] H; simpl in *;
    try contradiction; [reflexivity |].
  destruct H as [_ H]. f_equal. exact (IH _ _ H).
Qed.

Lemma slots_ok_nth (deleted : QMap.t ItemPtr) (orig : list ItemPtr) :
  forall (i : Z) (p : list ItemPtr), slots_ok deleted i orig p ->
  forall j : nat, (j < length orig)%nat ->
  slot_ok deleted (i + Z.of_nat j) (nth j orig None) (nth j p None).
Proof.
  induction orig as [| o orig IH]; intros i [| x p] H j Hj; simpl in *;
    try contradiction; try lia.
  destruct H as [H0 H]. destruct j as [| j].
  - simpl. rewrite Z.add_0_r. exact H0.
  - replace (i + Z.of_nat (S j)) with (i + 1 + Z.of_nat j) by lia.
    simpl nth. apply IH; [exact H | lia].
Qed.

Lemma slots_ok_ext (d1 d2 : QMap.t ItemPtr) (orig : list ItemPtr) :
  forall (i : Z) (p : list ItemPtr),
  (forall j, i <= j -> QMap.find j d2 = QMap.find j d1) ->
  slots_ok d1 i orig p -> slots_ok d2 i orig p.
Proof.
  induction orig as [| o orig IH]; intros i [| x p] Hext H; simpl in *;
    try contradiction; [exact I |].
  destruct H as [H0 H]. split.
  - unfold slot_ok in *. rewrite Hext by lia. exact H0.
  - apply IH; [| exact H]. intros j Hj. apply Hext. lia.
Qed.

Lemma slots_ok_start (l : list ItemPtr) : forall i, slots_ok [] i l l.
Proof.
  induction l as [| x l IH]; intros i; simpl; [exact I |].
  split; [reflexivity | apply IH].
Qed.

Lemma slots_ok_untouched (orig : list ItemPtr) :
  forall (i : Z) (p : list ItemPtr),
  slots_ok [] i orig p -> p = orig.
Proof.
  induction orig as [| o orig IH]; intros i [| x p] H; simpl in *;
    try contradiction; [reflexivity |].
  destruct H as [H0 H]. unfold slot_ok in H0. simpl in H0.
  f_equal; [exact H0 | exact (IH _ _ H)].
Qed.

(** One cell under the eraser. *)
Lemma eraseAt_slot (g : Geometry) (pos : QPointF) (size : qreal) (i : Z)
    (o p : ItemPtr) (deleted : QMap.t ItemPtr) :
  slot_ok deleted i o p -> plainPtr o -> QMap.wf deleted ->
  slot_ok (snd (eraseAt g pos size i p deleted)) i o
    (fst (eraseAt g pos size i p deleted))
  /\ (forall j, j <> i ->
        QMap.find j (snd (eraseAt g pos size i p deleted)) = QMap.find j deleted)
  /\ QMap.wf (snd (eraseAt g pos size i p deleted))
  /\ (forall k, In k (QMap.keys (snd (eraseAt g pos size i p deleted))) ->
        k = i \/ In k (QMap.keys deleted)).
Proof.
  intros Hslot Ho Hwf.
  assert (Hsame : slot_ok deleted i o p /\
                  (forall j, j <> i -> QMap.find j deleted = QMap.find j deleted) /\
                  QMap.wf deleted /\
                  (forall k, In k (QMap.keys deleted) -> k = i \/ In k (QMap.keys deleted)))
    by (repeat split; auto).
  assert (Hrecord : forall p',
            p = o -> (p' = None \/ exists ch, p' = Some (ItemGroup ch)) ->
            slot_ok (QMap.insert i p deleted) i o p' /\
            (forall j, j <> i ->
               QMap.find j (QMap.insert i p deleted) = QMap.find j deleted) /\
            QMap.wf (QMap.insert i p deleted) /\
            (forall k, In k (QMap.keys (QMap.insert i p deleted)) ->
               k = i \/ In k (QMap.keys deleted))).
  { intros p' Hp Hp'. split; [| split; [| split]].
    - unfold slot_ok. rewrite QMapFacts.find_insert_same. split; assumption.
    - intros j Hj. apply QMapFacts.find_insert_other. exact Hj.
    - apply QMapFacts.wf_insert. exact Hwf.
    - intros k Hk. apply QMapFacts.keys_insert in Hk. exact Hk. }
  unfold eraseAt. destruct p as [item |]; [| exact Hsame].
  destruct (boundingRectContains g item pos size); [| exact Hsame].
  destruct item as [path | children].
  - destruct (isPath (objType path)); [| exact Hsame].
    assert (Hpo : Some (Single path) = o).
    { unfold slot_ok in Hslot.
      destruct (QMap.find i deleted) as [d |]; [| exact Hslot].
      destruct Hslot as [_ [H | (ch & H)]]; discriminate. }
    destruct (splitErase g path pos size) as [| [x |] rest]; simpl.
    + apply Hrecord; [exact Hpo | left; reflexivity].
    + apply Hrecord; [exact Hpo | right; eexists; reflexivity].
    + exact Hsame.
  - simpl. split; [| split; [| split]]; auto.
    unfold slot_ok in *. destruct (QMap.find i deleted) as [d |].
    + destruct Hslot as [Hd _]. split; [exact Hd |].
      right. eexists. reflexivity.
    + destruct Ho as (x & Hx). subst o. discriminate.
Qed.

(** The whole loop of [eraserMicroStep]. *)
Lemma eraserLoop_slots (g : Geometry) (pos : QPointF) (size : qreal)
    (orig : list ItemPtr) :
  forall (p : list ItemPtr) (i : Z) (deleted : QMap.t ItemPtr),
  slots_ok deleted i orig p -> plain orig -> QMap.wf deleted ->
  slots_ok (snd (eraserLoop g pos size i p deleted)) i orig
    (fst (eraserLoop g pos size i p deleted))
  /\ (forall j, j < i ->
        QMap.find j (snd (eraserLoop g pos size i p deleted)) = QMap.find j deleted)
  /\ QMap.wf (snd (eraserLoop g pos size i p deleted))
  /\ (forall k, In k (QMap.keys (snd (eraserLoop g pos size i p deleted))) ->
        In k (QMap.keys deleted) \/ i <= k < i + Z.of_nat (length orig)).
Proof.
  induction orig as [| o orig IH]; intros [| x p] i deleted Hslots Hplain Hwf;
    simpl in Hslots; try contradiction.
  - simpl. repeat split; auto.
  - destruct Hslots as [Hslot Hslots].
    inversion Hplain as [| ? ? Ho Hplain']; subst.
    destruct (eraseAt_slot g pos size i o x deleted Hslot Ho Hwf)
      as (Hslot1 & Hfind1 & Hwf1 & Hkeys1).
    simpl eraserLoop.
    destruct (eraseAt g pos size i x deleted) as [x' deleted1] eqn:Heq.
    simpl in Hslot1, Hfind1, Hwf1, Hkeys1.
    assert (Hslots1 : slots_ok deleted1 (i + 1) orig p).
    { apply (slots_ok_ext deleted); [| exact Hslots].
      intros j Hj. apply Hfind1. lia. }
    destruct (IH p (i + 1) deleted1 Hslots1 Hplain' Hwf1)
      as (Hslots2 & Hfind2 & Hwf2 & Hkeys2).
    destruct (eraserLoop g pos size (i + 1) p deleted1) as [p' deleted2] eqn:Heq2.
    simpl in *. split; [| split; [| split]].
    + split; [| exact Hslots2].
      unfold slot_ok in *. rewrite Hfind2 by lia. exact Hslot1.
    + intros j Hj. rewrite Hfind2 by lia. apply Hfind1. lia.
    + exact Hwf2.
    + intros k Hk. destruct (Hkeys2 k Hk) as [Hin | Hrange]; [| lia].
      destruct (Hkeys1 k Hin) as [-> | Hin']; [lia | left; exact Hin'].
Qed.

(** *** Closing a micro-step *)

Lemma applyMicroStep_Forward (prefs : Preferences) (c : t)
    (applied : list DrawHistoryStep) (s : DrawHistoryStep)
    (orig l0 : list ItemPtr) :
  inHistory c = -1 ->
  history c = applied ++ [s] -> createdItems s = [] ->
  links applied l0 orig ->
  slots_ok (deletedItems s) 0 orig (paths c) ->
  QMap.wf (deletedItems s) ->
  keys_within (QList.size orig) (deletedItems s) ->
  Forward (snd (applyMicroStep prefs c)).
Proof.
  intros Hi Hh Hcreated Hlinks Hslots Hwf Hkeys.
  pose proof (links_plain_end _ _ _ Hlinks) as Hplain.
  pose proof (slots_ok_length _ _ _ _ Hslots) as Hlen.
  unfold applyMicroStep. rewrite Hi, Hh, last_last. simpl negb. cbv iota.
  remember (deletedItems s) as D eqn:HD.
  destruct D as [| kv D'] eqn:HDshape.
  - simpl. rewrite removelast_last.
    apply slots_ok_untouched in Hslots. rewrite Hslots.
    split; [reflexivity |]. exists l0. exact Hlinks.
  - rewrite <- HDshape in *. clear HDshape kv D'. rewrite Hcreated.
    unfold QList.size in Hkeys.
    (* the cleaned list *)
    assert (HR : removeKeys D (paths c) = removeKeys D orig).
    { apply removeKeys_agree; [exact Hwf | | symmetry; exact Hlen |].
      - rewrite <- Hlen. exact Hkeys.
      - intros j Hj.
        destruct (Nat.lt_ge_cases j (length orig)) as [Hlt | Hge].
        + pose proof (slots_ok_nth _ _ _ _ Hslots j Hlt) as Hslot.
          unfold slot_ok in Hslot. simpl in Hslot.
          apply QMapFacts.find_None_keys in Hj. rewrite Hj in Hslot.
          exact Hslot.
        + rewrite !nth_overflow; [reflexivity | exact Hge |].
          rewrite <- Hlen. exact Hge. }
    pose proof (length_removeKeys D orig Hwf Hkeys) as HlenR.
    (* the created items *)
    destruct (fixStep_entries (paths c) (Z.of_nat (length orig)) D 0 []
                (Z.of_nat (length (removeKeys D orig))) Hwf)
      as (entries & Hfix & Hins & Hvalues).
    { unfold keys_within in Hkeys. eapply Forall_impl; [| exact Hkeys].
      intros k Hk. simpl in Hk. lia. }
    { lia. }
    { intros q k []. }
    simpl in Hfix. rewrite Hfix, HR.
    (* the step links the two sequences *)
    assert (Hrec : recorded D orig).
    { unfold recorded. apply Forall_forall. intros [k v] Hin. simpl.
      unfold keys_within in Hkeys. rewrite Forall_forall in Hkeys.
      assert (Hk : 0 <= k < Z.of_nat (length orig))
        by (apply Hkeys; apply (in_map fst _ _ Hin)).
      split; [exact Hk |].
      pose proof (slots_ok_nth _ _ _ _ Hslots (Z.to_nat k) ltac:(lia)) as Hslot.
      unfold slot_ok in Hslot.
      replace (0 + Z.of_nat (Z.to_nat k)) with k in Hslot by lia.
      rewrite (QMapFacts.find_In k v D Hwf Hin) in Hslot.
      destruct Hslot as [Hv _]. symmetry. exact Hv. }
    assert (Hstep : step_links (mkStep entries D) orig
                      (insertItems entries (removeKeys D orig))).
    { unfold step_links, undoPaths, redoPaths. simpl. split; [| reflexivity].
      rewrite (removeKeys_insertItems entries
                 (Z.of_nat (length (removeKeys D orig)))) by auto.
      apply insertItems_removeKeys; assumption. }
    assert (Hplain' : plain (insertItems entries (removeKeys D orig))).
    { apply plain_insertItems; [exact Hvalues |].
      apply plain_removeKeys. exact Hplain. }
    unfold setLast. rewrite removelast_last. simpl snd.
    apply limitHistory_Forward.
    apply (push_Forward (mkContainer orig applied 0 (qCritical c))); auto.
    split; [reflexivity |]. exists l0. exact Hlinks.
Qed.

(** *** One undo, one redo *)

Lemma stepAt_middle (a u : list DrawHistoryStep) (s : DrawHistoryStep) :
  stepAt (Z.of_nat (length a)) (a ++ s :: u) = s.
Proof.
  unfold stepAt. rewrite QListFacts.value_inside
    by (rewrite length_app; simpl; lia).
  rewrite Nat2Z.id, app_nth2 by lia. rewrite Nat.sub_diag. reflexivity.
Qed.

Lemma undo_step (c : t) (a u : list DrawHistoryStep) (s : DrawHistoryStep) :
  history c = a ++ s :: u -> Z.of_nat (length u) = inHistory c ->
  undo c
  = (true,
     mkContainer (undoPaths s (paths c)) (history c) (inHistory c + 1) (qCritical c)).
Proof.
  intros Hh Hu. unfold undo, QList.size.
  assert (Hsize : Z.of_nat (length (history c))
                  = Z.of_nat (length a) + 1 + inHistory c).
  { rewrite Hh, length_app. simpl. lia. }
  destruct (Z.ltb_spec (inHistory c) 0); [lia |].
  destruct (Z.ltb_spec (Z.of_nat (length (history c)) - inHistory c) 1); [lia |].
  simpl orb. cbv iota.
  replace (Z.of_nat (length (history c)) - (inHistory c + 1))
    with (Z.of_nat (length a)) by lia.
  rewrite Hh at 1 2. rewrite stepAt_middle. reflexivity.
Qed.

Lemma redo_step (c : t) (a u : list DrawHistoryStep) (s : DrawHistoryStep) :
  history c = a ++ s :: u -> Z.of_nat (S (length u)) = inHistory c ->
  redo c
  = (true,
     mkContainer (redoPaths s (paths c)) (history c) (inHistory c - 1) (qCritical c)).
Proof.
  intros Hh Hu. unfold redo, QList.size.
  assert (Hsize : Z.of_nat (length (history c))
                  = Z.of_nat (length a) + inHistory c).
  { rewrite Hh, length_app. simpl length. lia. }
  destruct (Z.ltb_spec (inHistory c) 1); [lia |].
  replace (Z.of_nat (length (history c)) - inHistory c)
    with (Z.of_nat (length a)) by lia.
  rewrite Hh at 1 2. rewrite stepAt_middle. reflexivity.
Qed.

Lemma undo_nothing (c : t) :
  inHistory c < 0 \/ QList.size (history c) - inHistory c < 1 -> undo c = (false, c).
Proof.
  intros H. unfold undo.
  destruct (Z.ltb_spec (inHistory c) 0); [reflexivity |].
  destruct (Z.ltb_spec (QList.size (history c) - inHistory c) 1); [reflexivity |].
  lia.
Qed.

(** The invariant of a state with a non-negative cursor. *)
Definition Replayable (c : t) (applied undone : list DrawHistoryStep) : Prop :=
  history c = applied ++ undone /\
  Z.of_nat (length undone) = inHistory c /\
  exists l0 top, links applied l0 (paths c) /\ links undone (paths c) top.

Lemma Inv_Replayable (c : t) :
  Inv c -> 0 <= inHistory c -> exists applied undone, Replayable c applied undone.
Proof.
  intros [(H & _) | [(H & _) | (_ & applied & undone & l0 & top & H)]] Hi;
    try lia.
  exists applied, undone. destruct H as (Hh & Hu & Ha & Hr).
  split; [exact Hh |]. split; [exact Hu |]. exists l0, top. auto.
Qed.

Lemma Replayable_Inv (c : t) (applied undone : list DrawHistoryStep) :
  Replayable c applied undone -> Inv c.
Proof.
  intros (Hh & Hu & l0 & top & Ha & Hr). right. right.
  split; [lia |]. exists applied, undone, l0, top. auto.
Qed.

Lemma undo_Replayable (c : t) (a u : list DrawHistoryStep) (s : DrawHistoryStep) :
  Replayable c (a ++ [s]) u ->
  undo c
  = (true,
     mkContainer (undoPaths s (paths c)) (history c) (inHistory c + 1) (qCritical c))
  /\ Replayable (snd (undo c)) a (s :: u)
  /\ redoPaths s (undoPaths s (paths c)) = paths c.
Proof.
  intros (Hh & Hu & l0 & top & Ha & Hr).
  rewrite <- app_assoc in Hh. simpl in Hh.
  pose proof (undo_step c a u s Hh Hu) as Hundo.
  apply links_app in Ha.
  destruct Ha as (b & Ha & l1 & Hb & [Hback Hforth] & Heq & Hp).
  rewrite Heq in Hback, Hforth, Hp. clear Heq l1.
  split; [exact Hundo |]. rewrite Hundo. unfold Replayable. simpl. split.
  - split; [exact Hh |].
    split; [lia |].
    exists l0, top. rewrite Hback. split; [exact Ha |].
    exists (paths c). split; [exact Hb |]. split; [split; assumption | exact Hr].
  - rewrite Hback. exact Hforth.
Qed.

Lemma redo_Replayable (c : t) (a u : list DrawHistoryStep) (s : DrawHistoryStep) :
  Replayable c a (s :: u) ->
  redo c
  = (true,
     mkContainer (redoPaths s (paths c)) (history c) (inHistory c - 1) (qCritical c))
  /\ Replayable (snd (redo c)) (a ++ [s]) u.
Proof.
  intros (Hh & Hu & l0 & top & Ha & l1 & Hb & Hs & Hr).
  pose proof (redo_step c a u s Hh Hu) as Hredo.
  split; [exact Hredo |]. rewrite Hredo. unfold Replayable. simpl.
  split; [rewrite <- app_assoc; exact Hh |].
  split; [cbn [length] in Hu; rewrite Nat2Z.inj_succ in Hu; lia |].
  exists l0, top. destruct Hs as [Hback Hforth]. rewrite Hforth.
  split; [| exact Hr].
  eapply links_snoc; [exact Ha | split; assumption |].
  exact (links_plain_start _ _ _ Hr).
Qed.

(** An [undo] that finds a step is taken back by the next [redo]. *)
Lemma redo_undo (c : t) :
  Inv c -> 0 <= inHistory c -> inHistory c < QList.size (history c) ->
  fst (undo c) = true /\ redo (snd (undo c)) = (true, c) /\ Inv (snd (undo c)).
Proof.
  intros HInv Hi Hlt.
  destruct (Inv_Replayable c HInv Hi) as (applied & undone & Hrep).
  destruct applied as [| s0 applied0] using rev_ind.
  - exfalso. destruct Hrep as (Hh & Hu & _). unfold QList.size in Hlt.
    rewrite Hh in Hlt. simpl in Hlt. lia.
  - clear IHapplied0. rename applied0 into a, s0 into s.
    destruct (undo_Replayable c a undone s Hrep) as (Hundo & Hrep' & Hround).
    destruct (redo_Replayable _ _ _ _ Hrep') as (Hredo & _).
    split; [rewrite Hundo; reflexivity |].
    split; [| exact (Replayable_Inv _ _ _ Hrep')].
    rewrite Hredo. rewrite Hundo. simpl. rewrite Hround.
    replace (inHistory c + 1 - 1) with (inHistory c) by lia.
    destruct c; reflexivity.
Qed.

Lemma undo_Inv (c : t) : Inv c -> Inv (snd (undo c)).
Proof.
  intros HInv.
  destruct (Z.lt_ge_cases (inHistory c) 0) as [Hneg | Hpos].
  - rewrite undo_nothing by (left; exact Hneg). exact HInv.
  - destruct (Z.lt_ge_cases (inHistory c) (QList.size (history c))) as [Hlt | Hge].
    + apply redo_undo; assumption.
    + rewrite undo_nothing by (right; lia). exact HInv.
Qed.

Lemma redo_Inv (c : t) : Inv c -> Inv (snd (redo c)).
Proof.
  intros HInv. destruct (Z.lt_ge_cases (inHistory c) 1) as [Hlt | Hge].
  - unfold redo. destruct (Z.ltb_spec (inHistory c) 1); [exact HInv | lia].
  - destruct (Inv_Replayable c HInv ltac:(lia)) as (applied & undone & Hrep).
    destruct undone as [| s u].
    + destruct Hrep as (_ & Hu & _). simpl in Hu. lia.
    + destruct (redo_Replayable c applied u s Hrep) as (_ & Hrep').
      exact (Replayable_Inv _ _ _ Hrep').
Qed.

(** *** Every operation keeps the invariant *)

Lemma truncateHistory_Forward (prefs : Preferences) (c : t) :
  Inv c -> Forward (truncateHistory prefs c).
Proof.
  intros [(Hi & Hh & Hp) | [(Hi & applied & s & orig & l0 & H) | (Hi & H)]];
    unfold truncateHistory.
  - rewrite Hi. simpl. split; [reflexivity |]. simpl. rewrite Hh.
    exists (paths c). apply links_nil. exact Hp.
  - rewrite Hi. simpl. destruct H as (Hh & Hc & Hl & Hs & Hwf & Hk).
    eapply applyMicroStep_Forward; eassumption.
  - destruct H as (applied & undone & l0 & top & Hh & Hu & Ha & Hr).
    destruct (Z.eqb_spec (inHistory c) (-1)); [lia |].
    destruct (Z.eqb_spec (inHistory c) (-2)); [lia |].
    destruct (Z.gtb_spec (inHistory c) 0) as [Hgt | Hle].
    + split; [reflexivity |]. simpl. exists l0.
      rewrite Hh, <- Hu, Nat2Z.id, takeLast_times_app. exact Ha.
    + split; [lia |]. exists l0.
      destruct undone; [| simpl in Hu; lia].
      rewrite Hh, app_nil_r. exact Ha.
Qed.

Lemma truncateHistory_same_paths (prefs : Preferences) (c : t) :
  inHistory c <> -1 -> paths (truncateHistory prefs c) = paths c.
Proof.
  intros H. unfold truncateHistory.
  destruct (Z.eqb_spec (inHistory c) (-1)); [contradiction |].
  destruct (inHistory c =? -2); [reflexivity |].
  destruct (inHistory c >? 0); reflexivity.
Qed.

Lemma push_Inv (prefs : Preferences) (c1 : t) (s : DrawHistoryStep)
    (p : list ItemPtr) :
  Forward c1 -> step_links s (paths c1) p -> plain p ->
  Inv (limitHistory prefs
         (mkContainer p (history c1 ++ [s]) (inHistory c1) (qCritical c1))).
Proof.
  intros Hf Hs Hp. apply Forward_Inv, limitHistory_Forward.
  destruct Hf as [Hi Hl]. rewrite Hi.
  apply push_Forward; [split; assumption | exact Hs | exact Hp].
Qed.

Lemma append_Inv (prefs : Preferences) (o : GraphicsObject) (c : t) :
  Inv c -> Inv (append prefs (Some (Single o)) c).
Proof.
  intros H. unfold append.
  pose proof (truncateHistory_Forward prefs c H) as Hf.
  apply push_Inv; [exact Hf | apply step_links_append |].
  destruct Hf as [_ (l0 & Hl)].
  apply Forall_app. split; [exact (links_plain_end _ _ _ Hl) |].
  repeat constructor. exists o. reflexivity.
Qed.

Lemma removeItem_Inv (prefs : Preferences) (item : Item) (c : t) :
  Inv c -> inHistory c <> -1 -> Inv (removeItem prefs item c).
Proof.
  intros H Hopen. unfold removeItem.
  destruct (Z.ltb_spec (indexOf (Some item) (paths c)) 0) as [Hneg | Hpos];
    [exact H |].
  assert (Hin : In (Some item) (paths c)).
  { destruct (in_dec ItemPtr_eq_dec (Some item) (paths c)) as [Hin | Hnin];
      [exact Hin |].
    unfold indexOf in Hpos. rewrite indexOfFrom_absent in Hpos by exact Hnin. lia. }
  destruct (indexOfFrom_present (Some item) (paths c) 0 Hin) as [Hrange Hnth].
  fold (indexOf (Some item) (paths c)) in Hrange, Hnth.
  rewrite Z.sub_0_r in Hnth.
  pose proof (truncateHistory_Forward prefs c H) as Hf.
  pose proof (truncateHistory_same_paths prefs c Hopen) as Hsame.
  apply push_Inv; [exact Hf | |].
  - rewrite Hsame. apply step_links_removeAt; [lia | exact Hnth].
  - apply plain_removeAt. destruct Hf as [_ (l0 & Hl)].
    exact (links_plain_end _ _ _ Hl).
Qed.

Lemma clearPaths_Inv (prefs : Preferences) (c : t) : Inv c -> Inv (clearPaths prefs c).
Proof.
  intros H. unfold clearPaths.
  apply push_Inv; [exact (truncateHistory_Forward prefs c H) | | constructor].
  apply step_links_clear.
Qed.

Lemma startMicroStep_Inv (prefs : Preferences) (c : t) :
  Inv c -> Inv (startMicroStep prefs c).
Proof.
  intros H. destruct (truncateHistory_Forward prefs c H) as [Hi (l0 & Hl)].
  right. left. split; [reflexivity |].
  exists (history (truncateHistory prefs c)), emptyStep,
    (paths (truncateHistory prefs c)), l0.
  simpl. repeat split; try assumption.
  - apply slots_ok_start.
  - constructor.
  - constructor.
Qed.

Lemma eraserMicroStep_Inv (g : Geometry) (pos : QPointF) (size : qreal) (c : t) :
  Inv c -> Inv (eraserMicroStep g pos size c).
Proof.
  intros H. unfold eraserMicroStep.
  destruct (Z.eqb_spec (inHistory c) (-1)) as [Hopen | Hother]; simpl negb; cbv iota.
  - destruct H as [(Hi & _) | [(_ & applied & s & orig & l0 & H) | (Hi & _)]];
      try lia.
    destruct H as (Hh & Hc & Hl & Hs & Hwf & Hk).
    rewrite Hh, last_last.
    pose proof (eraserLoop_slots g pos size orig (paths c) 0 (deletedItems s)
                  Hs (links_plain_end _ _ _ Hl) Hwf)
      as (Hs' & _ & Hwf' & Hk').
    destruct (eraserLoop g pos size 0 (paths c) (deletedItems s)) as [p' d'].
    simpl in *. right. left. split; [exact Hopen |].
    exists applied, (mkStep (createdItems s) d'), orig, l0. simpl.
    unfold setLast. rewrite removelast_last.
    repeat split; try assumption.
    unfold keys_within in *. apply Forall_forall. intros k Hin.
    destruct (Hk' k Hin) as [Hold | Hnew].
    + rewrite Forall_forall in Hk. apply Hk. exact Hold.
    + unfold QList.size. lia.
  - exact H.
Qed.

Lemma applyMicroStep_Inv (prefs : Preferences) (c : t) :
  Inv c -> inHistory c <= 0 -> Inv (snd (applyMicroStep prefs c)).
Proof.
  intros [(Hi & Hh & Hp) | [(Hi & applied & s & orig & l0 & H) | (Hi & H)]] Hle.
  - unfold applyMicroStep. rewrite Hi. simpl.
    apply Forward_Inv. split; [reflexivity |]. simpl. rewrite Hh.
    exists (paths c). apply links_nil. exact Hp.
  - destruct H as (Hh & Hc & Hl & Hs & Hwf & Hk).
    apply Forward_Inv. eapply applyMicroStep_Forward; eassumption.
  - assert (Hzero : inHistory c = 0) by lia.
    unfold applyMicroStep. rewrite Hzero. simpl.
    right. right. simpl. split; [lia |]. rewrite <- Hzero. exact H.
Qed.

Lemma clearHistory_Inv (prefs : Preferences) (n : Z) (c : t) :
  Inv c -> Inv (clearHistory prefs n c).
Proof.
  intros H. unfold clearHistory.
  destruct (Z.eqb_spec (inHistory c) (-2)); [exact H |].
  destruct (Z.eqb_spec (inHistory c) (-1)) as [Hopen | Hother].
  - apply Forward_Inv, dropOldest_Forward.
    pose proof (truncateHistory_Forward prefs c H) as Hf.
    unfold truncateHistory in Hf. rewrite Hopen in Hf. exact Hf.
  - destruct H as [(Hi & _) | [(Hi & _) | (Hi & H)]]; try lia.
    destruct H as (applied & undone & l0 & top & Hh & Hu & Ha & Hr).
    right. right. simpl. split; [exact Hi |].
    rewrite takeFirst_times_skipn.
    set (k := Z.to_nat _).
    assert (Hk : (k <= length applied)%nat).
    { unfold k, QList.size. rewrite Hh, length_app.
      destruct (Z.ltb_spec n 0); lia. }
    destruct (links_skipn k applied l0 (paths c) Ha) as (b & Hb).
    exists (skipn k applied), undone, b, top.
    repeat split; try assumption.
    rewrite Hh, skipn_app.
    replace (k - length applied)%nat with 0%nat by lia. reflexivity.
Qed.

Lemma addTextItem_Inv (prefs : Preferences) (o : GraphicsObject) (c : t) :
  Inv c -> Inv (addTextItem prefs (Single o) c).
Proof.
  intros H. unfold addTextItem.
  destruct (negb (indexOf (Some (Single o)) (paths c) <? 0));
    [| apply append_Inv; exact H].
  destruct (Z.eqb_spec (inHistory c) (-2)) as [Hdetached | _]; [| exact H].
  destruct H as [(_ & Hh & Hp) | [(Hi & _) | (Hi & _)]]; try lia.
  apply Forward_Inv. split; [reflexivity |]. simpl. rewrite Hh.
  exists (paths c). apply links_nil. exact Hp.
Qed.

Lemma copy_Inv (g : Geometry) (c : t) : Inv (copy g c).
Proof.
  left. simpl. repeat split.
  induction (paths c) as [| p l IH]; simpl; [constructor |].
  apply Forall_app. split; [| exact IH].
  unfold copyItem. destruct p as [[o | ch] |]; try constructor.
  destruct (objType o); try constructor;
    try (solve [eexists; reflexivity]); try constructor.
  destruct (textIsEmpty g o); repeat constructor. eexists; reflexivity.
Qed.

Lemma empty_Inv : Inv empty.
Proof.
  apply Forward_Inv. split; [reflexivity |].
  exists []. apply links_nil. constructor.
Qed.

(** Every reachable state satisfies the invariant. *)
Lemma Reachable_Inv (g : Geometry) (c : t) : Reachable g c -> Inv c.
Proof.
  induction 1.
  - apply empty_Inv.
  - apply append_Inv; assumption.
  - apply addTextItem_Inv; assumption.
  - apply removeItem_Inv; assumption.
  - apply clearPaths_Inv; assumption.
  - apply startMicroStep_Inv; assumption.
  - apply eraserMicroStep_Inv; assumption.
  - apply applyMicroStep_Inv; assumption.
  - apply undo_Inv; assumption.
  - apply redo_Inv; assumption.
  - apply Forward_Inv, truncateHistory_Forward; assumption.
  - apply clearHistory_Inv; assumption.
  - apply copy_Inv.
Qed.

(** *** [k] undos, then [k] redos *)

Lemma redo_times_last (k : nat) : forall c,
  redo_times (S k) c = snd (redo (redo_times k c)).
Proof.
  induction k as [| k IH]; intros c; [reflexivity |].
  change (redo_times (S (S k)) c) with (redo_times (S k) (snd (redo c))).
  rewrite IH. reflexivity.
Qed.

Lemma redo_times_undo_times (k : nat) : forall c,
  Inv c -> 0 <= inHistory c ->
  Z.of_nat k <= QList.size (history c) - inHistory c ->
  redo_times k (undo_times k c) = c.
Proof.
  induction k as [| k IH]; intros c HInv Hi Hk; [reflexivity |].
  destruct (redo_undo c HInv Hi ltac:(lia)) as (Htrue & Hredo & HInv').
  assert (Hundo : undo c
                  = (true, mkContainer (paths (snd (undo c))) (history c)
                             (inHistory c + 1) (qCritical c))).
  { unfold undo in *.
    destruct ((inHistory c <? 0) || (QList.size (history c) - inHistory c <? 1));
      [discriminate | reflexivity]. }
  rewrite redo_times_last. simpl undo_times.
  rewrite IH.
  - rewrite Hredo. reflexivity.
  - exact HInv'.
  - rewrite Hundo. simpl. lia.
  - rewrite Hundo. simpl. lia.
Qed.

Definition threePaths : t :=
  append prefs50 (Some (Single objT)) twoPaths.

(** C2, as the specification states it, fails.  [applyMicroStep] is public
    and [SlideScene::handleEvents] calls it at the end of every eraser
    stroke; called while a step is undone it sets the cursor to 0 and leaves
    the history as it is (C7).  After [append], [undo] and [applyMicroStep]
    the live sequence is empty, the history holds the step of the [append]
    and the cursor says that nothing is undone: one [undo] followed by one
    [redo] replays that step and leaves one item in the live sequence. *)
Definition cursorReset : t := snd (applyMicroStep prefs50 undoneOnce).

Lemma undo_redo_after_cursor_reset :
  cursorReset
  = snd (applyMicroStep prefs50
           (snd (undo (append prefs50 (Some (Single objA)) empty))))
  /\ paths cursorReset = []
  /\ inHistory cursorReset = 0
  /\ QList.size (history cursorReset) - inHistory cursorReset = 1
  /\ paths (undo_times 1 cursorReset) = []
  /\ paths (redo_times 1 (undo_times 1 cursorReset)) = [Some (Single objA)].
Proof. repeat split; reflexivity. Qed.

(** C2 (amended): in every state reached from the empty container by the
    operations of the container called as the cursor allows
    ([applyMicroStep] only when no step is undone, [removeItem] and [copy]
    not during an open micro-step; the relation [Reachable]), with the
    cursor at [inHistory >= 0] and at least [k] steps behind it, [k] calls
    of [undo] followed by [k] calls of [redo] give back the state they
    started from: the same items in the same order in the live sequence
    (and the same history and cursor). *)
Theorem undo_redo_restores (g : Geometry) (k : nat) (c : t) :
  Reachable g c ->
  0 <= inHistory c ->
  Z.of_nat k <= QList.size (history c) - inHistory c ->
  paths (redo_times k (undo_times k c)) = paths c
  /\ redo_times k (undo_times k c) = c.
Proof.
  intros Hreach Hi Hk.
  pose proof (redo_times_undo_times k c (Reachable_Inv g c Hreach) Hi Hk) as H.
  split; [rewrite H; reflexivity | exact H].
Qed.

Lemma undo_redo_restores_witness :
  Reachable idleGeometry threePaths /\
  paths (undo_times 2 threePaths) = [Some (Single objA)] /\
  paths (redo_times 2 (undo_times 2 threePaths))
  = [Some (Single objA); Some (Single objB); Some (Single objT)].
Proof.
  assert (Hreach : Reachable idleGeometry threePaths).
  { unfold threePaths, twoPaths. repeat apply R_append. apply R_empty. }
  split; [exact Hreach |]. split; [reflexivity |].
  exact (proj1 (undo_redo_restores idleGeometry 2 threePaths Hreach
                  ltac:(simpl; lia) ltac:(vm_compute; discriminate))).
Defined.

End UndoRedo.

(** ** The history cursor and the length of the history *)

Module HistoryCursor.
Import PathContainer.
Import PathContainerProofs.
Import HistoryReplay.
Import UndoRedo.

Lemma limitHistory_cursor (prefs : Preferences) (c : t) :
  inHistory (limitHistory prefs c) = inHistory c.
Proof.
  unfold limitHistory.
  destruct (QList.size (history c) >? history_length_visible_slides prefs);
    reflexivity.
Qed.

Lemma limitHistory_paths (prefs : Preferences) (c : t) :
  paths (limitHistory prefs c) = paths c.
Proof.
  unfold limitHistory.
  destruct (QList.size (history c) >? history_length_visible_slides prefs);
    reflexivity.
Qed.

Lemma applyMicroStep_cursor (prefs : Preferences) (c : t) :
  inHistory (snd (applyMicroStep prefs c)) = 0.
Proof.
  unfold applyMicroStep. destruct (negb (inHistory c =? -1)); [reflexivity |].
  destruct (deletedItems (last (history c) emptyStep)); [reflexivity |].
  simpl snd. rewrite limitHistory_cursor. reflexivity.
Qed.

Lemma truncateHistory_cursor (prefs : Preferences) (c : t) :
  -2 <= inHistory c -> inHistory (truncateHistory prefs c) = 0.
Proof.
  intros Hi. unfold truncateHistory.
  destruct (Z.eqb_spec (inHistory c) (-1)); [apply applyMicroStep_cursor |].
  destruct (Z.eqb_spec (inHistory c) (-2)); [reflexivity |].
  destruct (Z.gtb_spec (inHistory c) 0); [reflexivity | lia].
Qed.

(** The length of the history after the check that ends every operation
    that records a step. *)
Lemma limitHistory_length (prefs : Preferences) (c : t) :
  inHistory c = 0 ->
  QList.size (history (limitHistory prefs c))
  = Z.min (QList.size (history c)) (Z.max 0 (history_length_visible_slides prefs)).
Proof.
  intros Hi. unfold limitHistory, QList.size.
  destruct (Z.gtb_spec (Z.of_nat (length (history c)))
              (history_length_visible_slides prefs)) as [Hgt | Hle].
  - unfold dropOldest, QList.size. simpl history.
    rewrite takeFirst_times_skipn, length_skipn, Hi.
    destruct (Z.ltb_spec (history_length_visible_slides prefs) 0); lia.
  - lia.
Qed.

Lemma redo_at_front (c : t) : inHistory c = 0 -> redo c = (false, c).
Proof. intros Hi. unfold redo. rewrite Hi. reflexivity. Qed.

(** In every state the operations of the container lead to, the cursor
    lies between -2 and the number of recorded steps; a detached container
    (-2) has no history and an open micro-step (-1) has its step at the end
    of the history. *)
Theorem cursor_within_history (g : Geometry) (c : t) :
  Reachable g c ->
  -2 <= inHistory c <= QList.size (history c)
  /\ (inHistory c = -2 -> history c = [])
  /\ (inHistory c = -1 -> history c <> []).
Proof.
  intros Hreach. unfold QList.size.
  destruct (Reachable_Inv g c Hreach)
    as [(Hi & Hh & _)
       | [(Hi & applied & s & orig & l0 & Hh & _)
         | (Hi & applied & undone & l0 & top & Hh & Hu & _)]].
  - rewrite Hi, Hh. simpl. repeat split; lia.
  - rewrite Hi, Hh, length_app. simpl. repeat split; try lia.
    intros _ Hnil. apply app_eq_nil in Hnil. destruct Hnil as [_ Hnil].
    discriminate Hnil.
  - rewrite Hh, length_app. repeat split; lia.
Qed.

Lemma cursor_within_history_witness :
  -2 <= inHistory undoneOnce <= QList.size (history undoneOnce)
  /\ (inHistory undoneOnce = -2 -> history undoneOnce = [])
  /\ (inHistory undoneOnce = -1 -> history undoneOnce <> []).
Proof.
  apply (cursor_within_history idleGeometry undoneOnce).
  unfold undoneOnce. apply R_undo. apply R_append. apply R_empty.
Defined.

(** Outside an open micro-step the live sequence of a reachable state holds
    single objects only: no null pointer and no group of pieces. *)
Theorem paths_plain_outside_micro_step (g : Geometry) (c : t) :
  Reachable g c -> inHistory c <> -1 -> plain (paths c).
Proof.
  intros Hreach Hi.
  destruct (Reachable_Inv g c Hreach)
    as [(_ & _ & Hp) | [(Hm & _) | (_ & applied & undone & l0 & top & _ & _ & Ha & _)]].
  - exact Hp.
  - contradiction.
  - exact (links_plain_end _ _ _ Ha).
Qed.

Lemma paths_plain_outside_micro_step_witness :
  inHistory threePaths <> -1 /\ plain (paths threePaths).
Proof.
  split; [simpl; lia |].
  apply (paths_plain_outside_micro_step idleGeometry threePaths).
  - unfold threePaths, twoPaths. repeat apply R_append. apply R_empty.
  - simpl. lia.
Defined.

Lemma takeLast_times_firstn (n : nat) : forall h : list DrawHistoryStep,
  takeLast_times n h = firstn (length h - n) h.
Proof.
  induction n as [| n IH]; intros h.
  - simpl. rewrite Nat.sub_0_r, firstn_all. reflexivity.
  - simpl takeLast_times. rewrite IH.
    destruct h as [| x h] using rev_ind; [reflexivity |].
    rewrite removelast_last, length_app. simpl length.
    replace (length h + 1 - S n)%nat with (length h - n)%nat by lia.
    rewrite firstn_app.
    replace (length h - n - length h)%nat with 0%nat by lia.
    simpl. rewrite app_nil_r. reflexivity.
Qed.

(** The history that [truncateHistory] leaves outside a micro-step: the
    steps that are not undone. *)
Lemma truncateHistory_history (prefs : Preferences) (c : t) :
  inHistory c <> -1 ->
  history (truncateHistory prefs c)
  = firstn (Z.to_nat (QList.size (history c) - Z.max 0 (inHistory c)))
      (history c).
Proof.
  intros Hopen. unfold truncateHistory, QList.size.
  destruct (Z.eqb_spec (inHistory c) (-1)); [contradiction |].
  destruct (Z.eqb_spec (inHistory c) (-2)) as [H2 | _].
  - simpl history. rewrite H2. simpl Z.max. rewrite Z.sub_0_r, Nat2Z.id.
    symmetry. apply firstn_all.
  - destruct (Z.gtb_spec (inHistory c) 0) as [Hgt | Hle].
    + simpl history. rewrite takeLast_times_firstn. f_equal. lia.
    + replace (Z.max 0 (inHistory c)) with 0 by lia.
      rewrite Z.sub_0_r, Nat2Z.id. symmetry. apply firstn_all.
Qed.

(** The history after the check that ends every operation that records a
    step: the oldest steps beyond the configured length are dropped. *)
Lemma limitHistory_history (prefs : Preferences) (c : t) :
  inHistory c = 0 ->
  history (limitHistory prefs c)
  = skipn (Z.to_nat (QList.size (history c)
                     - Z.max 0 (history_length_visible_slides prefs)))
      (history c).
Proof.
  intros Hi. unfold limitHistory.
  destruct (Z.gtb_spec (QList.size (history c))
              (history_length_visible_slides prefs)) as [Hgt | Hle].
  - unfold dropOldest. simpl history.
    rewrite takeFirst_times_skipn, Hi. f_equal.
    destruct (Z.ltb_spec (history_length_visible_slides prefs) 0); lia.
  - replace (Z.to_nat _) with 0%nat; [reflexivity |].
    unfold QList.size in *. lia.
Qed.

(** [c1] is what recording the step [s] in [c] leaves of the history: the
    cursor is 0 and [redo] finds nothing to do; outside a micro-step the
    history holds the steps of [c] that were not undone, followed by [s],
    cut at the front to the configured length. *)
Definition stepRecorded (prefs : Preferences) (c : t) (s : DrawHistoryStep)
    (c1 : t) : Prop :=
  inHistory c1 = 0
  /\ redo c1 = (false, c1)
  /\ (inHistory c <> -1 ->
      let kept :=
        firstn (Z.to_nat (QList.size (history c) - Z.max 0 (inHistory c)))
          (history c) in
      history c1
      = skipn (Z.to_nat (QList.size kept + 1
                         - Z.max 0 (history_length_visible_slides prefs)))
          (kept ++ [s])).

Lemma limitHistory_recorded (prefs : Preferences) (c : t) (s : DrawHistoryStep)
    (p : list ItemPtr) :
  -2 <= inHistory c ->
  stepRecorded prefs c s
    (limitHistory prefs
       (mkContainer p (history (truncateHistory prefs c) ++ [s])
          (inHistory (truncateHistory prefs c))
          (qCritical (truncateHistory prefs c)))).
Proof.
  intros Hi. pose proof (truncateHistory_cursor prefs c Hi) as H0.
  rewrite H0.
  assert (Hcursor : inHistory
            (limitHistory prefs
               (mkContainer p (history (truncateHistory prefs c) ++ [s]) 0
                  (qCritical (truncateHistory prefs c)))) = 0)
    by (rewrite limitHistory_cursor; reflexivity).
  split; [exact Hcursor |]. split; [apply redo_at_front; exact Hcursor |].
  intros Hopen kept. rewrite limitHistory_history by reflexivity.
  simpl history. rewrite truncateHistory_history by exact Hopen.
  fold kept. f_equal. unfold QList.size. rewrite length_app. simpl. lia.
Qed.

(** A new action throws the undone steps away.  After [append], after
    [clearPaths] and after a [removeItem] that finds its item, the cursor
    is 0 and [redo] changes nothing and reports that; when no micro-step was
    open, the history holds the steps that were not undone, followed by the
    step of the action (and cut at the front to the configured length): the
    undone steps are gone. *)
Theorem new_action_discards_redo (prefs : Preferences) (item : ItemPtr)
    (removed : Item) (c : t) :
  -2 <= inHistory c ->
  stepRecorded prefs c
    (mkStep (QMap.insert (QList.size (paths c)) item []) [])
    (append prefs item c)
  /\ stepRecorded prefs c
       (mkStep [] (enumerateFrom 0 (paths c) []))
       (clearPaths prefs c)
  /\ (In (Some removed) (paths c) ->
      stepRecorded prefs c
        (mkStep []
           (QMap.insert (indexOf (Some removed) (paths c)) (Some removed) []))
        (removeItem prefs removed c)).
Proof.
  intros Hi.
  assert (Hsame : inHistory c <> -1 -> paths (truncateHistory prefs c) = paths c)
    by apply truncateHistory_same_paths.
  split; [| split].
  - unfold append.
    destruct (limitHistory_recorded prefs c
                (mkStep (QMap.insert
                           (QList.size (paths (truncateHistory prefs c))) item [])
                   [])
                (paths (truncateHistory prefs c) ++ [item]) Hi)
      as (Hcursor & Hredo & Hhistory).
    split; [exact Hcursor |]. split; [exact Hredo |].
    intros Hopen. rewrite <- (Hsame Hopen). exact (Hhistory Hopen).
  - unfold clearPaths.
    destruct (limitHistory_recorded prefs c
                (mkStep [] (enumerateFrom 0 (paths (truncateHistory prefs c)) []))
                [] Hi)
      as (Hcursor & Hredo & Hhistory).
    split; [exact Hcursor |]. split; [exact Hredo |].
    intros Hopen. rewrite <- (Hsame Hopen). exact (Hhistory Hopen).
  - intros Hin. unfold removeItem.
    destruct (indexOfFrom_present (Some removed) (paths c) 0 Hin) as [Hidx _].
    fold (indexOf (Some removed) (paths c)) in Hidx.
    destruct (Z.ltb_spec (indexOf (Some removed) (paths c)) 0); [lia |].
    apply limitHistory_recorded. exact Hi.
Qed.

Lemma new_action_discards_redo_witness :
  -2 <= inHistory undoneOnce
  /\ fst (redo undoneOnce) = true
  /\ history undoneOnce = [mkStep [(0, Some (Single objA))] []]
  /\ stepRecorded prefs50 undoneOnce (mkStep [(0, Some (Single objB))] [])
       (mkContainer [Some (Single objB)]
          [mkStep [(0, Some (Single objB))] []] 0 []).
Proof.
  split; [simpl; lia |]. split; [reflexivity |]. split; [reflexivity |].
  exact (proj1 (new_action_discards_redo prefs50 (Some (Single objB))
                  (Single objA) undoneOnce ltac:(simpl; lia))).
Defined.

(** The history never grows past the configured length: after [append],
    [clearPaths] or a [removeItem] that finds its item it holds at most
    [history_length_visible_slides] steps (none if that is negative). *)
Theorem history_length_bounded (prefs : Preferences) (item : ItemPtr)
    (removed : Item) (c : t) :
  -2 <= inHistory c ->
  let limit := Z.max 0 (history_length_visible_slides prefs) in
  QList.size (history (append prefs item c)) <= limit
  /\ QList.size (history (clearPaths prefs c)) <= limit
  /\ (In (Some removed) (paths c) ->
      QList.size (history (removeItem prefs removed c)) <= limit).
Proof.
  intros Hi limit. pose proof (truncateHistory_cursor prefs c Hi) as H0.
  split; [| split].
  - unfold append. rewrite limitHistory_length by exact H0. lia.
  - unfold clearPaths. rewrite limitHistory_length by exact H0. lia.
  - intros Hin. unfold removeItem.
    destruct (indexOfFrom_present (Some removed) (paths c) 0 Hin) as [Hidx _].
    fold (indexOf (Some removed) (paths c)) in Hidx.
    destruct (Z.ltb_spec (indexOf (Some removed) (paths c)) 0); [lia |].
    rewrite limitHistory_length by exact H0. lia.
Qed.

Definition prefs2 : Preferences := mkPreferences 2.

Lemma history_length_bounded_witness :
  -2 <= inHistory threePaths
  /\ QList.size (history threePaths) = 3
  /\ QList.size (history (append prefs2 (Some (Single objA)) threePaths)) <= 2.
Proof.
  split; [simpl; lia |]. split; [reflexivity |].
  exact (proj1 (history_length_bounded prefs2 (Some (Single objA)) (Single objA)
                  threePaths ltac:(simpl; lia))).
Defined.

(** [truncateHistory] with the cursor on [inHistory] undone steps removes
    exactly these, the newest [inHistory] steps, and nothing else. *)
Theorem truncateHistory_drops_undone (prefs : Preferences) (c : t) :
  0 <= inHistory c <= QList.size (history c) ->
  truncateHistory prefs c
  = mkContainer (paths c)
      (firstn (Z.to_nat (QList.size (history c) - inHistory c)) (history c))
      0 (qCritical c).
Proof.
  intros [Hlo Hhi]. unfold truncateHistory, QList.size in *.
  destruct (Z.eqb_spec (inHistory c) (-1)); [lia |].
  destruct (Z.eqb_spec (inHistory c) (-2)); [lia |].
  destruct (Z.gtb_spec (inHistory c) 0) as [Hgt | Hle].
  - rewrite takeLast_times_firstn. f_equal. f_equal.
    rewrite Z2Nat.inj_sub, Nat2Z.id by lia. reflexivity.
  - assert (H0 : inHistory c = 0) by lia. rewrite H0, Z.sub_0_r, Nat2Z.id.
    rewrite firstn_all. destruct c; simpl in *. subst. reflexivity.
Qed.

Lemma truncateHistory_drops_undone_witness :
  0 <= inHistory (snd (undo threePaths)) <= QList.size (history (snd (undo threePaths)))
  /\ truncateHistory prefs50 (snd (undo threePaths)) = twoPaths.
Proof.
  assert (H : 0 <= inHistory (snd (undo threePaths))
               <= QList.size (history (snd (undo threePaths))))
    by (vm_compute; split; discriminate).
  split; [exact H |].
  exact (truncateHistory_drops_undone prefs50 (snd (undo threePaths)) H).
Defined.

(** [clearHistory(n)] outside a micro-step keeps the live sequence, the
    cursor and the undone steps, and leaves at most [n] steps that can
    still be undone: the oldest ones beyond that are dropped. *)
Theorem clearHistory_keeps_newest (prefs : Preferences) (n : Z) (c : t) :
  0 <= inHistory c <= QList.size (history c) ->
  let undoable := QList.size (history c) - inHistory c in
  let c' := clearHistory prefs n c in
  paths c' = paths c
  /\ inHistory c' = inHistory c
  /\ history c' = skipn (Z.to_nat (undoable - Z.max 0 n)) (history c)
  /\ QList.size (history c') - inHistory c' = Z.min undoable (Z.max 0 n).
Proof.
  intros [Hlo Hhi] undoable c'. subst undoable c'. unfold clearHistory.
  destruct (Z.eqb_spec (inHistory c) (-2)); [lia |].
  destruct (Z.eqb_spec (inHistory c) (-1)); [lia |].
  unfold dropOldest, QList.size in *. simpl.
  rewrite takeFirst_times_skipn.
  assert (Hn : (if n <? 0 then 0 else n) = Z.max 0 n)
    by (destruct (Z.ltb_spec n 0); lia).
  rewrite Hn. repeat split. rewrite length_skipn. lia.
Qed.

Lemma clearHistory_keeps_newest_witness :
  0 <= inHistory (snd (undo threePaths)) <= QList.size (history (snd (undo threePaths)))
  /\ history (clearHistory prefs50 1 (snd (undo threePaths)))
     = skipn 1 (history threePaths)
  /\ paths (clearHistory prefs50 1 (snd (undo threePaths)))
     = paths (snd (undo threePaths)).
Proof.
  assert (H : 0 <= inHistory (snd (undo threePaths))
               <= QList.size (history (snd (undo threePaths))))
    by (vm_compute; split; discriminate).
  split; [exact H |].
  destruct (clearHistory_keeps_newest prefs50 1 (snd (undo threePaths)) H)
    as (Hp & _ & Hh & _).
  split; [exact Hh | exact Hp].
Defined.

End HistoryCursor.

(** ** Recorded steps can be taken back *)

Module RecordedSteps.
Import PathContainer.
Import PathContainerProofs.
Import HistoryReplay.
Import UndoRedo.
Import HistoryCursor.

(** What every operation that records a step [s] ends with: with room for
    one step in the history, the next [undo] replays [s] backwards and the
    [redo] after it replays [s] forwards. *)
Lemma record_then_undo (prefs : Preferences) (c1 : t) (s : DrawHistoryStep)
    (p : list ItemPtr) :
  1 <= history_length_visible_slides prefs ->
  inHistory c1 = 0 ->
  step_links s (paths c1) p ->
  let c2 :=
    limitHistory prefs
      (mkContainer p (history c1 ++ [s]) (inHistory c1) (qCritical c1)) in
  fst (undo c2) = true
  /\ paths (snd (undo c2)) = paths c1
  /\ fst (redo (snd (undo c2))) = true
  /\ paths (snd (redo (snd (undo c2)))) = p.
Proof.
  intros Hlimit Hi [Hback Hforth] c2. subst c2. rewrite Hi.
  destruct (limitHistory_keeps_last prefs p (history c1) s (qCritical c1) Hlimit)
    as (h' & -> & _).
  rewrite undo_last_step. cbn [fst snd].
  rewrite (redo_step _ h' [] s) by reflexivity.
  simpl. rewrite Hback, Hforth. auto.
Qed.

(** [append] followed by [undo] gives back the live sequence from before
    the item was added, and the [redo] after it puts the item back at the
    end, whenever the history may hold a step and no micro-step is open. *)
Theorem append_then_undo_redo (prefs : Preferences) (item : ItemPtr) (c : t) :
  1 <= history_length_visible_slides prefs ->
  -2 <= inHistory c -> inHistory c <> -1 ->
  let c1 := append prefs item c in
  paths c1 = paths c ++ [item]
  /\ fst (undo c1) = true
  /\ paths (snd (undo c1)) = paths c
  /\ fst (redo (snd (undo c1))) = true
  /\ paths (snd (redo (snd (undo c1)))) = paths c ++ [item].
Proof.
  intros Hlimit Hi Hopen c1. subst c1.
  pose proof (truncateHistory_cursor prefs c Hi) as H0.
  pose proof (truncateHistory_same_paths prefs c Hopen) as Hsame.
  split.
  - unfold append. rewrite limitHistory_paths. simpl. rewrite Hsame. reflexivity.
  - rewrite <- Hsame. unfold append.
    apply (record_then_undo prefs (truncateHistory prefs c)); try assumption.
    apply step_links_append.
Qed.

Lemma append_then_undo_redo_witness :
  paths (snd (undo (append prefs50 (Some (Single objT)) twoPaths)))
  = [Some (Single objA); Some (Single objB)]
  /\ paths (snd (redo (snd (undo (append prefs50 (Some (Single objT)) twoPaths)))))
     = [Some (Single objA); Some (Single objB); Some (Single objT)].
Proof.
  destruct (append_then_undo_redo prefs50 (Some (Single objT)) twoPaths
              ltac:(simpl; lia) ltac:(simpl; lia) ltac:(simpl; lia))
    as (_ & _ & Hundo & _ & Hredo).
  split; [exact Hundo | exact Hredo].
Defined.

(** A [removeItem] that finds its item is taken back by the next [undo]:
    the item returns to the cell it was removed from. *)
Theorem removeItem_then_undo (prefs : Preferences) (item : Item) (c : t) :
  1 <= history_length_visible_slides prefs ->
  -2 <= inHistory c -> inHistory c <> -1 ->
  In (Some item) (paths c) ->
  let c1 := removeItem prefs item c in
  paths c1 = QList.removeAt (indexOf (Some item) (paths c)) (paths c)
  /\ fst (undo c1) = true
  /\ paths (snd (undo c1)) = paths c.
Proof.
  intros Hlimit Hi Hopen Hin c1. subst c1.
  pose proof (truncateHistory_cursor prefs c Hi) as H0.
  pose proof (truncateHistory_same_paths prefs c Hopen) as Hsame.
  destruct (indexOfFrom_present (Some item) (paths c) 0 Hin) as [Hrange Hnth].
  fold (indexOf (Some item) (paths c)) in Hrange, Hnth.
  rewrite Z.sub_0_r in Hnth.
  unfold removeItem.
  destruct (Z.ltb_spec (indexOf (Some item) (paths c)) 0); [lia |].
  split.
  - rewrite limitHistory_paths. simpl. rewrite Hsame. reflexivity.
  - destruct (record_then_undo prefs (truncateHistory prefs c)
              (mkStep [] (QMap.insert (indexOf (Some item) (paths c))
                            (Some item) []))
              (QList.removeAt (indexOf (Some item) (paths c))
                 (paths (truncateHistory prefs c))) Hlimit H0)
      as (Htrue & Hpaths & _).
    + rewrite Hsame. apply step_links_removeAt; [lia | exact Hnth].
    + split; [exact Htrue | exact (eq_trans Hpaths Hsame)].
Qed.

Lemma removeItem_then_undo_witness :
  paths (removeItem prefs50 (Single objB) threePaths)
  = [Some (Single objA); Some (Single objT)]
  /\ paths (snd (undo (removeItem prefs50 (Single objB) threePaths)))
     = [Some (Single objA); Some (Single objB); Some (Single objT)].
Proof.
  destruct (removeItem_then_undo prefs50 (Single objB) threePaths
              ltac:(simpl; lia) ltac:(simpl; lia) ltac:(simpl; lia)
              ltac:(simpl; auto))
    as (Hremoved & _ & Hundo).
  split; [exact Hremoved | exact Hundo].
Defined.

(** A [redo] that finds a step is taken back by the next [undo]. *)
Lemma undo_redo (c : t) :
  Inv c -> 1 <= inHistory c ->
  fst (redo c) = true /\ undo (snd (redo c)) = (true, c) /\ Inv (snd (redo c)).
Proof.
  intros HInv Hi.
  destruct (Inv_Replayable c HInv ltac:(lia)) as (a & u & Hrep).
  destruct u as [| s u].
  - destruct Hrep as (_ & Hu & _). simpl in Hu. lia.
  - destruct (redo_Replayable c a u s Hrep) as (Hredo & Hrep').
    destruct (undo_Replayable _ a u s Hrep') as (Hundo & _ & _).
    split; [rewrite Hredo; reflexivity |].
    split; [| exact (Replayable_Inv _ _ _ Hrep')].
    rewrite Hundo, Hredo. simpl.
    destruct Hrep as (_ & _ & l0 & top & _ & Hr).
    destruct Hr as (l1 & _ & [Hback Hforth] & _).
    rewrite Hforth, Hback.
    replace (inHistory c - 1 + 1) with (inHistory c) by lia.
    destruct c; reflexivity.
Qed.

Lemma undo_times_last (k : nat) : forall c,
  undo_times (S k) c = snd (undo (undo_times k c)).
Proof.
  induction k as [| k IH]; intros c; [reflexivity |].
  change (undo_times (S (S k)) c) with (undo_times (S k) (snd (undo c))).
  rewrite IH. reflexivity.
Qed.

Lemma undo_times_redo_times (k : nat) : forall c,
  Inv c -> Z.of_nat k <= inHistory c ->
  undo_times k (redo_times k c) = c.
Proof.
  induction k as [| k IH]; intros c HInv Hk; [reflexivity |].
  destruct (undo_redo c HInv ltac:(lia)) as (Htrue & Hundo & HInv').
  assert (Hredo : redo c
                  = (true, mkContainer (paths (snd (redo c))) (history c)
                             (inHistory c - 1) (qCritical c))).
  { unfold redo in *. destruct (inHistory c <? 1); [discriminate | reflexivity]. }
  rewrite undo_times_last. simpl redo_times.
  rewrite IH.
  - rewrite Hundo. reflexivity.
  - exact HInv'.
  - rewrite Hredo. simpl. lia.
Qed.

(** [applyMicroStep] called while steps are undone resets the cursor and
    leaves [Reachable]; from there the two directions do not cancel: after
    two [append], two [undo], [applyMicroStep] and one more [undo] the live
    sequence is empty, and one [redo] followed by one [undo] leaves an item
    in it. *)
Definition cursorResetTwice : t :=
  snd (undo (snd (applyMicroStep prefs50 (undo_times 2 twoPaths)))).

Lemma redo_undo_fails_after_cursor_reset :
  paths cursorResetTwice = []
  /\ inHistory cursorResetTwice = 1
  /\ paths (undo_times 1 (redo_times 1 cursorResetTwice))
     = [Some (Single objB)].
Proof. repeat split; reflexivity. Qed.

(** In every state reached from the empty container by the operations of
    the container called as the cursor allows ([applyMicroStep] only when
    no step is undone, [removeItem] and [copy] not during an open
    micro-step; the relation [Reachable]), with at least [k] undone steps,
    [k] calls of [redo] followed by [k] calls of [undo] give back the state
    they started from. *)
Theorem redo_undo_restores (g : Geometry) (k : nat) (c : t) :
  Reachable g c ->
  Z.of_nat k <= inHistory c ->
  undo_times k (redo_times k c) = c.
Proof.
  intros Hreach Hk.
  exact (undo_times_redo_times k c (Reachable_Inv g c Hreach) Hk).
Qed.

Lemma redo_undo_restores_witness :
  paths (undo_times 2 threePaths) = [Some (Single objA)]
  /\ paths (redo_times 2 (undo_times 2 threePaths)) = paths threePaths
  /\ undo_times 2 (redo_times 2 (undo_times 2 threePaths)) = undo_times 2 threePaths.
Proof.
  split; [reflexivity |]. split; [reflexivity |].
  apply (redo_undo_restores idleGeometry 2 (undo_times 2 threePaths)).
  - change (undo_times 2 threePaths) with (snd (undo (snd (undo threePaths)))).
    apply R_undo. apply R_undo.
    unfold threePaths, twoPaths. repeat apply R_append. apply R_empty.
  - vm_compute. discriminate.
Defined.

(** [addTextItem] twice is [addTextItem] once: the second call finds the
    item and changes nothing. *)
Theorem addTextItem_idempotent (prefs : Preferences) (item : Item) (c : t) :
  addTextItem prefs item (addTextItem prefs item c) = addTextItem prefs item c.
Proof.
  unfold addTextItem at 2 3.
  destruct (Z.ltb_spec (indexOf (Some item) (paths c)) 0) as [Habsent | Hpresent];
    simpl negb; cbv iota.
  - assert (Hin : In (Some item) (paths (append prefs (Some item) c))).
    { unfold append. rewrite limitHistory_paths. simpl.
      apply in_or_app. right. left. reflexivity. }
    assert (Hcursor : inHistory (append prefs (Some item) c) <> -2).
    { unfold append. rewrite limitHistory_cursor. simpl.
      unfold truncateHistory.
      destruct (Z.eqb_spec (inHistory c) (-1));
        [rewrite applyMicroStep_cursor; lia |].
      destruct (Z.eqb_spec (inHistory c) (-2)); [simpl; lia |].
      destruct (Z.gtb_spec (inHistory c) 0); [simpl; lia | assumption]. }
    unfold addTextItem.
    destruct (indexOfFrom_present (Some item) _ 0 Hin) as [Hidx _].
    fold (indexOf (Some item) (paths (append prefs (Some item) c))) in Hidx.
    destruct (Z.ltb_spec (indexOf (Some item) (paths (append prefs (Some item) c))) 0);
      [lia |].
    simpl negb. cbv iota.
    destruct (Z.eqb_spec (inHistory (append prefs (Some item) c)) (-2));
      [contradiction | reflexivity].
  - destruct (Z.eqb_spec (inHistory c) (-2)) as [Hdetached | Hother].
    + unfold addTextItem. simpl.
      destruct (Z.ltb_spec (indexOf (Some item) (paths c)) 0); [lia |].
      reflexivity.
    + unfold addTextItem.
      destruct (Z.ltb_spec (indexOf (Some item) (paths c)) 0); [lia |].
      simpl negb. cbv iota.
      destruct (Z.eqb_spec (inHistory c) (-2)); [contradiction | reflexivity].
Qed.

End RecordedSteps.

(** ** One stroke of the eraser *)

Module EraserStroke.
Import PathContainer.
Import PathContainerProofs.
Import HistoryReplay.
Import UndoRedo.
Import HistoryCursor.
Import RecordedSteps.
Import SlideScene.

(** A micro-step is open on the steps [applied], and it started from the
    live sequence [orig]. *)
Definition OpenStep (c : t) (applied : list DrawHistoryStep) (orig : list ItemPtr) :
    Prop :=
  inHistory c = -1 /\ plain orig /\
  exists s,
    history c = applied ++ [s] /\ createdItems s = [] /\
    slots_ok (deletedItems s) 0 orig (paths c) /\
    QMap.wf (deletedItems s) /\
    keys_within (QList.size orig) (deletedItems s).

Lemma startMicroStep_OpenStep (prefs : Preferences) (c : t) :
  plain (paths (truncateHistory prefs c)) ->
  OpenStep (startMicroStep prefs c) (history (truncateHistory prefs c))
    (paths (truncateHistory prefs c)).
Proof.
  intros Hplain. split; [reflexivity |]. split; [exact Hplain |].
  exists emptyStep. simpl. repeat split.
  - apply slots_ok_start.
  - constructor.
  - constructor.
Qed.

Lemma eraserMicroStep_OpenStep (g : Geometry) (pos : QPointF) (size : qreal)
    (c : t) (applied : list DrawHistoryStep) (orig : list ItemPtr) :
  OpenStep c applied orig -> OpenStep (eraserMicroStep g pos size c) applied orig.
Proof.
  intros (Hopen & Hplain & s & Hh & Hc & Hs & Hwf & Hk).
  unfold eraserMicroStep. rewrite Hopen. simpl negb. cbv iota.
  rewrite Hh, last_last.
  pose proof (eraserLoop_slots g pos size orig (paths c) 0 (deletedItems s)
                Hs Hplain Hwf)
    as (Hs' & _ & Hwf' & Hk').
  destruct (eraserLoop g pos size 0 (paths c) (deletedItems s)) as [p' d'].
  simpl in *. split; [reflexivity |]. split; [exact Hplain |].
  exists (mkStep (createdItems s) d'). simpl.
  unfold setLast. rewrite removelast_last.
  repeat split; try assumption.
  unfold keys_within in *. apply Forall_forall. intros k Hin.
  destruct (Hk' k Hin) as [Hold | Hnew].
  - rewrite Forall_forall in Hk. apply Hk. exact Hold.
  - unfold QList.size. lia.
Qed.

Lemma eraserPoints_OpenStep (g : Geometry) (size : qreal)
    (applied : list DrawHistoryStep) (orig : list ItemPtr) (pos : list QPointF) :
  forall c, OpenStep c applied orig ->
  OpenStep (eraserPoints g pos size c) applied orig.
Proof.
  unfold eraserPoints. induction pos as [| point pos IH]; intros c Hc;
    [exact Hc |].
  simpl. apply IH. apply eraserMicroStep_OpenStep. exact Hc.
Qed.

Lemma updateEvents_OpenStep (g : Geometry) (prefs : Preferences)
    (applied : list DrawHistoryStep) (orig : list ItemPtr)
    (updates : list (list QPointF * qreal)) :
  forall c, OpenStep c applied orig ->
  OpenStep (updateEvents g prefs updates c) applied orig.
Proof.
  unfold updateEvents. induction updates as [| ev updates IH]; intros c Hc;
    [exact Hc |].
  simpl. apply IH. apply eraserPoints_OpenStep. exact Hc.
Qed.

(** Closing an open micro-step: either nothing was erased, the step is
    dropped and the live sequence is the one the micro-step started from,
    or the step is recorded and links the sequence the micro-step started
    from to the new live sequence. *)
Lemma applyMicroStep_OpenStep (prefs : Preferences) (c : t)
    (applied : list DrawHistoryStep) (orig : list ItemPtr) :
  OpenStep c applied orig ->
  (paths c = orig /\
   applyMicroStep prefs c = (false, mkContainer orig applied 0 (qCritical c)))
  \/ (exists s p,
        step_links s orig p /\ plain p /\
        applyMicroStep prefs c
        = (true,
           limitHistory prefs (mkContainer p (applied ++ [s]) 0 (qCritical c)))).
Proof.
  intros (Hi & Hplain & s & Hh & Hcreated & Hslots & Hwf & Hkeys).
  pose proof (slots_ok_length _ _ _ _ Hslots) as Hlen.
  unfold applyMicroStep. rewrite Hi, Hh, last_last. simpl negb. cbv iota.
  remember (deletedItems s) as D eqn:HD.
  destruct D as [| kv D'] eqn:HDshape.
  - left. rewrite removelast_last.
    apply slots_ok_untouched in Hslots. rewrite Hslots. split; reflexivity.
  - right. rewrite <- HDshape in *. clear HDshape kv D'. rewrite Hcreated.
    unfold QList.size in Hkeys.
    assert (HR : removeKeys D (paths c) = removeKeys D orig).
    { apply removeKeys_agree; [exact Hwf | | symmetry; exact Hlen |].
      - rewrite <- Hlen. exact Hkeys.
      - intros j Hj.
        destruct (Nat.lt_ge_cases j (length orig)) as [Hlt | Hge].
        + pose proof (slots_ok_nth _ _ _ _ Hslots j Hlt) as Hslot.
          unfold slot_ok in Hslot. simpl in Hslot.
          apply QMapFacts.find_None_keys in Hj. rewrite Hj in Hslot.
          exact Hslot.
        + rewrite !nth_overflow; [reflexivity | exact Hge |].
          rewrite <- Hlen. exact Hge. }
    pose proof (length_removeKeys D orig Hwf Hkeys) as HlenR.
    destruct (fixStep_entries (paths c) (Z.of_nat (length orig)) D 0 []
                (Z.of_nat (length (removeKeys D orig))) Hwf)
      as (entries & Hfix & Hins & Hvalues).
    { unfold keys_within in Hkeys. eapply Forall_impl; [| exact Hkeys].
      intros k Hk. simpl in Hk. lia. }
    { lia. }
    { intros q k []. }
    simpl in Hfix. rewrite Hfix, HR.
    assert (Hrec : recorded D orig).
    { unfold recorded. apply Forall_forall. intros [k v] Hin. simpl.
      unfold keys_within in Hkeys. rewrite Forall_forall in Hkeys.
      assert (Hk : 0 <= k < Z.of_nat (length orig))
        by (apply Hkeys; apply (in_map fst _ _ Hin)).
      split; [exact Hk |].
      pose proof (slots_ok_nth _ _ _ _ Hslots (Z.to_nat k) ltac:(lia)) as Hslot.
      unfold slot_ok in Hslot.
      replace (0 + Z.of_nat (Z.to_nat k)) with k in Hslot by lia.
      rewrite (QMapFacts.find_In k v D Hwf Hin) in Hslot.
      destruct Hslot as [Hv _]. symmetry. exact Hv. }
    exists (mkStep entries D), (insertItems entries (removeKeys D orig)).
    split; [| split].
    + unfold step_links, undoPaths, redoPaths. simpl. split; [| reflexivity].
      rewrite (removeKeys_insertItems entries
                 (Z.of_nat (length (removeKeys D orig)))) by auto.
      apply insertItems_removeKeys; assumption.
    + apply plain_insertItems; [exact Hvalues |].
      apply plain_removeKeys. exact Hplain.
    + unfold setLast. rewrite removelast_last. reflexivity.
Qed.

(** The state after the [StartEvent] and the [UpdateEvent]s of a stroke. *)
Definition stroke (g : Geometry) (prefs : Preferences) (start : list QPointF)
    (size : qreal) (updates : list (list QPointF * qreal)) (c : t) : t :=
  updateEvents g prefs updates (snd (eraserEvent g prefs StartEvent start size c)).

Lemma stroke_OpenStep (g : Geometry) (prefs : Preferences) (start : list QPointF)
    (size : qreal) (updates : list (list QPointF * qreal)) (c : t) :
  Inv c -> inHistory c <> -1 ->
  OpenStep (stroke g prefs start size updates c)
    (history (truncateHistory prefs c)) (paths c).
Proof.
  intros HInv Hopen. unfold stroke.
  apply updateEvents_OpenStep. simpl. apply eraserPoints_OpenStep.
  rewrite <- (truncateHistory_same_paths prefs c Hopen).
  apply startMicroStep_OpenStep.
  destruct (truncateHistory_Forward prefs c HInv) as [_ (l0 & Hl)].
  exact (links_plain_end _ _ _ Hl).
Qed.

(** A stroke of the eraser that is cancelled leaves the live sequence as it
    was before the stroke, whatever the eraser touched, as long as the
    history may hold one step. *)
Theorem eraser_stroke_cancelled (g : Geometry) (prefs : Preferences)
    (start : list QPointF) (size : qreal)
    (updates : list (list QPointF * qreal))
    (cancelPos : list QPointF) (cancelSize : qreal) (c : t) :
  1 <= history_length_visible_slides prefs ->
  Reachable g c -> inHistory c <> -1 ->
  paths (snd (eraserEvent g prefs CancelEvent cancelPos cancelSize
                (stroke g prefs start size updates c)))
  = paths c.
Proof.
  intros Hlimit Hreach Hopen.
  pose proof (stroke_OpenStep g prefs start size updates c
                (Reachable_Inv g c Hreach) Hopen) as Hstroke.
  set (c2 := stroke g prefs start size updates c) in *.
  unfold eraserEvent.
  destruct (applyMicroStep_OpenStep prefs c2 _ _ Hstroke)
    as [[_ Hnone] | (s & p & Hlinks & _ & Hsome)].
  - rewrite Hnone. reflexivity.
  - rewrite Hsome. cbn [snd].
    exact (proj1 (proj2
             (record_then_undo prefs
                (mkContainer (paths c) (history (truncateHistory prefs c)) 0
                   (qCritical c2))
                s p Hlimit eq_refl Hlinks))).
Qed.

(** A stroke of the eraser that is completed, on a reachable container
    with no micro-step open and room for one step in the history, either
    erased nothing, and then the live sequence is unchanged and nothing is
    reported, or it is recorded as one step: the live sequence holds single
    objects again, the next [undo] gives back the sequence from before the
    stroke and the [redo] after it erases again. *)
Theorem eraser_stroke_undone (g : Geometry) (prefs : Preferences)
    (start : list QPointF) (size : qreal)
    (updates : list (list QPointF * qreal))
    (stopPos : list QPointF) (stopSize : qreal) (c : t) :
  1 <= history_length_visible_slides prefs ->
  Reachable g c -> inHistory c <> -1 ->
  let c2 := stroke g prefs start size updates c in
  let emitted := fst (eraserEvent g prefs StopEvent stopPos stopSize c2) in
  let c3 := snd (eraserEvent g prefs StopEvent stopPos stopSize c2) in
  inHistory c3 = 0 /\ plain (paths c3)
  /\ (emitted = false -> paths c2 = paths c /\ paths c3 = paths c)
  /\ (emitted = true ->
      fst (undo c3) = true /\ paths (snd (undo c3)) = paths c
      /\ fst (redo (snd (undo c3))) = true
      /\ paths (snd (redo (snd (undo c3)))) = paths c3).
Proof.
  intros Hlimit Hreach Hopen c2.
  pose proof (stroke_OpenStep g prefs start size updates c
                (Reachable_Inv g c Hreach) Hopen) as Hstroke.
  fold c2 in Hstroke. destruct (Hstroke) as (_ & Hplain & _).
  unfold eraserEvent.
  destruct (applyMicroStep_OpenStep prefs c2 _ _ Hstroke)
    as [[Hsame Hnone] | (s & p & Hlinks & Hp & Hsome)].
  - rewrite Hnone. cbn [fst snd]. simpl.
    split; [reflexivity |]. split; [exact Hplain |]. split.
    + intros _. split; [exact Hsame | reflexivity].
    + intros Habs. discriminate Habs.
  - rewrite Hsome. cbn [fst snd]. rewrite limitHistory_cursor, limitHistory_paths.
    cbn [paths inHistory]. split; [reflexivity |]. split; [exact Hp |]. split.
    + intros Habs. discriminate Habs.
    + intros _.
      pose proof (record_then_undo prefs
                    (mkContainer (paths c) (history (truncateHistory prefs c)) 0
                       (qCritical c2))
                    s p Hlimit eq_refl Hlinks) as H.
      exact H.
Qed.

(** An eraser that cuts the object at address 1 in two pieces, erases the
    object at address 2 completely and misses everything else. *)
Definition pieceA1 : GraphicsObject := mkObject BasicGraphicsPathType 11.
Definition pieceA2 : GraphicsObject := mkObject BasicGraphicsPathType 12.

Definition cuttingGeometry : Geometry :=
  mkGeometry (fun _ _ _ => true)
    (fun o _ _ =>
       match objAddr o with
       | 1%nat => [Some pieceA1; Some pieceA2]
       | 2%nat => []
       | _ => [None]
       end)
    (fun o => o) (fun _ => false).

Definition strokeOverThree : t :=
  stroke cuttingGeometry prefs50 [(0%Q, 0%Q)] 1%Q [([(1%Q, 0%Q)], 1%Q)] threePaths.

Lemma threePaths_reachable (g : Geometry) : Reachable g threePaths.
Proof. unfold threePaths, twoPaths. repeat apply R_append. apply R_empty. Qed.

Lemma eraser_stroke_cancelled_witness :
  paths strokeOverThree
  = [Some (ItemGroup [pieceA1; pieceA2]); None; Some (Single objT)]
  /\ paths (snd (eraserEvent cuttingGeometry prefs50 CancelEvent [] 1%Q
                   strokeOverThree))
     = [Some (Single objA); Some (Single objB); Some (Single objT)].
Proof.
  split; [reflexivity |].
  apply (eraser_stroke_cancelled cuttingGeometry prefs50 [(0%Q, 0%Q)] 1%Q
           [([(1%Q, 0%Q)], 1%Q)] [] 1%Q threePaths).
  - simpl. lia.
  - apply threePaths_reachable.
  - simpl. lia.
Defined.

Lemma eraser_stroke_undone_witness :
  paths (snd (eraserEvent cuttingGeometry prefs50 StopEvent [] 1%Q strokeOverThree))
  = [Some (Single pieceA1); Some (Single pieceA2); Some (Single objT)]
  /\ paths (snd (undo (snd (eraserEvent cuttingGeometry prefs50 StopEvent [] 1%Q
                              strokeOverThree))))
     = [Some (Single objA); Some (Single objB); Some (Single objT)].
Proof.
  split; [reflexivity |].
  destruct (eraser_stroke_undone cuttingGeometry prefs50 [(0%Q, 0%Q)] 1%Q
              [([(1%Q, 0%Q)], 1%Q)] [] 1%Q threePaths
              ltac:(simpl; lia) (threePaths_reachable cuttingGeometry)
              ltac:(simpl; lia))
    as (_ & _ & _ & Hundo).
  exact (proj1 (proj2 (Hundo eq_refl))).
Defined.

(** *** What the eraser leaves alone *)

Lemma length_eraserLoop (g : Geometry) (pos : QPointF) (size : qreal)
    (p : list ItemPtr) : forall i deleted,
  length (fst (eraserLoop g pos size i p deleted)) = length p.
Proof.
  induction p as [| x p IH]; intros i deleted; [reflexivity |].
  simpl. destruct (eraseAt g pos size i x deleted) as [x' d1].
  specialize (IH (i + 1) d1).
  destruct (eraserLoop g pos size (i + 1) p d1) as [p' d2].
  simpl in *. rewrite IH. reflexivity.
Qed.

Lemma eraserLoop_spares (g : Geometry) (pos : QPointF) (size : qreal)
    (x : ItemPtr) :
  (forall i d, eraseAt g pos size i x d = (x, d)) ->
  forall (p : list ItemPtr) (j : nat) i deleted,
  nth_error p j = Some x ->
  nth_error (fst (eraserLoop g pos size i p deleted)) j = Some x.
Proof.
  intros Hx. induction p as [| y p IH]; intros j i deleted Hj.
  - destruct j; discriminate Hj.
  - simpl. destruct (eraseAt g pos size i y deleted) as [y' d1] eqn:Hy.
    specialize (IH (pred j) (i + 1) d1).
    destruct (eraserLoop g pos size (i + 1) p d1) as [p' d2].
    destruct j as [| j]; simpl in *.
    + injection Hj as ->. rewrite Hx in Hy. injection Hy as <- _. reflexivity.
    + apply IH. exact Hj.
Qed.

(** [eraserMicroStep] never moves a cell: the live sequence keeps its
    length, and a cell that holds an object which is not a path (a text
    field, say) holds it afterwards, wherever the eraser is. *)
Theorem eraser_spares_other_items (g : Geometry) (pos : QPointF) (size : qreal)
    (c : t) :
  length (paths (eraserMicroStep g pos size c)) = length (paths c)
  /\ forall (j : nat) (o : GraphicsObject),
       nth_error (paths c) j = Some (Some (Single o)) ->
       isPath (objType o) = false ->
       nth_error (paths (eraserMicroStep g pos size c)) j = Some (Some (Single o)).
Proof.
  unfold eraserMicroStep.
  destruct (negb (inHistory c =? -1)); [split; [reflexivity | auto] |].
  pose proof (length_eraserLoop g pos size (paths c) 0
                (deletedItems (last (history c) emptyStep))) as Hlen.
  split.
  - destruct (eraserLoop g pos size 0 (paths c) _) as [p' d']. exact Hlen.
  - intros j o Hj Hty.
    pose proof (eraserLoop_spares g pos size (Some (Single o))) as Hspare.
    specialize (Hspare
      ltac:(intros i d; simpl; rewrite Hty;
            destruct (boundingRectContains g (Single o) pos size); reflexivity)
      (paths c) j 0 (deletedItems (last (history c) emptyStep)) Hj).
    destruct (eraserLoop g pos size 0 (paths c) _) as [p' d']. exact Hspare.
Qed.

Lemma eraser_spares_other_items_witness :
  nth_error
    (paths (eraserMicroStep cuttingGeometry (0%Q, 0%Q) 1%Q
              (startMicroStep prefs50 threePaths))) 2
  = Some (Some (Single objT)).
Proof.
  apply (proj2 (eraser_spares_other_items cuttingGeometry (0%Q, 0%Q) 1%Q
                  (startMicroStep prefs50 threePaths)) 2%nat objT);
    reflexivity.
Defined.

End EraserStroke.

(** ** The page cache *)

Module PixCacheProofs.

Import PixCache.

Definition prefs5 : Preferences := mkPreferences 5.

Definition tenPages : PdfDocument :=
  mkDocument 10 (fun _ => (400%Q, 300%Q)).

(** A renderer that draws page [n] as image [n] with a PNG of 100 bytes. *)
Definition plainRenderer : AbstractRenderer :=
  mkRenderer true FullPage (fun n _ => Some (mkPixmap (Z.to_nat n) 100)).

(** An empty cache for [tenPages] with one idle thread, a budget of
    [maxMem] bytes and no limit on the number of pages. *)
Definition emptyCache (maxMem : Z) : t :=
  mkCache [] [] (2147483647, -1) (800%Q, 600%Q) maxMem 0 (-1) [Some false]
    (Some plainRenderer) tenPages [].

(** *** Changing to a page that is not cached *)

(** C3, as the specification states it, fails: with an empty priority queue
    the page does not enter the queue, and the function returns before it
    starts the timer of the scheduling pass. *)
Lemma pageNumberChanged_absent_empty_queue :
  QMap.contains 5 (cache (emptyCache 1000)) = false /\
  priority (pageNumberChanged 5 (emptyCache 1000)) = [] /\
  region (pageNumberChanged 5 (emptyCache 1000)) = (5, 5) /\
  trace (pageNumberChanged 5 (emptyCache 1000)) = trace (emptyCache 1000).
Proof. repeat split. Qed.

(** C3 (amended): when [pageNumberChanged(page)] is called with a page that
    is absent from the cache, the region becomes [[page, page]]; a priority
    queue that is not empty gets [page] as its first entry (an occurrence of
    [page] further back is removed), an empty queue stays empty; nothing
    else changes, and no scheduling pass is triggered by this call. *)
Theorem pageNumberChanged_absent (n : Z) (c : t) :
  QMap.contains n (cache c) = false ->
  pageNumberChanged n c
  = setRegion (n, n)
      (setPriority
         (match priority c with
          | [] => []
          | first :: rest =>
              if first =? n then first :: rest else n :: removeOne n (first :: rest)
          end) c)
  /\ (priority c <> [] -> hd_error (priority (pageNumberChanged n c)) = Some n)
  /\ trace (pageNumberChanged n c) = trace c.
Proof.
  intros Habsent. unfold pageNumberChanged. rewrite Habsent. simpl negb. cbv iota.
  destruct (priority c) as [| first rest] eqn:Hq.
  - split; [| split; [intros H; contradiction H; reflexivity | reflexivity]].
    unfold setRegion, setPriority. simpl. rewrite Hq. reflexivity.
  - destruct (Z.eqb_spec first n) as [-> | Hne]; simpl negb; cbv iota.
    + split; [| split; [intros _; simpl; rewrite Hq; reflexivity | reflexivity]].
      unfold setRegion, setPriority. simpl. rewrite Hq. reflexivity.
    + split; [| split; [intros _; reflexivity | reflexivity]].
      reflexivity.
Qed.

Lemma pageNumberChanged_absent_witness :
  QMap.contains 5 (cache (setPriority [3; 5; 7] (emptyCache 1000))) = false /\
  priority (pageNumberChanged 5 (setPriority [3; 5; 7] (emptyCache 1000)))
  = [5; 3; 7] /\
  trace (pageNumberChanged 5 (setPriority [3; 5; 7] (emptyCache 1000))) = [].
Proof.
  assert (H : QMap.contains 5 (cache (setPriority [3; 5; 7] (emptyCache 1000)))
              = false) by reflexivity.
  split; [exact H |].
  pose proof (pageNumberChanged_absent 5
                (setPriority [3; 5; 7] (emptyCache 1000)) H) as (Heq & _ & Htrace).
  split; [rewrite Heq; reflexivity | exact Htrace].
Defined.

(** *** Requesting the same page twice *)

Lemma sameResolution_refl (r : Q) : sameResolution r r = true.
Proof.
  unfold sameResolution, Qltb, MAX_RESOLUTION_DEVIATION, Qle_bool.
  destruct r as [a d]. simpl.
  replace (a * Z.pos d + - a * Z.pos d) with 0 by lia.
  simpl. reflexivity.
Qed.

Lemma cached_emit (e : Event) (c : t) (n : Z) (r : Q) :
  cached (emit e c) n r = cached c n r.
Proof. reflexivity. Qed.

Lemma cached_store (pix : QPixmap) (n : Z) (r : Q) (c : t) :
  cached (store (newPngPixmap pix n r) n c) n r = Some (newPngPixmap pix n r).
Proof.
  unfold cached, store. simpl cache.
  rewrite QMapFacts.find_insert_same. simpl getResolution.
  rewrite sameResolution_refl. reflexivity.
Qed.





(** *** The memory total *)

Definition bytesOf (o : option PngPixmap) : Z :=
  match o with Some png => size png | None => 0 end.

Lemma cachedBytes_cons (k : Z) (v : option PngPixmap) (m : QMap.t (option PngPixmap)) :
  cachedBytes ((k, v) :: m) = bytesOf v + cachedBytes m.
Proof. destruct v; reflexivity. Qed.

Lemma cachedBytes_app (m1 m2 : QMap.t (option PngPixmap)) :
  cachedBytes (m1 ++ m2) = cachedBytes m1 + cachedBytes m2.
Proof.
  induction m1 as [| [k v] m1 IH]; [reflexivity |].
  simpl app. rewrite !cachedBytes_cons, IH. lia.
Qed.

Lemma wf_tail (k : Z) (v : option PngPixmap) (m : QMap.t (option PngPixmap)) :
  QMap.wf ((k, v) :: m) ->
  QMap.wf m /\ Forall (fun k' => k < k') (QMap.keys m).
Proof. unfold QMap.wf. simpl. intros H. inversion H; subst. split; assumption. Qed.

Lemma find_above (k : Z) (m : QMap.t (option PngPixmap)) :
  Forall (fun k' => k < k') (QMap.keys m) -> QMap.find k m = None.
Proof.
  intros H. apply QMapFacts.find_None_keys. intros Hin.
  rewrite Forall_forall in H. specialize (H k Hin). simpl in H. lia.
Qed.

Lemma cachedBytes_insert (k : Z) (png : PngPixmap) (m : QMap.t (option PngPixmap)) :
  QMap.wf m ->
  cachedBytes (QMap.insert k (Some png) m)
  = cachedBytes m - bytesOf (QMap.value None k m) + size png.
Proof.
  unfold QMap.value.
  induction m as [| [k' v'] m IH]; intros Hwf.
  - simpl. lia.
  - apply wf_tail in Hwf. destruct Hwf as [Hwf Habove].
    cbn [QMap.insert QMap.find].
    destruct (Z.ltb_spec k k') as [Hlt | Hge].
    + destruct (Z.eqb_spec k k'); [lia |].
      rewrite (find_above k m).
      * rewrite (cachedBytes_cons k (Some png)). simpl bytesOf. lia.
      * eapply Forall_impl; [| exact Habove]. intros a Ha. simpl in Ha. lia.
    + destruct (Z.eqb_spec k k') as [-> | Hne].
      * rewrite (cachedBytes_cons k' (Some png)), (cachedBytes_cons k' v').
        simpl bytesOf. lia.
      * rewrite !cachedBytes_cons, IH by exact Hwf. lia.
Qed.

Lemma cachedBytes_remove_null (k : Z) (m : QMap.t (option PngPixmap)) :
  QMap.value None k m = None -> cachedBytes (QMap.remove k m) = cachedBytes m.
Proof.
  unfold QMap.value. induction m as [| [k' v'] m IH]; intros H; [reflexivity |].
  cbn [QMap.remove QMap.find] in *.
  destruct (Z.eqb_spec k k').
  - subst v'. reflexivity.
  - rewrite !cachedBytes_cons, IH by exact H. reflexivity.
Qed.

Lemma keys_remove (k j : Z) (m : QMap.t (option PngPixmap)) :
  In j (QMap.keys (QMap.remove k m)) -> In j (QMap.keys m).
Proof.
  induction m as [| [k' v'] m IH]; simpl; [auto |].
  destruct (k =? k'); simpl; intuition.
Qed.

Lemma wf_remove (k : Z) (m : QMap.t (option PngPixmap)) :
  QMap.wf m -> QMap.wf (QMap.remove k m).
Proof.
  induction m as [| [k' v'] m IH]; intros Hwf; [exact Hwf |].
  pose proof (wf_tail _ _ _ Hwf) as [Hwf' Habove]. simpl.
  destruct (k =? k'); [exact Hwf' |].
  unfold QMap.wf. simpl. constructor; [apply IH; exact Hwf' |].
  apply Forall_forall. intros j Hj. apply keys_remove in Hj.
  rewrite Forall_forall in Habove. apply Habove. exact Hj.
Qed.

Lemma wf_removelast (m : QMap.t (option PngPixmap)) :
  QMap.wf m -> QMap.wf (removelast m).
Proof.
  destruct m as [| kv m] using rev_ind; intros Hwf; [exact Hwf |].
  rewrite removelast_last. clear IHm.
  unfold QMap.wf, QMap.keys in *. rewrite map_app in Hwf. simpl in Hwf.
  induction (map fst m) as [| k ks IH]; [constructor |].
  simpl in Hwf. inversion Hwf as [| ? ? Hs Hall]; subst.
  rewrite Forall_app in Hall. destruct Hall as [Hall _].
  constructor; [apply IH; exact Hs | exact Hall].
Qed.

Lemma accounted_same (c c1 : t) :
  cache c1 = cache c -> usedMemory c1 = usedMemory c -> accounted c -> accounted c1.
Proof. unfold accounted. intros -> ->. auto. Qed.

Lemma store_accounted (png : PngPixmap) (n : Z) (c : t) :
  accounted c -> accounted (store png n c).
Proof.
  intros [Hwf Hused]. unfold accounted, store. simpl.
  split; [apply QMapFacts.wf_insert; exact Hwf |].
  rewrite cachedBytes_insert by exact Hwf.
  destruct (QMap.value None n (cache c)); simpl; lia.
Qed.

Lemma clear_accounted (prefs : Preferences) (c : t) : accounted (clear prefs c).
Proof. split; [constructor | reflexivity]. Qed.

Lemma getPixmap_accounted (n : Z) (r : Q) (c : t) :
  accounted c -> accounted (snd (getPixmap n r c)).
Proof.
  intros H. unfold getPixmap.
  destruct (cached c n _); [exact H |].
  destruct ((n <? 0) || (n >=? numberOfPages (pdfDoc c))); [exact H |].
  destruct (renderer c) as [rd |]; [| exact H].
  destruct (isValid rd); simpl; [| exact H].
  destruct (renderPixmap rd n _); simpl; [| exact H].
  apply store_accounted. exact H.
Qed.

Lemma requestPage_accounted (n : Z) (r : Q) (cache_page : bool) (c : t) :
  accounted c -> accounted (requestPage n r cache_page c).
Proof.
  intros H. unfold requestPage.
  destruct (cached c n r); [exact H |].
  destruct ((n <? 0) || (n >=? numberOfPages (pdfDoc c))); [exact H |].
  destruct (renderer c) as [rd |]; [| exact H].
  destruct (isValid rd); simpl; [| exact H].
  destruct (renderPixmap rd n r); [| exact H].
  destruct cache_page; [| exact H].
  apply (accounted_same (store (newPngPixmap q n r) n
                           (emit (pageReady q n) (emit (rendered n r) c))));
    try reflexivity.
  apply store_accounted. exact H.
Qed.

Lemma receiveData_accounted (data : option PngPixmap) (c : t) :
  accounted c -> accounted (receiveData data c).
Proof.
  intros H. unfold receiveData.
  destruct data as [png |]; [| exact H].
  destruct (isNull png); [exact H |].
  destruct (Qltb _ _).
  - destruct (QMap.value None (getPage png) (cache c)) eqn:Hv; [exact H |].
    destruct H as [Hwf Hused]. split; simpl.
    + apply wf_remove. exact Hwf.
    + rewrite cachedBytes_remove_null by exact Hv. exact Hused.
  - apply (accounted_same (store png (getPage png) c)); try reflexivity.
    apply store_accounted. exact H.
Qed.

Lemma evictEntry_accounted (fromEnd : bool) (c : t) :
  accounted c -> accounted (snd (evictEntry fromEnd c)).
Proof.
  intros [Hwf Hused]. unfold evictEntry, accounted. simpl.
  destruct fromEnd.
  - split; [apply wf_removelast; exact Hwf |].
    destruct (cache c) as [| kv m] using rev_ind; [exact Hused |].
    clear IHm. rewrite last_last, removelast_last.
    rewrite cachedBytes_app in Hused. destruct kv as [k v].
    rewrite cachedBytes_cons in Hused. simpl in *.
    destruct v; simpl in *; lia.
  - destruct (cache c) as [| [k v] m]; [split; assumption |].
    split; [exact (proj1 (wf_tail _ _ _ Hwf)) |].
    rewrite cachedBytes_cons in Hused. simpl.
    destruct v; simpl in *; lia.
Qed.

Lemma evictLoop_step (fuel : nat)
    (pref_page first last allowed_slides cached_slides : Z) (c : t) :
  evictLoop (S fuel) pref_page first last allowed_slides cached_slides c
  = if settled pref_page first last c then (0, c)
    else
      let fromEnd := last + 3 * first >? 4 * pref_page in
      let '(remove, c1) := evictEntry fromEnd c in
      let first' := if fromEnd then first else QMap.firstKey (cache c1) in
      let last' := if fromEnd then QMap.lastKey (cache c1) else last in
      match remove with
      | None =>
          if (allowed_slides <? threadsLength c) && (cached_slides >? 0)
          then evictLoop fuel pref_page first' last' allowed_slides cached_slides c1
          else (allowed_slides, shrinkRegion first' last' c1)
      | Some png =>
          let cached_slides' := cached_slides - 1 in
          let allowed' := allowedAfterRemoval cached_slides' c1 in
          if (allowed' <? threadsLength c) && (cached_slides' >? 0)
          then evictLoop fuel pref_page first' last' allowed' cached_slides' c1
          else (allowed', shrinkRegion first' last' c1)
      end.
Proof. reflexivity. Qed.

Lemma evictLoop_accounted (fuel : nat) :
  forall pref_page first last allowed_slides cached_slides c,
  accounted c ->
  accounted (snd (evictLoop fuel pref_page first last allowed_slides cached_slides c)).
Proof.
  induction fuel as [| fuel IH]; intros pref_page first last allowed cached_slides c H;
    [exact H |].
  rewrite evictLoop_step.
  destruct (settled pref_page first last c); [exact H |].
  pose proof (evictEntry_accounted (last + 3 * first >? 4 * pref_page) c H) as H1.
  cbv zeta.
  destruct (evictEntry (last + 3 * first >? 4 * pref_page) c) as [remove c1].
  cbn [snd] in H1.
  destruct remove as [png |].
  - destruct ((_ <? threadsLength c) && (cached_slides - 1 >? 0));
      [apply IH; exact H1 | exact H1].
  - destruct ((allowed <? threadsLength c) && (cached_slides >? 0));
      [apply IH; exact H1 | exact H1].
Qed.

Lemma limitCacheSize_accounted (prefs : Preferences) (c : t) :
  accounted c -> accounted (snd (limitCacheSize prefs c)).
Proof.
  intros H. unfold limitCacheSize.
  destruct ((maxMemory c <? 0) && (maxNumber c <? 0)).
  { destruct (QMap.size (cache c) =? numberOfPages (pdfDoc c)); exact H. }
  destruct ((maxNumber c =? 0) || (maxMemory c =? 0));
    [apply clear_accounted |].
  set (c1 := if fst (region c) >? snd (region c) then _ else c).
  assert (H1 : accounted c1) by (unfold c1; destruct (_ >? _); exact H).
  destruct (_ <=? 0); [exact H1 |].
  destruct (_ >=? threadsLength c1); [exact H1 |].
  apply evictLoop_accounted. exact H1.
Qed.

(** *** The scheduling pass ends *)

Definition below (m : QMap.t (option PngPixmap)) (x : Z) : nat :=
  length (filter (fun kv => fst kv <=? x) m).

Definition above (m : QMap.t (option PngPixmap)) (x : Z) : nat :=
  length (filter (fun kv => x <=? fst kv) m).

Lemma filter_length_lt {A : Type} (f g : A -> bool) (l : list A) (x : A) :
  (forall y, f y = true -> g y = true) ->
  In x l -> f x = false -> g x = true ->
  (length (filter f l) < length (filter g l))%nat.
Proof.
  intros Hfg Hin Hf Hg.
  assert (Hle : forall l', (length (filter f l') <= length (filter g l'))%nat).
  { induction l' as [| y l' IH]; simpl; [lia |].
    destruct (f y) eqn:Hfy.
    - rewrite (Hfg y Hfy). simpl. lia.
    - destruct (g y); simpl; lia. }
  induction l as [| y l IH]; [contradiction |].
  simpl. destruct Hin as [-> | Hin].
  - rewrite Hf, Hg. simpl. specialize (Hle l). lia.
  - specialize (IH Hin). destruct (f y) eqn:Hfy.
    + rewrite (Hfg y Hfy). simpl. lia.
    + destruct (g y); simpl; lia.
Qed.

Lemma contains_entry (k : Z) (m : QMap.t (option PngPixmap)) :
  QMap.contains k m = true -> exists v, In (k, v) m.
Proof.
  unfold QMap.contains. induction m as [| [k' v'] m IH]; simpl; [discriminate |].
  destruct (Z.eqb_spec k k') as [-> | Hne].
  - intros _. exists v'. left. reflexivity.
  - intros H. destruct (IH H) as (v & Hv). exists v. right. exact Hv.
Qed.

Lemma below_step (m : QMap.t (option PngPixmap)) (x : Z) :
  QMap.contains x m = true -> (below m (x - 1) < below m x)%nat.
Proof.
  intros H. destruct (contains_entry x m H) as (v & Hv).
  apply (filter_length_lt _ _ m (x, v)); simpl; try assumption; lia.
Qed.

Lemma above_step (m : QMap.t (option PngPixmap)) (x : Z) :
  QMap.contains x m = true -> (above m (x + 1) < above m x)%nat.
Proof.
  intros H. destruct (contains_entry x m H) as (v & Hv).
  apply (filter_length_lt _ _ m (x, v)); simpl; try assumption; lia.
Qed.

(** The loop [while (true)] of [renderNext] finds a page: every turn that
    does not return leaves one cached key behind. *)
Lemma growRegion_total (fuel : nat) (m : QMap.t (option PngPixmap)) (pref_page : Z) :
  forall r,
  (below m (fst r) + above m (snd r) < fuel)%nat ->
  exists found, growRegion fuel m pref_page r = Some found.
Proof.
  induction fuel as [| fuel IH]; intros [first second] Hfuel; [lia |].
  simpl in Hfuel. cbn [growRegion].
  destruct ((second + 3 * first >? 4 * pref_page) && (first >=? 0)).
  - destruct (QMap.contains first m) eqn:Hc; simpl negb; cbv iota.
    + apply IH. simpl. pose proof (below_step m first Hc). lia.
    + eexists. reflexivity.
  - destruct (QMap.contains second m) eqn:Hc; simpl negb; cbv iota.
    + apply IH. simpl. pose proof (above_step m second Hc). lia.
    + eexists. reflexivity.
Qed.

Lemma renderNext_total (prefs : Preferences) (c : t) :
  exists found, renderNext prefs c = Some found.
Proof.
  unfold renderNext.
  destruct (takeUncached (cache c) (priority c)) as [[n |] rest];
    [eexists; reflexivity |].
  set (r := if _ >? _ then _ else _).
  destruct (growRegion_total (2 * length (cache (setPriority rest c)) + 1)
              (cache (setPriority rest c)) (page prefs) r) as ([n r'] & ->).
  - unfold below, above.
    pose proof (filter_length_le (fun kv : Z * option PngPixmap => fst kv <=? fst r)
                  (cache (setPriority rest c))).
    pose proof (filter_length_le (fun kv : Z * option PngPixmap => snd r <=? fst kv)
                  (cache (setPriority rest c))).
    lia.
  - eexists. reflexivity.
Qed.

(** What the scheduling pass leaves alone after [limitCacheSize]. *)
Definition sameStore (c c1 : t) : Prop :=
  cache c1 = cache c /\ usedMemory c1 = usedMemory c /\
  maxMemory c1 = maxMemory c /\ maxNumber c1 = maxNumber c /\
  threads c1 = threads c.

Lemma renderNext_sameStore (prefs : Preferences) (c c1 : t) (n : Z) :
  renderNext prefs c = Some (n, c1) -> sameStore c c1.
Proof.
  unfold renderNext.
  destruct (takeUncached (cache c) (priority c)) as [[k |] rest].
  - intros H. inversion H; subst. repeat split.
  - destruct (growRegion _ _ _ _) as [[k r'] |]; [| discriminate].
    intros H. inversion H; subst. repeat split.
Qed.

Lemma dispatch_total (prefs : Preferences) (ths : list (option bool)) :
  forall i allowed c,
  exists c1, dispatch prefs i ths allowed c = Some c1 /\ sameStore c c1.
Proof.
  induction ths as [| th ths IH]; intros i allowed c.
  - exists c. repeat split.
  - simpl. destruct th as [[|] |]; try apply IH.
    destruct (allowed >? 0); [| apply IH].
    destruct (renderNext_total prefs c) as ([n c1] & Hnext).
    rewrite Hnext. pose proof (renderNext_sameStore _ _ _ _ Hnext) as Hsame.
    destruct ((n <? 0) || (n >=? numberOfPages (pdfDoc c1))).
    + exists c1. split; [reflexivity | exact Hsame].
    + destruct (IH (S i) (allowed - 1)
                  (emit (setPixCacheThreadPage i n (resolutionOf c1 n)) c1))
        as (c2 & Hd & Hsame2).
      exists c2. split; [exact Hd |].
      destruct Hsame as (H1 & H2 & H3 & H4 & H5).
      destruct Hsame2 as (G1 & G2 & G3 & G4 & G5). simpl in *.
      repeat split; congruence.
Qed.

(** The scheduling pass returns, and it leaves the cache as
    [limitCacheSize] left it. *)
Lemma startRendering_total (prefs : Preferences) (c : t) :
  exists c1,
    startRendering prefs c = Some c1 /\ sameStore (snd (limitCacheSize prefs c)) c1.
Proof.
  unfold startRendering.
  destruct (limitCacheSize prefs c) as [allowed c0]. simpl snd.
  destruct (allowed <=? 0).
  - exists c0. repeat split.
  - apply dispatch_total.
Qed.

Lemma startRendering_accounted (prefs : Preferences) (c c1 : t) :
  accounted c -> startRendering prefs c = Some c1 -> accounted c1.
Proof.
  intros H Hstart.
  destruct (startRendering_total prefs c) as (c2 & Hc2 & Hsame).
  rewrite Hstart in Hc2. inversion Hc2; subst c2.
  destruct Hsame as (H1 & H2 & _).
  exact (accounted_same _ _ H1 H2 (limitCacheSize_accounted prefs c H)).
Qed.

(** C10: [usedMemory] stays the sum of the sizes of the cached images (an
    entry that is the null pointer counts 0) across [clear], [pixmap],
    [requestPage], [receiveData], every single eviction of
    [limitCacheSize], [limitCacheSize] as a whole and the scheduling pass
    [startRendering]. *)
Theorem usedMemory_accounted (prefs : Preferences) (c : t) :
  accounted c ->
  accounted (clear prefs c)
  /\ (forall n r, accounted (snd (getPixmap n r c)))
  /\ (forall n r cache_page, accounted (requestPage n r cache_page c))
  /\ (forall data, accounted (receiveData data c))
  /\ (forall fromEnd, accounted (snd (evictEntry fromEnd c)))
  /\ accounted (snd (limitCacheSize prefs c))
  /\ (exists c1, startRendering prefs c = Some c1 /\ accounted c1).
Proof.
  intros H. repeat split.
  - constructor.
  - apply getPixmap_accounted; exact H.
  - apply getPixmap_accounted; exact H.
  - apply requestPage_accounted; exact H.
  - apply requestPage_accounted; exact H.
  - apply receiveData_accounted; exact H.
  - apply receiveData_accounted; exact H.
  - apply evictEntry_accounted; exact H.
  - apply evictEntry_accounted; exact H.
  - apply limitCacheSize_accounted; exact H.
  - apply limitCacheSize_accounted; exact H.
  - destruct (startRendering_total prefs c) as (c1 & Hstart & _).
    exists c1. split; [exact Hstart |].
    exact (startRendering_accounted prefs c c1 H Hstart).
Qed.

Definition onePage (maxMem : Z) : t := requestPage 0 2 true (emptyCache maxMem).

Lemma onePage_accounted (maxMem : Z) : accounted (onePage maxMem).
Proof. split; [repeat constructor | reflexivity]. Qed.

Lemma usedMemory_accounted_witness :
  accounted (onePage 1000)
  /\ accounted (snd (limitCacheSize prefs5 (onePage 1000)))
  /\ accounted (receiveData (Some (mkPng 0 2 70 false (mkPixmap 9 70))) (onePage 1000)).
Proof.
  pose proof (usedMemory_accounted prefs5 (onePage 1000) (onePage_accounted 1000))
    as (_ & _ & _ & Hreceive & _ & Hlimit & _).
  split; [apply onePage_accounted |].
  split; [exact Hlimit | apply Hreceive].
Defined.

(** *** Rounding to [float] *)

Lemma roundHalfEven_nonneg (num den : Z) :
  0 <= num -> 0 < den -> 0 <= roundHalfEven num den.
Proof.
  intros Hnum Hden. unfold roundHalfEven.
  pose proof (Z.div_pos num den Hnum Hden) as Hq.
  destruct (2 * (num mod den) <? den); [exact Hq |].
  destruct (2 * (num mod den) >? den); [lia |].
  destruct (Z.even (num / den)); lia.
Qed.

(** Rounding to the nearest integer stays within half a unit below. *)
Lemma roundHalfEven_close (num den : Z) :
  0 < den -> 2 * (num - roundHalfEven num den * den) <= den.
Proof.
  intros Hden. unfold roundHalfEven.
  pose proof (Z.div_mod num den ltac:(lia)) as Hdiv.
  pose proof (Z.mod_pos_bound num den Hden) as Hmod.
  destruct (Z.ltb_spec (2 * (num mod den)) den) as [Hlt | Hge]; [nia |].
  destruct (Z.gtb_spec (2 * (num mod den)) den) as [Hgt | Hle]; [nia |].
  destruct (Z.even (num / den)); nia.
Qed.

Lemma roundPositive_nonneg (p q : Z) :
  0 < p -> 0 < q -> (0 <= roundPositive p q)%Q.
Proof.
  intros Hp Hq. unfold roundPositive.
  set (s := binaryExponent p q - 23).
  destruct (Z.geb_spec s 0) as [Hs | Hs].
  - assert (Hpow : 0 < 2 ^ s) by (apply Z.pow_pos_nonneg; lia).
    pose proof (roundHalfEven_nonneg p (q * 2 ^ s) ltac:(lia) ltac:(nia)) as Hn.
    unfold Qle. simpl. nia.
  - assert (Hpow : 0 < 2 ^ (- s)) by (apply Z.pow_pos_nonneg; lia).
    pose proof (roundHalfEven_nonneg (p * 2 ^ (- s)) q ltac:(nia) Hq) as Hn.
    unfold Qle. simpl. lia.
Qed.

(** Rounding keeps the sign. *)
Lemma roundFloat_nonneg (x : Q) : (0 <= x -> 0 <= roundFloat x)%Q.
Proof.
  intros Hx. unfold roundFloat. destruct x as [num den]. simpl.
  destruct num as [| p | p].
  - apply Qle_refl.
  - apply roundPositive_nonneg; reflexivity.
  - unfold Qle in Hx. simpl in Hx. lia.
Qed.

Lemma roundFloat_nonpos (x : Q) : (x <= 0 -> roundFloat x <= 0)%Q.
Proof.
  intros Hx. unfold roundFloat. destruct x as [num den]. simpl.
  destruct num as [| p | p].
  - apply Qle_refl.
  - unfold Qle in Hx. simpl in Hx. lia.
  - pose proof (roundPositive_nonneg (Z.pos p) (Z.pos den) eq_refl eq_refl) as H.
    unfold Qle in *. simpl in *. lia.
Qed.

Lemma roundFloat_positive (x : Q) : (0 < roundFloat x -> 0 < x)%Q.
Proof.
  intros H. destruct (Qlt_le_dec 0 x) as [Hpos | Hnonpos]; [exact Hpos |].
  exfalso. apply (Qlt_not_le _ _ H). apply roundFloat_nonpos. exact Hnonpos.
Qed.

Lemma truncate_positive (x : Q) : 1 <= truncate x -> (0 < x)%Q.
Proof.
  unfold truncate. destruct x as [num den]. simpl. intros H.
  unfold Qlt. simpl.
  destruct (Z.lt_ge_cases 0 num) as [Hpos | Hneg]; [lia |].
  assert (Hq : Z.quot num (Z.pos den) <= 0).
  { apply Z.quot_le_upper_bound; lia. }
  lia.
Qed.

Lemma Qmult_positive_left (a b : Q) : (0 < a * b -> 0 <= b -> 0 < a)%Q.
Proof.
  intros Hab Hb. destruct (Qlt_le_dec 0 a) as [Ha | Ha]; [exact Ha |].
  exfalso. apply (Qlt_not_le _ _ Hab).
  setoid_replace 0%Q with (0 * b)%Q by ring.
  apply Qmult_le_compat_r; assumption.
Qed.

(** A whole number of bytes loses at most the fraction [2^-24] of its value
    when it is converted to [float]. *)
Lemma toFloat_close (z : Z) :
  0 <= z -> (inject_Z (16777215 * z) <= inject_Z 16777216 * toFloat z)%Q.
Proof.
  intros Hz. unfold toFloat, roundFloat. simpl Qnum. simpl Qden.
  destruct z as [| p | p]; [unfold Qle; simpl; lia | | lia].
  unfold roundPositive, binaryExponent.
  change (Z.log2 1) with 0. rewrite Z.sub_0_r, Z.mul_1_l.
  pose proof (Z.log2_spec (Z.pos p) eq_refl) as [Hlow Hhigh].
  pose proof (Z.log2_nonneg (Z.pos p)) as Hlog.
  set (a := Z.log2 (Z.pos p)) in *.
  destruct (Z.geb_spec a 0) as [_ | Habs]; [| lia].
  destruct (Z.ltb_spec (Z.pos p) (2 ^ a)) as [Habs | _]; [lia |].
  destruct (Z.geb_spec (a - 23) 0) as [Hs | Hs].
  - assert (Hpow : 0 < 2 ^ (a - 23)) by (apply Z.pow_pos_nonneg; lia).
    pose proof (roundHalfEven_close (Z.pos p) (2 ^ (a - 23)) Hpow) as Hclose.
    assert (Ha : 2 ^ a = 2 ^ (a - 23) * 8388608).
    { replace a with ((a - 23) + 23) at 1 by lia.
      rewrite Z.pow_add_r by lia. reflexivity. }
    rewrite Z.mul_1_l.
    set (n := roundHalfEven (Z.pos p) (2 ^ (a - 23))) in *.
    rewrite <- inject_Z_mult, <- Zle_Qle. lia.
  - assert (Hpow : 0 < 2 ^ (- (a - 23))) by (apply Z.pow_pos_nonneg; lia).
    assert (Hexact : roundHalfEven (Z.pos p * 2 ^ (- (a - 23))) 1
                     = Z.pos p * 2 ^ (- (a - 23))).
    { unfold roundHalfEven. rewrite Z.mod_1_r, Z.div_1_r. reflexivity. }
    rewrite Hexact. unfold Qle, Qmult. cbn [Qnum Qden inject_Z].
    rewrite Pos.mul_1_l, Z2Pos.id by exact Hpow. nia.
Qed.

(** *** The memory budget *)

(** The state the cache is in after a scheduling pass, as far as the memory
    budget goes: the cached bytes fit the budget as the source compares
    them, [usedMemory] being converted to [float]; or fewer than two entries
    are left; or no more entries than threads are running. *)
Definition withinBudget (c : t) : Prop :=
  fitsMemory (usedMemory c) (maxMemory c) = true
  \/ QMap.size (cache c) < 2
  \/ QMap.size (cache c) <= runningThreads c.

(** The same in whole bytes: the cached bytes exceed the budget by no more
    than the fraction [2^-24] that the conversion to [float] may lose. *)
Definition nearBudget (c : t) : Prop :=
  16777215 * usedMemory c <= 16777216 * maxMemory c
  \/ QMap.size (cache c) < 2
  \/ QMap.size (cache c) <= runningThreads c.

Lemma fitsMemory_bytes (used maxMem : Z) :
  0 <= maxMem -> fitsMemory used maxMem = true ->
  16777215 * used <= 16777216 * maxMem.
Proof.
  intros Hmax Hfits. destruct (Z.lt_ge_cases used 0) as [Hneg | Hpos]; [lia |].
  unfold fitsMemory in Hfits. apply Qle_bool_iff in Hfits.
  pose proof (toFloat_close used Hpos) as Hclose.
  assert (H : (inject_Z (16777215 * used) <= inject_Z (16777216 * maxMem))%Q).
  { eapply Qle_trans; [exact Hclose |].
    rewrite inject_Z_mult. apply Qmult_le_l; [reflexivity | exact Hfits]. }
  rewrite <- Zle_Qle in H. exact H.
Qed.

Lemma withinBudget_nearBudget (c : t) :
  0 <= maxMemory c -> withinBudget c -> nearBudget c.
Proof.
  intros Hmax [Hfits | Hrest]; [left | right; exact Hrest].
  apply fitsMemory_bytes; assumption.
Qed.

Lemma fitsMemory_below (used maxMem : Z) :
  (toFloat used < inject_Z maxMem)%Q -> fitsMemory used maxMem = true.
Proof.
  intros H. unfold fitsMemory. apply Qle_bool_iff. apply Qlt_le_weak. exact H.
Qed.

Lemma fitsMemory_nothing_used (used maxMem : Z) :
  used <= 0 -> 0 <= maxMem -> fitsMemory used maxMem = true.
Proof.
  intros Hused Hmax. unfold fitsMemory. apply Qle_bool_iff.
  apply Qle_trans with 0%Q.
  - apply roundFloat_nonpos. unfold Qle. simpl. lia.
  - unfold Qle. simpl. lia.
Qed.

(** The estimate allows a further page only when memory is left. *)
Lemma slidesInMemory_positive (maxMem used cached_slides : Z) :
  0 < used -> 0 < cached_slides ->
  1 <= slidesInMemory maxMem used cached_slides ->
  (toFloat used < inject_Z maxMem)%Q.
Proof.
  intros Hused Hcached H. unfold slidesInMemory in H. cbv zeta in H.
  apply truncate_positive, roundFloat_positive in H.
  assert (Hu : (0 <= toFloat used)%Q)
    by (apply roundFloat_nonneg; unfold Qle; simpl; lia).
  assert (Hc : (0 <= toFloat cached_slides)%Q)
    by (apply roundFloat_nonneg; unfold Qle; simpl; lia).
  unfold Qdiv in H.
  apply Qmult_positive_left in H; [| apply Qinv_le_0_compat; exact Hu].
  apply roundFloat_positive in H.
  apply Qmult_positive_left in H; [| exact Hc].
  apply roundFloat_positive in H.
  apply Qlt_minus_iff. exact H.
Qed.

Lemma allowedAfterRemoval_positive (cached_slides : Z) (c : t) :
  0 < maxMemory c -> 0 < cached_slides ->
  1 <= allowedAfterRemoval cached_slides c ->
  fitsMemory (usedMemory c) (maxMemory c) = true.
Proof.
  intros Hmax Hcached. unfold allowedAfterRemoval.
  destruct (Z.gtb_spec (usedMemory c) 0) as [Hused | Hused];
    [| intros _; apply fitsMemory_nothing_used; lia].
  destruct (Z.gtb_spec cached_slides 0) as [_ | Hc0]; [| lia].
  simpl andb. cbv iota zeta.
  intros Hallowed.
  assert (Hone : 1 <= slidesInMemory (maxMemory c) (usedMemory c) cached_slides).
  { destruct (Z.gtb_spec
                (slidesInMemory (maxMemory c) (usedMemory c) cached_slides
                 + QMap.size (cache c)) (maxNumber c)); lia. }
  apply fitsMemory_below.
  exact (slidesInMemory_positive _ _ _ Hused Hcached Hone).
Qed.

Lemma length_evictEntry (fromEnd : bool) (c : t) :
  2 <= QMap.size (cache c) ->
  QMap.size (cache (snd (evictEntry fromEnd c))) = QMap.size (cache c) - 1.
Proof.
  unfold evictEntry, QMap.size. simpl. intros H. destruct fromEnd.
  - destruct (cache c) as [| kv m] using rev_ind; [simpl in H; lia |].
    rewrite removelast_last, length_app. simpl. lia.
  - destruct (cache c); [simpl in H; lia |]. simpl length. lia.
Qed.

Lemma evictEntry_fields (fromEnd : bool) (c : t) :
  maxMemory (snd (evictEntry fromEnd c)) = maxMemory c /\
  threads (snd (evictEntry fromEnd c)) = threads c /\
  (fst (evictEntry fromEnd c) = None ->
   usedMemory (snd (evictEntry fromEnd c)) = usedMemory c).
Proof.
  unfold evictEntry. simpl. repeat split.
  intros ->. reflexivity.
Qed.

Lemma withinBudget_shrinkRegion (allowed first last : Z) (c : t) :
  withinBudget c -> withinBudget (snd (allowed, shrinkRegion first last c)).
Proof. intros H. exact H. Qed.

(** The result of the eviction loop does not depend on the fuel, once the
    fuel covers the entries of the cache: the loop is the loop of the
    source. *)
Lemma evictLoop_fuel (fuel1 : nat) :
  forall fuel2 pref_page first last allowed_slides cached_slides c,
  (length (cache c) <= fuel1)%nat -> (length (cache c) <= fuel2)%nat ->
  evictLoop fuel1 pref_page first last allowed_slides cached_slides c
  = evictLoop fuel2 pref_page first last allowed_slides cached_slides c.
Proof.
  assert (Hempty : forall fuel pref_page first last allowed cached_slides c,
            length (cache c) = 0%nat ->
            evictLoop fuel pref_page first last allowed cached_slides c = (0, c)).
  { intros [| fuel] pref_page first last allowed cached_slides c Hlen;
      [reflexivity |].
    rewrite evictLoop_step. unfold settled, QMap.size. rewrite Hlen.
    rewrite orb_true_r. reflexivity. }
  induction fuel1 as [| fuel1 IH];
    intros fuel2 pref_page first last allowed cached_slides c H1 H2.
  - rewrite !Hempty by lia. reflexivity.
  - destruct fuel2 as [| fuel2]; [rewrite !Hempty by lia; reflexivity |].
    rewrite !evictLoop_step.
    destruct (settled pref_page first last c) eqn:Hsettled; [reflexivity |].
    assert (Hbig : 2 <= QMap.size (cache c)).
    { unfold settled in Hsettled. apply orb_false_elim in Hsettled.
      destruct Hsettled as [_ H]. apply Z.ltb_ge in H. exact H. }
    cbv zeta.
    pose proof (length_evictEntry (last + 3 * first >? 4 * pref_page) c Hbig) as Hlen.
    destruct (evictEntry (last + 3 * first >? 4 * pref_page) c) as [remove c1].
    cbn [snd] in Hlen. unfold QMap.size in Hlen, Hbig.
    destruct remove as [png |].
    + destruct ((_ <? threadsLength c) && (cached_slides - 1 >? 0));
        [apply IH; lia | reflexivity].
    + destruct ((allowed <? threadsLength c) && (cached_slides >? 0));
        [apply IH; lia | reflexivity].
Qed.

(** The loop of [limitCacheSize] ends within the budget; [cached_slides]
    never counts fewer pages than the entries that no running thread
    accounts for. *)
Lemma evictLoop_withinBudget (fuel : nat) :
  forall pref_page first last allowed_slides cached_slides c,
  (length (cache c) <= fuel)%nat ->
  0 < maxMemory c -> 1 <= threadsLength c ->
  QMap.size (cache c) - runningThreads c <= cached_slides ->
  allowed_slides < threadsLength c -> 0 < cached_slides ->
  withinBudget
    (snd (evictLoop fuel pref_page first last allowed_slides cached_slides c)).
Proof.
  induction fuel as [| fuel IH];
    intros pref_page first last allowed cached_slides c
      Hfuel Hmax Hthreads Hghost Hallowed Hcached.
  - right. left. unfold QMap.size. simpl. lia.
  - rewrite evictLoop_step.
    destruct (settled pref_page first last c) eqn:Hsettled.
    { unfold settled in Hsettled. simpl snd.
      destruct (Z.ltb_spec (QMap.size (cache c)) 2) as [Hsmall | Hbig];
        [right; left; exact Hsmall |].
      rewrite orb_false_r in Hsettled.
      apply andb_prop in Hsettled. destruct Hsettled as [Hsettled _].
      apply andb_prop in Hsettled. destruct Hsettled as [Hsettled _].
      apply andb_prop in Hsettled. destruct Hsettled as [Hsettled _].
      apply andb_prop in Hsettled. destruct Hsettled as [_ Hmem].
      destruct (Z.ltb_spec (maxMemory c) 0); [lia |]. simpl in Hmem.
      left. exact Hmem. }
    assert (Hbig : 2 <= QMap.size (cache c)).
    { unfold settled in Hsettled. apply orb_false_elim in Hsettled.
      destruct Hsettled as [_ H]. apply Z.ltb_ge in H. exact H. }
    cbv zeta.
    pose proof (length_evictEntry (last + 3 * first >? 4 * pref_page) c Hbig) as Hlen.
    pose proof (evictEntry_fields (last + 3 * first >? 4 * pref_page) c)
      as (Hmax1 & Hth1 & _).
    destruct (evictEntry (last + 3 * first >? 4 * pref_page) c) as [remove c1].
    cbn [snd fst] in *.
    assert (Hthreads1 : threadsLength c1 = threadsLength c)
      by (unfold threadsLength; rewrite Hth1; reflexivity).
    assert (Hrunning1 : runningThreads c1 = runningThreads c)
      by (unfold runningThreads; rewrite Hth1; reflexivity).
    assert (Hfuel1 : (length (cache c1) <= fuel)%nat)
      by (unfold QMap.size in Hlen; lia).
    destruct remove as [png |].
    + destruct (Z.ltb_spec (allowedAfterRemoval (cached_slides - 1) c1)
                  (threadsLength c)) as [Hlt | Hge];
        destruct (Z.gtb_spec (cached_slides - 1) 0) as [Hpos | Hzero];
        simpl andb; cbv iota.
      * apply IH; try assumption; lia.
      * apply withinBudget_shrinkRegion. right. right. lia.
      * apply withinBudget_shrinkRegion. left.
        apply (allowedAfterRemoval_positive (cached_slides - 1)); lia.
      * apply withinBudget_shrinkRegion. right. right. lia.
    + destruct (Z.ltb_spec allowed (threadsLength c)); [| lia].
      destruct (Z.gtb_spec cached_slides 0); [| lia].
      simpl andb. cbv iota.
      apply IH; try assumption; lia.
Qed.

Lemma limitCacheSize_withinBudget (prefs : Preferences) (c : t) :
  0 <= maxMemory c -> 1 <= threadsLength c ->
  withinBudget (snd (limitCacheSize prefs c)).
Proof.
  intros Hmax Hthreads. unfold limitCacheSize.
  destruct (Z.ltb_spec (maxMemory c) 0); [lia |]. simpl andb. cbv iota.
  destruct (Z.eqb_spec (maxNumber c) 0) as [Hn | Hn].
  { left. simpl. apply fitsMemory_nothing_used; lia. }
  destruct (Z.eqb_spec (maxMemory c) 0) as [Hm | Hm].
  { left. simpl. apply fitsMemory_nothing_used; lia. }
  simpl orb. cbv iota zeta.
  set (c1 := if fst (region c) >? snd (region c) then _ else c).
  assert (Hfields : cache c1 = cache c /\ usedMemory c1 = usedMemory c /\
                    maxMemory c1 = maxMemory c /\ threads c1 = threads c)
    by (unfold c1; destruct (_ >? _); repeat split).
  destruct Hfields as (Hcache & Hused & Hmax1 & Hth1).
  assert (Hthreads1 : threadsLength c1 = threadsLength c)
    by (unfold threadsLength; rewrite Hth1; reflexivity).
  clearbody c1.
  destruct (Z.leb_spec (QMap.size (cache c1) - runningThreads c1) 0) as [Hnone | Hsome].
  { right. right. simpl. lia. }
  destruct (Z.gtb_spec (maxMemory c1) 0); [| lia].
  destruct (Z.geb_spec
              (if (maxNumber c1 >? 0)
                  && ((if (usedMemory c1 >? 0)
                           && (QMap.size (cache c1) - runningThreads c1 >? 0)
                       then slidesInMemory (maxMemory c1) (usedMemory c1)
                              (QMap.size (cache c1) - runningThreads c1)
                       else threadsLength c1) + QMap.size (cache c1) >? maxNumber c1)
               then maxNumber c1 - QMap.size (cache c1)
               else if (usedMemory c1 >? 0)
                       && (QMap.size (cache c1) - runningThreads c1 >? 0)
                    then slidesInMemory (maxMemory c1) (usedMemory c1)
                           (QMap.size (cache c1) - runningThreads c1)
                    else threadsLength c1)
              (threadsLength c1)) as [Hge | Hlt].
  - simpl snd. left.
    destruct (Z.gtb_spec (usedMemory c1) 0) as [Hpos | Hneg];
      [| apply fitsMemory_nothing_used; lia].
    destruct (Z.gtb_spec (QMap.size (cache c1) - runningThreads c1) 0); [| lia].
    simpl andb in Hge. cbv iota in Hge.
    assert (Hone : 1 <= slidesInMemory (maxMemory c1) (usedMemory c1)
                          (QMap.size (cache c1) - runningThreads c1)).
    { destruct (Z.gtb_spec (maxNumber c1) 0); simpl andb in Hge; cbv iota in Hge;
        [| lia].
      destruct (Z.gtb_spec
                  (slidesInMemory (maxMemory c1) (usedMemory c1)
                     (QMap.size (cache c1) - runningThreads c1)
                   + QMap.size (cache c1)) (maxNumber c1)); lia. }
    apply fitsMemory_below.
    exact (slidesInMemory_positive _ _ _ Hpos Hsome Hone).
  - apply evictLoop_withinBudget; try lia.
Qed.

(** [limitCacheSize] leaves the budget alone. *)
Lemma evictLoop_maxMemory (fuel : nat) :
  forall pref_page first last allowed_slides cached_slides c,
  maxMemory
    (snd (evictLoop fuel pref_page first last allowed_slides cached_slides c))
  = maxMemory c.
Proof.
  induction fuel as [| fuel IH];
    intros pref_page first last allowed cached_slides c; [reflexivity |].
  rewrite evictLoop_step.
  destruct (settled pref_page first last c); [reflexivity |].
  cbv zeta.
  pose proof (evictEntry_fields (last + 3 * first >? 4 * pref_page) c)
    as (Hmax & _).
  destruct (evictEntry (last + 3 * first >? 4 * pref_page) c) as [remove c1].
  cbn [snd] in Hmax.
  destruct remove as [png |].
  - destruct ((_ <? threadsLength c) && (cached_slides - 1 >? 0));
      [rewrite IH |]; exact Hmax.
  - destruct ((allowed <? threadsLength c) && (cached_slides >? 0));
      [rewrite IH |]; exact Hmax.
Qed.

Lemma limitCacheSize_maxMemory (prefs : Preferences) (c : t) :
  maxMemory (snd (limitCacheSize prefs c)) = maxMemory c.
Proof.
  unfold limitCacheSize.
  destruct ((maxMemory c <? 0) && (maxNumber c <? 0)).
  { destruct (QMap.size (cache c) =? numberOfPages (pdfDoc c)); reflexivity. }
  destruct ((maxNumber c =? 0) || (maxMemory c =? 0)); [reflexivity |].
  cbv zeta.
  set (c1 := if fst (region c) >? snd (region c) then _ else c).
  assert (H1 : maxMemory c1 = maxMemory c)
    by (unfold c1; destruct (_ >? _); reflexivity).
  clearbody c1.
  destruct (QMap.size (cache c1) - runningThreads c1 <=? 0); [exact H1 |].
  match goal with
  | |- context [if ?b then (_, c1) else _] => destruct b
  end; [exact H1 |].
  rewrite evictLoop_maxMemory. exact H1.
Qed.

Definition viewing0 : Preferences := mkPreferences 0.

(** C1, as the specification states it, fails: with a budget of 50 bytes,
    one call of [requestPage] caches an image of 100 bytes, and the
    scheduling pass that follows leaves it in the cache, because the loop of
    [limitCacheSize] stops as soon as fewer than two entries are left. *)
Lemma single_page_exceeds_budget :
  exists c1,
    startRendering viewing0 (onePage 50) = Some c1 /\
    maxMemory c1 = 50 /\ usedMemory c1 = 100 /\
    QMap.keys (cache c1) = [0].
Proof. eexists. split; [vm_compute; reflexivity |]. repeat split. Qed.

(** The two conditions of the amended claim are needed as well.  Without
    threads [limitCacheSize] returns as soon as the estimate is not
    negative: two pages of 75 bytes stay cached under a budget of 100. *)
Definition cacheOf (ths : list (option bool)) (maxMem bytes : Z) : t :=
  mkCache [] [] (2147483647, -1) (800%Q, 600%Q) maxMem 0 (-1) ths
    (Some (mkRenderer true FullPage (fun n _ => Some (mkPixmap (Z.to_nat n) bytes))))
    tenPages [].

Lemma no_thread_exceeds_budget :
  exists c1,
    startRendering viewing0
      (requestPage 1 2 true (requestPage 0 2 true (cacheOf [] 100 75))) = Some c1 /\
    maxMemory c1 = 100 /\ usedMemory c1 = 150 /\ QMap.keys (cache c1) = [0; 1].
Proof. eexists. split; [vm_compute; reflexivity |]. repeat split. Qed.

(** While as many threads are running as pages are cached,
    [limitCacheSize] deletes nothing. *)
Lemma running_threads_exceed_budget :
  exists c1,
    startRendering viewing0
      (requestPage 1 2 true
         (requestPage 0 2 true (cacheOf [Some true; Some true] 50 100))) = Some c1 /\
    maxMemory c1 = 50 /\ usedMemory c1 = 200 /\ QMap.keys (cache c1) = [0; 1].
Proof. eexists. split; [vm_compute; reflexivity |]. repeat split. Qed.

(** The comparison with the budget is made in [float]: under a budget of
    [2^25] bytes two pages of [2^24 + 1] bytes each stay cached, two bytes
    above the budget, because [2^25 + 2] rounds to [2^25]. *)
Lemma rounding_exceeds_budget :
  exists c1,
    startRendering viewing0
      (requestPage 1 2 true
         (requestPage 0 2 true (cacheOf [Some false] 33554432 16777217)))
    = Some c1 /\
    maxMemory c1 = 33554432 /\ usedMemory c1 = 33554434 /\
    QMap.keys (cache c1) = [0; 1] /\ runningThreads c1 = 0 /\
    fitsMemory (usedMemory c1) (maxMemory c1) = true.
Proof. eexists. split; [vm_compute; reflexivity |]. repeat split. Qed.

(** Three pages of 100 bytes each in a cache with a budget of 250 bytes. *)
Definition threePagesOver : t :=
  requestPage 2 2 true (requestPage 1 2 true (onePage 250)).

(** The scheduling pass deletes the last of them and keeps the other two. *)
Lemma startRendering_evicts :
  usedMemory threePagesOver = 300 /\
  QMap.keys (cache threePagesOver) = [0; 1; 2] /\
  exists c1,
    startRendering viewing0 threePagesOver = Some c1 /\
    usedMemory c1 = 200 /\ QMap.keys (cache c1) = [0; 1].
Proof.
  split; [reflexivity |]. split; [reflexivity |].
  eexists. split; [vm_compute; reflexivity |]. split; reflexivity.
Qed.

(** C1 (amended): for every memory budget [maxMemory >= 0] and a cache with
    at least one thread, the scheduling pass [startRendering] returns, and
    after it (as after [limitCacheSize]) the cached bytes fit the budget as
    the source compares the two, [usedMemory] converted to [float], so
    that [usedMemory] exceeds [maxMemory] by no more than the fraction
    [2^-24] of itself, unless fewer than two entries are left in the cache or
    the cache holds no more entries than threads are running. *)
Theorem startRendering_withinBudget (prefs : Preferences) (c : t) :
  0 <= maxMemory c -> 1 <= threadsLength c ->
  withinBudget (snd (limitCacheSize prefs c))
  /\ exists c1,
       startRendering prefs c = Some c1 /\ withinBudget c1 /\ nearBudget c1.
Proof.
  intros Hmax Hthreads.
  pose proof (limitCacheSize_withinBudget prefs c Hmax Hthreads) as Hlimit.
  split; [exact Hlimit |].
  destruct (startRendering_total prefs c) as (c1 & Hstart & Hsame).
  exists c1. split; [exact Hstart |].
  destruct Hsame as (Hcache & Hused & Hmax1 & _ & Hth).
  assert (Hwithin : withinBudget c1).
  { unfold withinBudget, runningThreads in *.
    rewrite Hcache, Hused, Hmax1, Hth. exact Hlimit. }
  split; [exact Hwithin |].
  apply withinBudget_nearBudget; [| exact Hwithin].
  rewrite Hmax1.
  assert (Hkeep : maxMemory (snd (limitCacheSize prefs c)) = maxMemory c)
    by apply limitCacheSize_maxMemory.
  rewrite Hkeep. exact Hmax.
Qed.

Lemma startRendering_withinBudget_witness :
  0 <= maxMemory threePagesOver /\ 1 <= threadsLength threePagesOver /\
  exists c1,
    startRendering viewing0 threePagesOver = Some c1 /\
    withinBudget c1 /\ nearBudget c1.
Proof.
  assert (H1 : 0 <= maxMemory threePagesOver) by (simpl; lia).
  assert (H2 : 1 <= threadsLength threePagesOver) by (vm_compute; discriminate).
  split; [exact H1 |]. split; [exact H2 |].
  exact (proj2 (startRendering_withinBudget viewing0 threePagesOver H1 H2)).
Defined.

End PixCacheProofs.

(** ** What the eviction removes and what it keeps *)

Module CacheEviction.
Import PixCache.
Import PixCacheProofs.

(** The fields of the cache that neither the eviction nor the choice of the
    next page touches. *)
Definition sameSetup (c c1 : t) : Prop :=
  priority c1 = priority c /\ frame c1 = frame c /\
  maxMemory c1 = maxMemory c /\ maxNumber c1 = maxNumber c /\
  threads c1 = threads c /\ renderer c1 = renderer c /\
  pdfDoc c1 = pdfDoc c /\ trace c1 = trace c.

Lemma sameSetup_refl (c : t) : sameSetup c c.
Proof. repeat split. Qed.

Lemma sameSetup_trans (c c1 c2 : t) :
  sameSetup c c1 -> sameSetup c1 c2 -> sameSetup c c2.
Proof.
  unfold sameSetup.
  intros (A1 & A2 & A3 & A4 & A5 & A6 & A7 & A8)
         (B1 & B2 & B3 & B4 & B5 & B6 & B7 & B8).
  repeat split; etransitivity; eassumption.
Qed.

(** [c1] holds a run of consecutive entries of [c]. *)
Definition keepsSegment (c c1 : t) : Prop :=
  exists before after, cache c = before ++ cache c1 ++ after.

Lemma keepsSegment_refl (c : t) : keepsSegment c c.
Proof. exists [], []. rewrite app_nil_r. reflexivity. Qed.

Lemma keepsSegment_trans (c c1 c2 : t) :
  keepsSegment c c1 -> keepsSegment c1 c2 -> keepsSegment c c2.
Proof.
  intros (a1 & b1 & H1) (a2 & b2 & H2).
  exists (a1 ++ a2), (b2 ++ b1). rewrite H1, H2.
  rewrite <- !app_assoc. reflexivity.
Qed.

Lemma evictEntry_keepsSegment (fromEnd : bool) (c : t) :
  keepsSegment c (snd (evictEntry fromEnd c))
  /\ sameSetup c (snd (evictEntry fromEnd c)).
Proof.
  split; [| repeat split].
  unfold keepsSegment, evictEntry. cbn [snd]. unfold setCache. cbn [cache].
  destruct fromEnd.
  - destruct (cache c) as [| kv m] using rev_ind.
    + exists [], []. reflexivity.
    + exists [], [kv]. rewrite removelast_last. reflexivity.
  - destruct (cache c) as [| kv m].
    + exists [], []. reflexivity.
    + exists [kv], []. simpl. rewrite app_nil_r. reflexivity.
Qed.

Lemma evictLoop_keepsSegment (fuel : nat) :
  forall pref_page first last allowed_slides cached_slides c,
  keepsSegment c
    (snd (evictLoop fuel pref_page first last allowed_slides cached_slides c))
  /\ sameSetup c
       (snd (evictLoop fuel pref_page first last allowed_slides cached_slides c)).
Proof.
  induction fuel as [| fuel IH];
    intros pref_page first last allowed cached_slides c.
  - split; [apply keepsSegment_refl | apply sameSetup_refl].
  - rewrite evictLoop_step.
    destruct (settled pref_page first last c);
      [split; [apply keepsSegment_refl | apply sameSetup_refl] |].
    cbv zeta.
    pose proof (evictEntry_keepsSegment (last + 3 * first >? 4 * pref_page) c)
      as [Hseg Hsetup].
    destruct (evictEntry (last + 3 * first >? 4 * pref_page) c) as [remove c1].
    cbn [snd] in Hseg, Hsetup.
    destruct remove as [png |].
    + destruct ((_ <? threadsLength c) && (cached_slides - 1 >? 0)).
      * match goal with
        | |- context [evictLoop fuel ?p ?f ?l ?a ?cs c1] =>
            destruct (IH p f l a cs c1) as [Hseg' Hsetup']
        end.
        split; [exact (keepsSegment_trans _ _ _ Hseg Hseg')
               | exact (sameSetup_trans _ _ _ Hsetup Hsetup')].
      * split; [exact Hseg | exact Hsetup].
    + destruct ((allowed <? threadsLength c) && (cached_slides >? 0)).
      * match goal with
        | |- context [evictLoop fuel ?p ?f ?l ?a ?cs c1] =>
            destruct (IH p f l a cs c1) as [Hseg' Hsetup']
        end.
        split; [exact (keepsSegment_trans _ _ _ Hseg Hseg')
               | exact (sameSetup_trans _ _ _ Hsetup Hsetup')].
      * split; [exact Hseg | exact Hsetup].
Qed.

Lemma limitCacheSize_keepsSegment (prefs : Preferences) (c : t) :
  keepsSegment c (snd (limitCacheSize prefs c))
  /\ sameSetup c (snd (limitCacheSize prefs c)).
Proof.
  unfold limitCacheSize.
  destruct ((maxMemory c <? 0) && (maxNumber c <? 0)).
  { destruct (QMap.size (cache c) =? numberOfPages (pdfDoc c));
      (split; [apply keepsSegment_refl | apply sameSetup_refl]). }
  destruct ((maxNumber c =? 0) || (maxMemory c =? 0)).
  { split; [| repeat split]. exists (cache c), []. simpl.
    rewrite app_nil_r. reflexivity. }
  cbv zeta.
  set (c1 := if fst (region c) >? snd (region c) then _ else c).
  assert (H1 : keepsSegment c c1 /\ sameSetup c c1).
  { unfold c1. destruct (_ >? _);
      (split; [exists [], []; simpl; rewrite app_nil_r; reflexivity
              | repeat split]). }
  clearbody c1. destruct H1 as [Hseg Hsetup].
  destruct (QMap.size (cache c1) - runningThreads c1 <=? 0);
    [split; assumption |].
  match goal with
  | |- context [if ?b then (_, c1) else _] => destruct b
  end; [split; assumption |].
  match goal with
  | |- context [evictLoop ?fuel ?p ?f ?l ?a ?cs c1] =>
      destruct (evictLoop_keepsSegment fuel p f l a cs c1) as [Hseg' Hsetup']
  end.
  split; [exact (keepsSegment_trans _ _ _ Hseg Hseg')
         | exact (sameSetup_trans _ _ _ Hsetup Hsetup')].
Qed.

(** [limitCacheSize] deletes at the two ends of the cache only: what it
    keeps is a run of consecutive entries of the cache it found, unchanged
    and in order.  It emits nothing and leaves the queue, the budgets and
    the threads alone. *)
Theorem limitCacheSize_evicts_edges (prefs : Preferences) (c : t) :
  (exists before after,
     cache c = before ++ cache (snd (limitCacheSize prefs c)) ++ after)
  /\ priority (snd (limitCacheSize prefs c)) = priority c
  /\ threads (snd (limitCacheSize prefs c)) = threads c
  /\ trace (snd (limitCacheSize prefs c)) = trace c.
Proof.
  destruct (limitCacheSize_keepsSegment prefs c)
    as [Hseg (Hq & _ & _ & _ & Hth & _ & _ & Htr)].
  split; [exact Hseg |]. repeat split; assumption.
Qed.

(** *** The eviction never deletes the last entry *)

Lemma evictLoop_nonempty (fuel : nat) :
  forall pref_page first last allowed_slides cached_slides c,
  cache c <> [] ->
  cache (snd (evictLoop fuel pref_page first last allowed_slides cached_slides c))
  <> [].
Proof.
  induction fuel as [| fuel IH];
    intros pref_page first last allowed cached_slides c Hne; [exact Hne |].
  rewrite evictLoop_step.
  destruct (settled pref_page first last c) eqn:Hsettled; [exact Hne |].
  assert (Hbig : 2 <= QMap.size (cache c)).
  { unfold settled in Hsettled. apply orb_false_elim in Hsettled.
    destruct Hsettled as [_ H]. apply Z.ltb_ge in H. exact H. }
  cbv zeta.
  pose proof (length_evictEntry (last + 3 * first >? 4 * pref_page) c Hbig) as Hlen.
  destruct (evictEntry (last + 3 * first >? 4 * pref_page) c) as [remove c1].
  cbn [snd] in Hlen.
  assert (Hne1 : cache c1 <> []).
  { intros Hnil. rewrite Hnil in Hlen. unfold QMap.size in Hlen, Hbig.
    simpl in Hlen. lia. }
  destruct remove as [png |].
  - destruct ((_ <? threadsLength c) && (cached_slides - 1 >? 0));
      [apply IH; exact Hne1 | exact Hne1].
  - destruct ((allowed <? threadsLength c) && (cached_slides >? 0));
      [apply IH; exact Hne1 | exact Hne1].
Qed.

(** Unless a budget is zero, [limitCacheSize] never empties a cache that
    holds an entry, however far over the budgets the cache is. *)
Theorem limitCacheSize_keeps_an_entry (prefs : Preferences) (c : t) :
  maxNumber c <> 0 -> maxMemory c <> 0 -> cache c <> [] ->
  cache (snd (limitCacheSize prefs c)) <> [].
Proof.
  intros Hn Hm Hne. unfold limitCacheSize.
  destruct ((maxMemory c <? 0) && (maxNumber c <? 0)).
  { destruct (QMap.size (cache c) =? numberOfPages (pdfDoc c)); exact Hne. }
  destruct (Z.eqb_spec (maxNumber c) 0); [contradiction |].
  destruct (Z.eqb_spec (maxMemory c) 0); [contradiction |].
  simpl orb. cbv iota zeta.
  set (c1 := if fst (region c) >? snd (region c) then _ else c).
  assert (H1 : cache c1 = cache c) by (unfold c1; destruct (_ >? _); reflexivity).
  clearbody c1. rewrite <- H1 in Hne.
  destruct (QMap.size (cache c1) - runningThreads c1 <=? 0); [exact Hne |].
  match goal with
  | |- context [if ?b then (_, c1) else _] => destruct b
  end; [exact Hne |].
  apply evictLoop_nonempty. exact Hne.
Qed.

Lemma limitCacheSize_keeps_an_entry_witness :
  usedMemory (onePage 50) = 100 /\ maxMemory (onePage 50) = 50
  /\ cache (snd (limitCacheSize viewing0 (onePage 50))) <> [].
Proof.
  split; [reflexivity |]. split; [reflexivity |].
  apply (limitCacheSize_keeps_an_entry viewing0 (onePage 50)).
  - simpl. lia.
  - simpl. lia.
  - simpl. discriminate.
Defined.

(** *** The budget of slots *)

(** The cache holds no more entries than [maxNumber], unless it holds fewer
    than two or no more than one entry per running thread. *)
Definition withinNumber (c : t) : Prop :=
  QMap.size (cache c) <= maxNumber c
  \/ QMap.size (cache c) < 2
  \/ QMap.size (cache c) <= runningThreads c.

Lemma allowedAfterRemoval_slots (cached_slides : Z) (c : t) :
  1 <= allowedAfterRemoval cached_slides c -> QMap.size (cache c) <= maxNumber c.
Proof.
  unfold allowedAfterRemoval.
  destruct ((usedMemory c >? 0) && (cached_slides >? 0)); [| lia].
  cbv zeta.
  destruct (Z.gtb_spec
              (slidesInMemory (maxMemory c) (usedMemory c) cached_slides
               + QMap.size (cache c)) (maxNumber c)); lia.
Qed.

Lemma withinNumber_shrinkRegion (allowed first last : Z) (c : t) :
  withinNumber c -> withinNumber (snd (allowed, shrinkRegion first last c)).
Proof. intros H. exact H. Qed.

Lemma evictLoop_withinNumber (fuel : nat) :
  forall pref_page first last allowed_slides cached_slides c,
  (length (cache c) <= fuel)%nat ->
  0 <= maxNumber c -> 1 <= threadsLength c ->
  QMap.size (cache c) - runningThreads c <= cached_slides ->
  allowed_slides < threadsLength c -> 0 < cached_slides ->
  withinNumber
    (snd (evictLoop fuel pref_page first last allowed_slides cached_slides c)).
Proof.
  induction fuel as [| fuel IH];
    intros pref_page first last allowed cached_slides c
      Hfuel Hmax Hthreads Hghost Hallowed Hcached.
  - right. left. unfold QMap.size. simpl. lia.
  - rewrite evictLoop_step.
    destruct (settled pref_page first last c) eqn:Hsettled.
    { unfold settled in Hsettled. simpl snd.
      destruct (Z.ltb_spec (QMap.size (cache c)) 2) as [Hsmall | Hbig];
        [right; left; exact Hsmall |].
      rewrite orb_false_r in Hsettled.
      apply andb_prop in Hsettled. destruct Hsettled as [Hsettled _].
      apply andb_prop in Hsettled. destruct Hsettled as [Hsettled _].
      apply andb_prop in Hsettled. destruct Hsettled as [Hsettled _].
      apply andb_prop in Hsettled. destruct Hsettled as [Hnum _].
      destruct (Z.ltb_spec (maxNumber c) 0); [lia |]. simpl in Hnum.
      left. apply Z.leb_le. exact Hnum. }
    assert (Hbig : 2 <= QMap.size (cache c)).
    { unfold settled in Hsettled. apply orb_false_elim in Hsettled.
      destruct Hsettled as [_ H]. apply Z.ltb_ge in H. exact H. }
    cbv zeta.
    pose proof (length_evictEntry (last + 3 * first >? 4 * pref_page) c Hbig) as Hlen.
    pose proof (evictEntry_keepsSegment (last + 3 * first >? 4 * pref_page) c)
      as [_ (_ & _ & _ & Hnum1 & Hth1 & _)].
    destruct (evictEntry (last + 3 * first >? 4 * pref_page) c) as [remove c1].
    cbn [snd fst] in *.
    assert (Hthreads1 : threadsLength c1 = threadsLength c)
      by (unfold threadsLength; rewrite Hth1; reflexivity).
    assert (Hrunning1 : runningThreads c1 = runningThreads c)
      by (unfold runningThreads; rewrite Hth1; reflexivity).
    assert (Hfuel1 : (length (cache c1) <= fuel)%nat)
      by (unfold QMap.size in Hlen; lia).
    destruct remove as [png |].
    + destruct (Z.ltb_spec (allowedAfterRemoval (cached_slides - 1) c1)
                  (threadsLength c)) as [Hlt | Hge];
        destruct (Z.gtb_spec (cached_slides - 1) 0) as [Hpos | Hzero];
        simpl andb; cbv iota.
      * apply IH; try assumption; lia.
      * apply withinNumber_shrinkRegion. right. right. lia.
      * apply withinNumber_shrinkRegion. left.
        apply (allowedAfterRemoval_slots (cached_slides - 1)). lia.
      * apply withinNumber_shrinkRegion. right. right. lia.
    + destruct (Z.ltb_spec allowed (threadsLength c)); [| lia].
      destruct (Z.gtb_spec cached_slides 0); [| lia].
      simpl andb. cbv iota.
      apply IH; try assumption; lia.
Qed.

Lemma limitCacheSize_withinNumber (prefs : Preferences) (c : t) :
  0 <= maxNumber c -> 1 <= threadsLength c ->
  withinNumber (snd (limitCacheSize prefs c)).
Proof.
  intros Hmax Hthreads. unfold limitCacheSize.
  destruct (Z.ltb_spec (maxNumber c) 0); [lia |].
  rewrite andb_false_r.
  destruct (Z.eqb_spec (maxNumber c) 0) as [Hn | Hn].
  { left. simpl. exact Hmax. }
  destruct (Z.eqb_spec (maxMemory c) 0) as [Hm | Hm].
  { left. simpl. exact Hmax. }
  simpl orb. cbv iota zeta.
  set (c1 := if fst (region c) >? snd (region c) then _ else c).
  assert (Hfields : cache c1 = cache c /\ maxNumber c1 = maxNumber c /\
                    threads c1 = threads c)
    by (unfold c1; destruct (_ >? _); repeat split).
  destruct Hfields as (Hcache & Hnum1 & Hth1).
  assert (Hthreads1 : threadsLength c1 = threadsLength c)
    by (unfold threadsLength; rewrite Hth1; reflexivity).
  clearbody c1.
  destruct (Z.leb_spec (QMap.size (cache c1) - runningThreads c1) 0) as [Hnone | Hsome].
  { right. right. simpl. lia. }
  destruct (Z.gtb_spec (maxNumber c1) 0); [| lia].
  simpl andb.
  match goal with
  | |- context [?a >=? threadsLength c1] =>
      destruct (Z.geb_spec a (threadsLength c1)) as [Hge | Hlt]
  end.
  - simpl snd. left.
    match type of Hge with
    | context [?x + QMap.size (cache c1) >? maxNumber c1] =>
        destruct (Z.gtb_spec (x + QMap.size (cache c1)) (maxNumber c1)); lia
    end.
  - apply evictLoop_withinNumber; try lia.
Qed.

(** With at least one thread and a budget of slots that is not negative, a
    scheduling pass leaves no more entries in the cache than [maxNumber],
    unless fewer than two are left or every entry is accounted for by a
    running thread. *)
Theorem startRendering_withinNumber (prefs : Preferences) (c : t) :
  0 <= maxNumber c -> 1 <= threadsLength c ->
  withinNumber (snd (limitCacheSize prefs c))
  /\ exists c1, startRendering prefs c = Some c1 /\ withinNumber c1.
Proof.
  intros Hmax Hthreads.
  pose proof (limitCacheSize_withinNumber prefs c Hmax Hthreads) as H.
  split; [exact H |].
  destruct (startRendering_total prefs c) as (c1 & Hstart & Hsame).
  exists c1. split; [exact Hstart |].
  destruct Hsame as (Hcache & _ & _ & Hnum & Hth).
  unfold withinNumber, runningThreads in *. rewrite Hcache, Hnum, Hth. exact H.
Qed.

(** Three cached pages in a cache of two slots. *)
Definition threeInTwoSlots : t :=
  let c := requestPage 2 2 true (requestPage 1 2 true (onePage 1000)) in
  mkCache (cache c) (priority c) (region c) (frame c) (maxMemory c)
    (usedMemory c) 2 (threads c) (renderer c) (pdfDoc c) (trace c).

Lemma startRendering_withinNumber_witness :
  QMap.size (cache threeInTwoSlots) = 3
  /\ exists c1,
       startRendering viewing0 threeInTwoSlots = Some c1 /\ withinNumber c1.
Proof.
  split; [reflexivity |].
  apply (startRendering_withinNumber viewing0 threeInTwoSlots).
  - simpl. lia.
  - vm_compute. discriminate.
Defined.

End CacheEviction.

(** ** The choice of the next page and the scheduling pass *)

Module RenderQueue.
Import PixCache.
Import PixCacheProofs.
Import CacheEviction.

Definition isCached (c : t) (n : Z) : Prop := QMap.contains n (cache c) = true.

Lemma takeUncached_found (m : QMap.t (option PngPixmap)) (queue : list Z) :
  forall n rest,
  takeUncached m queue = (Some n, rest) ->
  QMap.contains n m = false
  /\ exists skipped,
       queue = skipped ++ n :: rest
       /\ Forall (fun k => QMap.contains k m = true) skipped.
Proof.
  induction queue as [| k queue IH]; intros n rest H; [discriminate H |].
  simpl in H. destruct (QMap.contains k m) eqn:Hk; simpl in H.
  - destruct (IH n rest H) as (Hn & skipped & Hq & Hall).
    split; [exact Hn |]. exists (k :: skipped). split.
    + rewrite Hq. reflexivity.
    + constructor; assumption.
  - inversion H; subst. split; [exact Hk |]. exists []. split; [reflexivity |].
    constructor.
Qed.

Lemma takeUncached_none (m : QMap.t (option PngPixmap)) (queue : list Z) :
  forall rest,
  takeUncached m queue = (None, rest) ->
  rest = [] /\ Forall (fun k => QMap.contains k m = true) queue.
Proof.
  induction queue as [| k queue IH]; intros rest H.
  - inversion H. split; [reflexivity | constructor].
  - simpl in H. destruct (QMap.contains k m) eqn:Hk; simpl in H; [| discriminate H].
    destruct (IH rest H) as [Hrest Hall]. split; [exact Hrest |].
    constructor; assumption.
Qed.

Lemma growRegion_found (fuel : nat) (m : QMap.t (option PngPixmap)) (pref_page : Z) :
  forall r n r',
  growRegion fuel m pref_page r = Some (n, r') ->
  QMap.contains n m = false
  /\ fst r' <= fst r /\ snd r <= snd r'
  /\ ((n = fst r' + 1 /\ n <= fst r) \/ (n = snd r' - 1 /\ snd r <= n)).
Proof.
  induction fuel as [| fuel IH]; intros [first second] n r' H; [discriminate H |].
  cbn [growRegion] in H.
  destruct ((second + 3 * first >? 4 * pref_page) && (first >=? 0)).
  - destruct (QMap.contains first m) eqn:Hc; simpl in H.
    + destruct (IH _ _ _ H) as (Hn & H1 & H2 & Hside). simpl in *.
      split; [exact Hn |]. split; [lia |]. split; [lia |].
      destruct Hside as [[? ?] | [? ?]]; [left | right]; lia.
    + inversion H; subst. simpl. split; [exact Hc |]. lia.
  - destruct (QMap.contains second m) eqn:Hc; simpl in H.
    + destruct (IH _ _ _ H) as (Hn & H1 & H2 & Hside). simpl in *.
      split; [exact Hn |]. split; [lia |]. split; [lia |].
      destruct Hside as [[? ?] | [? ?]]; [left | right]; lia.
    + inversion H; subst. simpl. split; [exact Hc |]. lia.
Qed.

(** What [renderNext] and the signals leave as they are. *)
Definition sameDocument (c c1 : t) : Prop :=
  cache c1 = cache c /\ frame c1 = frame c /\ threads c1 = threads c /\
  renderer c1 = renderer c /\ pdfDoc c1 = pdfDoc c.

Lemma renderNext_found (prefs : Preferences) (c c1 : t) (n : Z) :
  renderNext prefs c = Some (n, c1) ->
  QMap.contains n (cache c) = false
  /\ sameDocument c c1 /\ trace c1 = trace c
  /\ ((exists skipped,
         priority c = skipped ++ n :: priority c1
         /\ Forall (isCached c) skipped /\ region c1 = region c)
      \/ (priority c1 = [] /\ Forall (isCached c) (priority c)
          /\ (n = fst (region c1) + 1 \/ n = snd (region c1) - 1))).
Proof.
  unfold renderNext.
  destruct (takeUncached (cache c) (priority c)) as [[k |] rest] eqn:Htake.
  - intros H. inversion H; subst.
    destruct (takeUncached_found _ _ _ _ Htake) as (Hn & skipped & Hq & Hall).
    split; [exact Hn |]. split; [repeat split |]. split; [reflexivity |].
    left. exists skipped. simpl. auto.
  - destruct (takeUncached_none _ _ _ Htake) as [Hrest Hall].
    destruct (growRegion _ _ _ _) as [[k r'] |] eqn:Hgrow; [| discriminate].
    intros H. inversion H; subst.
    destruct (growRegion_found _ _ _ _ _ _ Hgrow) as (Hn & _ & _ & Hside).
    split; [exact Hn |]. split; [repeat split |]. split; [reflexivity |].
    right. simpl. split; [reflexivity |]. split; [exact Hall |].
    destruct Hside as [[? _] | [? _]]; [left | right]; assumption.
Qed.


Lemma resolutionOf_ext (c c1 : t) (n : Z) :
  sameDocument c c1 -> resolutionOf c1 n = resolutionOf c n.
Proof.
  intros (_ & Hf & _ & Hr & Hd). unfold resolutionOf.
  rewrite Hf, Hr, Hd. reflexivity.
Qed.

(** The signal that hands page [snd d] to thread [fst d]. *)
Definition assignment (c : t) (d : nat * Z) : Event :=
  setPixCacheThreadPage (fst d) (snd d) (resolutionOf c (snd d)).

Lemma assignment_ext (c c1 : t) (ds : list (nat * Z)) :
  sameDocument c c1 -> map (assignment c1) ds = map (assignment c) ds.
Proof.
  intros Hsame. apply map_ext. intros d. unfold assignment.
  rewrite (resolutionOf_ext c c1 _ Hsame). reflexivity.
Qed.

(** What holds of the assignments [ds] made to the threads [ths], the
    first of which is thread [i]. *)
Definition assigns (c : t) (i : nat) (ths : list (option bool))
    (ds : list (nat * Z)) : Prop :=
  Forall
    (fun d =>
       (i <= fst d)%nat
       /\ nth_error ths (fst d - i) = Some (Some false)
       /\ 0 <= snd d < numberOfPages (pdfDoc c)
       /\ QMap.contains (snd d) (cache c) = false) ds
  /\ StronglySorted lt (map fst ds).

Lemma assigns_skip (c : t) (i : nat) (th : option bool) (ths : list (option bool))
    (ds : list (nat * Z)) :
  assigns c (S i) ths ds -> assigns c i (th :: ths) ds.
Proof.
  intros [Hall Hsorted]. split; [| exact Hsorted].
  eapply Forall_impl; [| exact Hall].
  intros d (Hd1 & Hd2 & Hd3 & Hd4).
  split; [lia |]. split; [| auto].
  replace (fst d - i)%nat with (S (fst d - S i)) by lia. exact Hd2.
Qed.

Lemma assigns_ext (c c1 : t) (i : nat) (ths : list (option bool))
    (ds : list (nat * Z)) :
  sameDocument c c1 -> assigns c1 i ths ds -> assigns c i ths ds.
Proof.
  intros (Hc & _ & _ & _ & Hd) [Hall Hsorted]. split; [| exact Hsorted].
  eapply Forall_impl; [| exact Hall].
  intros d H. rewrite Hc, Hd in H. exact H.
Qed.

Lemma sameDocument_trans (c c1 c2 : t) :
  sameDocument c c1 -> sameDocument c1 c2 -> sameDocument c c2.
Proof.
  unfold sameDocument.
  intros (A1 & A2 & A3 & A4 & A5) (B1 & B2 & B3 & B4 & B5).
  repeat split; etransitivity; eassumption.
Qed.

Lemma dispatch_trace (prefs : Preferences) (ths : list (option bool)) :
  forall (i : nat) (allowed : Z) (c c1 : t),
  dispatch prefs i ths allowed c = Some c1 ->
  exists ds,
    trace c1 = trace c ++ map (assignment c) ds
    /\ assigns c i ths ds
    /\ Z.of_nat (length ds) <= Z.max 0 allowed
    /\ sameDocument c c1.
Proof.
  induction ths as [| th ths IH]; intros i allowed c c1 H.
  - inversion H; subst. exists []. simpl. rewrite app_nil_r.
    split; [reflexivity |]. split; [split; constructor |].
    split; [lia | repeat split].
  - simpl in H.
    assert (Hskip : dispatch prefs (S i) ths allowed c = Some c1 ->
                    exists ds,
                      trace c1 = trace c ++ map (assignment c) ds
                      /\ assigns c i (th :: ths) ds
                      /\ Z.of_nat (length ds) <= Z.max 0 allowed
                      /\ sameDocument c c1).
    { intros H'. destruct (IH _ _ _ _ H') as (ds & Ht & Hall & Hl & Hc).
      exists ds. split; [exact Ht |]. split; [apply assigns_skip; exact Hall |].
      split; [exact Hl | exact Hc]. }
    destruct th as [[|] |]; try (apply Hskip; exact H).
    destruct (Z.gtb_spec allowed 0) as [Hpos | Hnone]; [| apply Hskip; exact H].
    destruct (renderNext prefs c) as [[n c0] |] eqn:Hnext; [| discriminate H].
    destruct (renderNext_found prefs c c0 n Hnext) as (Hn & Hsame & Htrace0 & _).
    pose proof Hsame as (Hcache0 & _ & _ & _ & Hdoc0).
    assert (Hstop : Some c0 = Some c1 ->
                    exists ds,
                      trace c1 = trace c ++ map (assignment c) ds
                      /\ assigns c i (Some false :: ths) ds
                      /\ Z.of_nat (length ds) <= Z.max 0 allowed
                      /\ sameDocument c c1).
    { intros Heq. inversion Heq; subst. exists []. simpl. rewrite app_nil_r.
      split; [exact Htrace0 |]. split; [split; constructor |].
      split; [lia | exact Hsame]. }
    destruct (Z.ltb_spec n 0) as [Hneg | Hnonneg]; simpl in H;
      [apply Hstop; exact H |].
    destruct (Z.geb_spec n (numberOfPages (pdfDoc c0))) as [Hbig | Hsmall];
      [apply Hstop; exact H |].
    destruct (IH _ _ _ _ H) as (ds & Ht & [Hall Hsorted] & Hl & Hc).
    assert (Hsame' : sameDocument c
                       (emit (setPixCacheThreadPage i n (resolutionOf c0 n)) c0))
      by exact Hsame.
    exists ((i, n) :: ds). split; [| split; [| split]].
    + rewrite Ht, (assignment_ext c _ ds Hsame').
      change (trace (emit (setPixCacheThreadPage i n (resolutionOf c0 n)) c0))
        with (trace c0 ++ [setPixCacheThreadPage i n (resolutionOf c0 n)]).
      rewrite Htrace0, <- app_assoc, (resolutionOf_ext c c0 n Hsame).
      reflexivity.
    + split.
      * constructor.
        -- simpl. rewrite Nat.sub_diag. simpl.
           split; [lia |]. split; [reflexivity |].
           split; [rewrite <- Hdoc0; lia | exact Hn].
        -- apply (assigns_skip c i (Some false) ths ds).
           apply (assigns_ext c _ _ _ _ Hsame'). split; assumption.
      * simpl. constructor; [exact Hsorted |].
        apply Forall_map. eapply Forall_impl; [| exact Hall].
        intros d (Hd1 & _). lia.
    + simpl length. lia.
    + exact (sameDocument_trans _ _ _ Hsame' Hc).
Qed.

(** A scheduling pass emits nothing but signals that hand pages to
    threads.  The threads that get a page are idle, each gets at most one,
    in the order of the threads; the pages are pages of the document that
    are not in the cache, at the resolution of the current frame; and no
    more pages are handed out than [limitCacheSize] allows. *)
Theorem startRendering_assigns (prefs : Preferences) (c : t) :
  exists c1 ds,
    startRendering prefs c = Some c1
    /\ trace c1 = trace c ++ map (assignment c) ds
    /\ Forall
         (fun d =>
            nth_error (threads c) (fst d) = Some (Some false)
            /\ 0 <= snd d < numberOfPages (pdfDoc c)
            /\ QMap.contains (snd d) (cache c1) = false) ds
    /\ StronglySorted lt (map fst ds)
    /\ Z.of_nat (length ds) <= Z.max 0 (fst (limitCacheSize prefs c)).
Proof.
  destruct (startRendering_total prefs c) as (c1 & Hstart & _).
  exists c1. pose proof Hstart as Hrun. unfold startRendering in Hrun.
  destruct (limitCacheSize_keepsSegment prefs c)
    as [_ (_ & Hf & _ & _ & Hth & Hr & Hd & Htr)].
  destruct (limitCacheSize prefs c) as [allowed c0]. cbn [fst snd] in *.
  destruct (Z.leb_spec allowed 0) as [Hnone | Hsome].
  - inversion Hrun; subst. exists []. simpl. rewrite app_nil_r.
    split; [exact Hstart |]. split; [exact Htr |].
    split; [constructor |]. split; [constructor | lia].
  - destruct (dispatch_trace prefs _ _ _ _ _ Hrun)
      as (ds & Ht & [Hall Hsorted] & Hl & Hsame).
    assert (Hsame0 : forall n, resolutionOf c0 n = resolutionOf c n).
    { intros n. unfold resolutionOf. rewrite Hf, Hr, Hd. reflexivity. }
    exists ds. split; [exact Hstart |]. split; [| split; [| split]].
    + rewrite Ht, Htr. f_equal. apply map_ext. intros d. unfold assignment.
      rewrite Hsame0. reflexivity.
    + eapply Forall_impl; [| exact Hall].
      intros d (_ & Hd2 & Hd3 & Hd4). rewrite Nat.sub_0_r, Hth in Hd2.
      rewrite Hd in Hd3. destruct Hsame as (Hcache & _). rewrite Hcache.
      auto.
    + exact Hsorted.
    + exact Hl.
Qed.

(** *** A page that is handed out is not marked *)

Lemma renderNext_current (prefs : Preferences) (c : t) :
  QMap.contains (page prefs) (cache c) = false ->
  priority c = [] -> region c = (page prefs, page prefs) ->
  renderNext prefs c
  = Some (page prefs,
          setRegion (page prefs, page prefs + 1) (setPriority [] c)).
Proof.
  intros Hc Hq Hr. unfold renderNext. rewrite Hq. cbn [takeUncached].
  cbn [region setPriority cache]. rewrite Hr. cbn [fst snd].
  rewrite Z.gtb_ltb, Z.ltb_irrefl.
  rewrite Nat.add_1_r. cbn [growRegion].
  replace (page prefs + 3 * page prefs >? 4 * page prefs) with false
    by (symmetry; destruct (Z.gtb_spec (page prefs + 3 * page prefs) (4 * page prefs));
        [lia | reflexivity]).
  cbn [andb]. rewrite Hc. reflexivity.
Qed.

Lemma renderNext_again (prefs : Preferences) (c : t) :
  0 <= page prefs ->
  QMap.contains (page prefs) (cache c) = false ->
  priority c = [] -> region c = (page prefs, page prefs + 1) ->
  renderNext prefs c
  = Some (page prefs,
          setRegion (page prefs - 1, page prefs + 1) (setPriority [] c)).
Proof.
  intros Hp Hc Hq Hr. unfold renderNext. rewrite Hq. cbn [takeUncached].
  cbn [region setPriority cache]. rewrite Hr. cbn [fst snd].
  replace (page prefs >? page prefs + 1) with false
    by (symmetry; destruct (Z.gtb_spec (page prefs) (page prefs + 1));
        [lia | reflexivity]).
  rewrite Nat.add_1_r. cbn [growRegion].
  replace (page prefs + 1 + 3 * page prefs >? 4 * page prefs) with true
    by (symmetry;
        destruct (Z.gtb_spec (page prefs + 1 + 3 * page prefs) (4 * page prefs));
        [reflexivity | lia]).
  replace (page prefs >=? 0) with true
    by (symmetry; destruct (Z.geb_spec (page prefs) 0); [reflexivity | lia]).
  cbn [andb]. rewrite Hc. reflexivity.
Qed.

Lemma limitCacheSize_empty (prefs : Preferences) (c : t) :
  cache c = [] -> maxNumber c <> 0 -> maxMemory c <> 0 ->
  fst (region c) <= snd (region c) -> 0 < numberOfPages (pdfDoc c) ->
  limitCacheSize prefs c = (INT_MAX_HALF, c).
Proof.
  intros Hc Hn Hm Hr Hpages. unfold limitCacheSize. rewrite Hc.
  destruct ((maxMemory c <? 0) && (maxNumber c <? 0)).
  { change (QMap.size (@nil (Z * option PngPixmap))) with 0.
    destruct (Z.eqb_spec 0 (numberOfPages (pdfDoc c))); [lia | reflexivity]. }
  destruct (Z.eqb_spec (maxNumber c) 0); [contradiction |].
  destruct (Z.eqb_spec (maxMemory c) 0); [contradiction |].
  cbn [orb]. cbv zeta.
  destruct (Z.gtb_spec (fst (region c)) (snd (region c))); [lia |].
  rewrite Hc. change (QMap.size (@nil (Z * option PngPixmap))) with 0.
  destruct (Z.leb_spec (0 - runningThreads c) 0) as [_ | Hpos]; [reflexivity |].
  unfold runningThreads in Hpos. lia.
Qed.

(** [renderNext] does not mark the page it returns.  In a cache that was
    just cleared, a scheduling pass with two idle threads hands the current
    page to both of them. *)
Theorem startRendering_assigns_page_twice (prefs : Preferences) (c : t)
    (rest : list (option bool)) :
  cache c = [] -> priority c = [] ->
  region c = (page prefs, page prefs) ->
  0 <= page prefs < numberOfPages (pdfDoc c) ->
  maxNumber c <> 0 -> maxMemory c <> 0 ->
  threads c = Some false :: Some false :: rest ->
  exists c1 evs,
    startRendering prefs c = Some c1
    /\ trace c1
       = trace c
         ++ setPixCacheThreadPage 0 (page prefs) (resolutionOf c (page prefs))
         :: setPixCacheThreadPage 1 (page prefs) (resolutionOf c (page prefs))
         :: evs.
Proof.
  intros Hc Hq Hr Hp Hn Hm Hth.
  unfold startRendering.
  rewrite (limitCacheSize_empty prefs c Hc Hn Hm) by (rewrite ?Hr; simpl; lia).
  change (INT_MAX_HALF <=? 0) with false. cbv iota. rewrite Hth.
  cbn [dispatch]. change (INT_MAX_HALF >? 0) with true. cbv iota.
  rewrite (renderNext_current prefs c) by (rewrite ?Hc; auto).
  cbn [pdfDoc setRegion setPriority].
  destruct (Z.ltb_spec (page prefs) 0); [lia |].
  destruct (Z.geb_spec (page prefs) (numberOfPages (pdfDoc c))); [lia |].
  cbn [orb]. cbv iota.
  change (INT_MAX_HALF - 1 >? 0) with true. cbv iota.
  set (c1 := setRegion (page prefs, page prefs + 1) (setPriority [] c)).
  set (e1 := setPixCacheThreadPage 0 (page prefs) (resolutionOf c1 (page prefs))).
  rewrite (renderNext_again prefs (emit e1 c1))
    by (try exact (proj1 Hp); simpl; rewrite ?Hc; reflexivity).
  cbn [pdfDoc setRegion setPriority emit]. change (pdfDoc c1) with (pdfDoc c).
  destruct (Z.ltb_spec (page prefs) 0); [lia |].
  destruct (Z.geb_spec (page prefs) (numberOfPages (pdfDoc c))); [lia |].
  cbn [orb]. cbv iota.
  match goal with
  | |- context [dispatch prefs 2 rest ?a ?c2] =>
      destruct (dispatch_total prefs rest 2 a c2) as (c3 & Hd3 & _);
      destruct (dispatch_trace prefs rest 2 a c2 c3 Hd3) as (ds & Ht & _)
  end.
  exists c3, (map (assignment c) ds). split; [exact Hd3 |].
  rewrite Ht.
  transitivity
    (((trace c
       ++ [setPixCacheThreadPage 0 (page prefs) (resolutionOf c (page prefs))])
      ++ [setPixCacheThreadPage 1 (page prefs) (resolutionOf c (page prefs))])
     ++ map (assignment c) ds); [reflexivity |].
  rewrite <- !app_assoc. reflexivity.
Qed.

Definition twoIdleThreads : t :=
  mkCache [] [] (0, 0) (800%Q, 600%Q) 1000 0 10 [Some false; Some false]
    (Some plainRenderer) tenPages [].

Lemma startRendering_assigns_page_twice_witness :
  exists c1 evs,
    startRendering viewing0 twoIdleThreads = Some c1
    /\ trace c1
       = setPixCacheThreadPage 0 0 (resolutionOf twoIdleThreads 0)
         :: setPixCacheThreadPage 1 0 (resolutionOf twoIdleThreads 0) :: evs.
Proof.
  destruct (startRendering_assigns_page_twice viewing0 twoIdleThreads []
              eq_refl eq_refl eq_refl
              ltac:(simpl; lia) ltac:(simpl; lia) ltac:(simpl; lia) eq_refl)
    as (c1 & evs & Hstart & Htrace).
  exists c1, evs. split; [exact Hstart | exact Htrace].
Defined.

(** *** The queue holds a page once *)

Lemma In_removeOne (n x : Z) (l : list Z) : In x (removeOne n l) -> In x l.
Proof.
  induction l as [| y l IH]; simpl; [auto |].
  destruct (Z.eqb_spec y n); [auto |].
  simpl. intros [H | H]; auto.
Qed.

Lemma NoDup_removeOne (n : Z) (l : list Z) :
  NoDup l -> NoDup (removeOne n l) /\ ~ In n (removeOne n l).
Proof.
  induction l as [| y l IH]; intros H; simpl.
  - split; [constructor | auto].
  - inversion H as [| ? ? Hy Hl]; subst.
    destruct (Z.eqb_spec y n) as [-> | Hne]; [split; assumption |].
    destruct (IH Hl) as [Hnd Hnin]. split.
    + constructor; [| exact Hnd]. intros Hin. apply Hy.
      exact (In_removeOne _ _ _ Hin).
    + simpl. intros [Heq | Hin]; [contradiction | exact (Hnin Hin)].
Qed.

(** No page is queued twice: [requestRenderPage], [pageNumberChanged] and
    [renderNext] keep the priority queue free of duplicates, and a second
    request for a page does not queue it again. *)
Theorem priority_without_duplicates (prefs : Preferences) (n : Z) (c : t) :
  NoDup (priority c) ->
  NoDup (priority (requestRenderPage n c))
  /\ priority (requestRenderPage n (requestRenderPage n c))
     = priority (requestRenderPage n c)
  /\ NoDup (priority (pageNumberChanged n c))
  /\ (forall m c1, renderNext prefs c = Some (m, c1) -> NoDup (priority c1)).
Proof.
  intros Hnd. split; [| split; [| split]].
  - unfold requestRenderPage.
    destruct (existsb (Z.eqb n) (priority c)) eqn:Hex; simpl; [exact Hnd |].
    destruct (QMap.contains n (cache c)); simpl; [exact Hnd |].
    apply NoDup_app; [exact Hnd | repeat constructor; auto |].
    intros x Hin [Hx | []]. subst x.
    assert (Htrue : existsb (Z.eqb n) (priority c) = true).
    { apply existsb_exists. exists n. split; [exact Hin | apply Z.eqb_refl]. }
    congruence.
  - unfold requestRenderPage at 2 3.
    destruct (existsb (Z.eqb n) (priority c)) eqn:Hex; simpl.
    + unfold requestRenderPage. simpl. rewrite Hex. reflexivity.
    + destruct (QMap.contains n (cache c)) eqn:Hc; simpl.
      * unfold requestRenderPage. simpl. rewrite Hex, Hc. reflexivity.
      * unfold requestRenderPage. simpl.
        rewrite existsb_app. simpl. rewrite Z.eqb_refl, orb_true_r. reflexivity.
  - unfold pageNumberChanged.
    destruct (QMap.contains n (cache c)); simpl; [exact Hnd |].
    destruct (priority c) as [| first q] eqn:Hq; [simpl; rewrite Hq; exact Hnd |].
    destruct (Z.eqb_spec first n) as [-> | Hne]; simpl.
    + rewrite Hq. exact Hnd.
    + destruct (NoDup_removeOne n (first :: q) Hnd) as [Hnd' Hnin].
      simpl in Hnd', Hnin. destruct (Z.eqb_spec first n); [contradiction |].
      constructor; assumption.
  - intros m c1 Hnext.
    destruct (renderNext_found prefs c c1 m Hnext)
      as (_ & _ & _ & [(skipped & Hq & _) | (Hq & _)]).
    + rewrite Hq in Hnd. apply NoDup_app_remove_l in Hnd.
      inversion Hnd; assumption.
    + rewrite Hq. constructor.
Qed.

Lemma priority_without_duplicates_witness :
  priority (pageNumberChanged 5 (setPriority [3; 5; 7] (emptyCache 1000))) = [5; 3; 7]
  /\ NoDup (priority (pageNumberChanged 5 (setPriority [3; 5; 7] (emptyCache 1000)))).
Proof.
  split; [reflexivity |].
  apply (priority_without_duplicates prefs5 5 (setPriority [3; 5; 7] (emptyCache 1000))).
  simpl. repeat constructor; simpl; intuition lia.
Defined.

End RenderQueue.

(** ** Lookups, arriving images and the region around the current page *)

Module CacheLookups.
Import PixCache.
Import PixCacheProofs.

Lemma find_remove_other (j k : Z) (m : QMap.t (option PngPixmap)) :
  j <> k -> QMap.find j (QMap.remove k m) = QMap.find j m.
Proof.
  intros Hjk. induction m as [| [k' v'] m IH]; [reflexivity |].
  simpl. destruct (Z.eqb_spec k k') as [-> | Hne].
  - destruct (Z.eqb_spec j k'); [contradiction | reflexivity].
  - simpl. rewrite IH. reflexivity.
Qed.

Lemma find_remove_same (k : Z) (m : QMap.t (option PngPixmap)) :
  QMap.wf m -> QMap.find k (QMap.remove k m) = None.
Proof.
  induction m as [| [k' v'] m IH]; intros Hwf; [reflexivity |].
  destruct (wf_tail _ _ _ Hwf) as [Hwf' Habove].
  simpl. destruct (Z.eqb_spec k k') as [-> | Hne].
  - apply find_above. exact Habove.
  - simpl. destruct (Z.eqb_spec k k'); [contradiction |]. apply IH. exact Hwf'.
Qed.

(** An image that arrives at a resolution which is no longer the one of the
    frame is dropped: [usedMemory] is unchanged and [cached] answers as
    before for every page and resolution; the entries of the other pages are
    untouched; an image that is cached for the page of the dropped one
    stays, while a null marker of that page, left by a rendering in
    progress, is removed, after which the cache does not contain the page
    any more; the next scheduling pass is requested. *)
Theorem receiveData_outdated (png : PngPixmap) (c : t) :
  isNull png = false ->
  Qltb MAX_RESOLUTION_DEVIATION
    (Qabs (resolutionOf c (getPage png) - getResolution png)) = true ->
  QMap.wf (cache c) ->
  let c1 := receiveData (Some png) c in
  usedMemory c1 = usedMemory c
  /\ (forall n r, cached c1 n r = cached c n r)
  /\ (forall n, n <> getPage png ->
        QMap.find n (cache c1) = QMap.find n (cache c))
  /\ QMap.find (getPage png) (cache c1)
     = match QMap.find (getPage png) (cache c) with
       | Some (Some old) => Some (Some old)
       | _ => None
       end
  /\ QMap.contains (getPage png) (cache c1)
     = match QMap.find (getPage png) (cache c) with
       | Some (Some old) => true
       | _ => false
       end
  /\ trace c1 = trace c ++ [startTimer].
Proof.
  intros Hnull Hstale Hwf c1. subst c1. unfold receiveData.
  rewrite Hnull, Hstale.
  unfold QMap.value, QMap.contains.
  destruct (QMap.find (getPage png) (cache c)) as [[old |] |] eqn:Hfind.
  - cbn [emit cache usedMemory trace]. rewrite Hfind.
    repeat split; reflexivity.
  - assert (Hgone : QMap.find (getPage png)
                      (QMap.remove (getPage png) (cache c)) = None)
      by (apply find_remove_same; exact Hwf).
    split; [reflexivity |]. split.
    { intros n r. unfold cached. simpl cache.
      destruct (Z.eq_dec n (getPage png)) as [-> | Hne].
      - rewrite Hgone, Hfind. reflexivity.
      - rewrite find_remove_other by exact Hne. reflexivity. }
    split; [intros n Hne; simpl cache; apply find_remove_other; exact Hne |].
    simpl cache. rewrite Hgone. repeat split; reflexivity.
  - assert (Hgone : QMap.find (getPage png)
                      (QMap.remove (getPage png) (cache c)) = None)
      by (apply find_remove_same; exact Hwf).
    split; [reflexivity |]. split.
    { intros n r. unfold cached. simpl cache.
      destruct (Z.eq_dec n (getPage png)) as [-> | Hne].
      - rewrite Hgone, Hfind. reflexivity.
      - rewrite find_remove_other by exact Hne. reflexivity. }
    split; [intros n Hne; simpl cache; apply find_remove_other; exact Hne |].
    simpl cache. rewrite Hgone. repeat split; reflexivity.
Qed.

Definition outdatedImage : PngPixmap := mkPng 0 5 70 false (mkPixmap 9 70).

(** Page 0 is being rendered: the cache holds its null marker. *)
Definition renderingPage0 : t := setCache [(0, None)] 0 (emptyCache 1000).

Lemma receiveData_outdated_witness :
  (cached (receiveData (Some outdatedImage) (onePage 1000)) 0 2
   = cached (onePage 1000) 0 2
   /\ usedMemory (receiveData (Some outdatedImage) (onePage 1000)) = 100)
  /\ (QMap.contains 0 (cache renderingPage0) = true
      /\ QMap.contains 0
           (cache (receiveData (Some outdatedImage) renderingPage0)) = false).
Proof.
  split.
  - destruct (receiveData_outdated outdatedImage (onePage 1000) eq_refl eq_refl
                (proj1 (onePage_accounted 1000)))
      as (Hused & Hcached & _).
    split; [apply Hcached | exact Hused].
  - split; [reflexivity |].
    assert (Hwf : QMap.wf (cache renderingPage0))
      by (repeat constructor).
    destruct (receiveData_outdated outdatedImage renderingPage0 eq_refl eq_refl
                Hwf)
      as (_ & _ & _ & _ & Hcontains & _).
    exact Hcontains.
Defined.

Lemma cached_store_any (png : PngPixmap) (n : Z) (c : t) :
  cached (store png n c) n (getResolution png) = Some png.
Proof.
  unfold cached, store. simpl cache.
  rewrite QMapFacts.find_insert_same, sameResolution_refl. reflexivity.
Qed.

(** An image that arrives at the resolution of the frame is served from
    then on: a request for its page at its resolution answers with its
    pixmap, without rendering, and [pixmap] returns it without changing
    the cache. *)
Theorem receiveData_then_served (png : PngPixmap) (cache_page : bool) (c : t) :
  isNull png = false ->
  Qltb MAX_RESOLUTION_DEVIATION
    (Qabs (resolutionOf c (getPage png) - getResolution png)) = false ->
  (0 < getResolution png)%Q ->
  let c1 := receiveData (Some png) c in
  requestPage (getPage png) (getResolution png) cache_page c1
  = emit (pageReady (pixmap png) (getPage png)) c1
  /\ getPixmap (getPage png) (getResolution png) c1 = (Some (pixmap png), c1).
Proof.
  intros Hnull Hfresh Hpos c1. subst c1. unfold receiveData.
  rewrite Hnull, Hfresh.
  unfold requestPage, getPixmap.
  assert (Hle : Qle_bool (getResolution png) 0 = false).
  { destruct (Qle_bool (getResolution png) 0) eqn:Hle; [| reflexivity].
    apply Qle_bool_iff in Hle. exfalso. exact (Qlt_not_le _ _ Hpos Hle). }
  rewrite Hle, cached_emit, cached_store_any. split; reflexivity.
Qed.

Definition freshImage : PngPixmap := mkPng 1 2 70 false (mkPixmap 9 70).

Lemma receiveData_then_served_witness :
  requestPage 1 2 false (receiveData (Some freshImage) (onePage 1000))
  = emit (pageReady (mkPixmap 9 70) 1)
      (receiveData (Some freshImage) (onePage 1000)).
Proof.
  exact (proj1 (receiveData_then_served freshImage false (onePage 1000)
                  eq_refl eq_refl eq_refl)).
Defined.

(** [pixmap] a second time: once it has returned an image, the same call
    returns the same image from the cache and changes nothing. *)
Theorem getPixmap_twice (n : Z) (r : Q) (pix : QPixmap) (c : t) :
  fst (getPixmap n r c) = Some pix ->
  getPixmap n r (snd (getPixmap n r c)) = (Some pix, snd (getPixmap n r c)).
Proof.
  unfold getPixmap at 1 3 4.
  set (res := if Qle_bool r 0 then resolutionOf c n else r).
  destruct (cached c n res) as [png |] eqn:Hhit.
  - simpl. intros H. unfold getPixmap. fold res. rewrite Hhit. rewrite <- H.
    reflexivity.
  - destruct ((n <? 0) || (n >=? numberOfPages (pdfDoc c))); [discriminate |].
    destruct (renderer c) as [rd |] eqn:Hrd; [| discriminate].
    destruct (negb (isValid rd)); [discriminate |].
    destruct (renderPixmap rd n res) as [p |]; [| discriminate].
    simpl. intros H. inversion H; subst p.
    unfold getPixmap.
    assert (Hres : (if Qle_bool r 0
                    then resolutionOf
                           (store (newPngPixmap pix n res) n (emit (rendered n res) c)) n
                    else r) = res).
    { unfold res. destruct (Qle_bool r 0); [| reflexivity].
      unfold resolutionOf. simpl. rewrite Hrd. reflexivity. }
    rewrite Hres, cached_store. reflexivity.
Qed.

Lemma getPixmap_twice_witness :
  fst (getPixmap 3 2 (emptyCache 1000)) = Some (mkPixmap 3 100)
  /\ getPixmap 3 2 (snd (getPixmap 3 2 (emptyCache 1000)))
     = (Some (mkPixmap 3 100), snd (getPixmap 3 2 (emptyCache 1000))).
Proof.
  split; [reflexivity |].
  apply (getPixmap_twice 3 2 (mkPixmap 3 100) (emptyCache 1000)). reflexivity.
Defined.

(** [updateFrame] with the same size a second time changes nothing, and
    without threads it never changes anything. *)
Theorem updateFrame_idempotent (prefs : Preferences) (size : Q * Q) (c : t) :
  updateFrame prefs size (updateFrame prefs size c) = updateFrame prefs size c
  /\ (threads c = [] -> updateFrame prefs size c = c).
Proof.
  split.
  - unfold updateFrame at 2 3.
    destruct (negb (Qeq_bool (fst (frame c)) (fst size)
                    && Qeq_bool (snd (frame c)) (snd size))
              && (threadsLength c >? 0)) eqn:Hchanged.
    + unfold updateFrame. simpl frame. rewrite !Qeq_bool_refl. reflexivity.
    + unfold updateFrame. rewrite Hchanged. reflexivity.
  - intros Hth. unfold updateFrame, threadsLength. rewrite Hth.
    rewrite andb_false_r. reflexivity.
Qed.

Lemma updateFrame_idempotent_witness :
  updateFrame prefs5 (1%Q, 1%Q) (cacheOf [] 100 75) = cacheOf [] 100 75
  /\ frame (updateFrame prefs5 (1%Q, 1%Q) (onePage 1000)) = (1%Q, 1%Q)
  /\ updateFrame prefs5 (1%Q, 1%Q) (updateFrame prefs5 (1%Q, 1%Q) (onePage 1000))
     = updateFrame prefs5 (1%Q, 1%Q) (onePage 1000).
Proof.
  split; [| split; [reflexivity |]].
  - exact (proj2 (updateFrame_idempotent prefs5 (1%Q, 1%Q) (cacheOf [] 100 75))
             eq_refl).
  - exact (proj1 (updateFrame_idempotent prefs5 (1%Q, 1%Q) (onePage 1000))).
Defined.

(** *** The region around a cached page *)

Lemma below_le_length (m : QMap.t (option PngPixmap)) (x : Z) :
  (below m x <= length m)%nat.
Proof. unfold below. apply filter_length_le. Qed.

Lemma above_le_length (m : QMap.t (option PngPixmap)) (x : Z) :
  (above m x <= length m)%nat.
Proof. unfold above. apply filter_length_le. Qed.

Lemma extendDown_stops (fuel : nat) (m : QMap.t (option PngPixmap)) :
  forall x,
  (below m x <= fuel)%nat ->
  QMap.contains (extendDown fuel m x) m = false
  /\ extendDown fuel m x <= x
  /\ forall k, extendDown fuel m x < k <= x -> QMap.contains k m = true.
Proof.
  induction fuel as [| fuel IH]; intros x Hfuel; simpl.
  - destruct (QMap.contains x m) eqn:Hc.
    + pose proof (below_step m x Hc). lia.
    + split; [first [reflexivity | exact Hc] |]. split; [lia |]. intros k Hk. lia.
  - destruct (QMap.contains x m) eqn:Hc.
    + pose proof (below_step m x Hc) as Hstep.
      destruct (IH (x - 1) ltac:(lia)) as (Hstop & Hle & Hall).
      split; [exact Hstop |]. split; [lia |].
      intros k Hk. destruct (Z.eq_dec k x) as [-> | Hne]; [exact Hc |].
      apply Hall. lia.
    + split; [first [reflexivity | exact Hc] |]. split; [lia |]. intros k Hk. lia.
Qed.

Lemma extendUp_stops (fuel : nat) (m : QMap.t (option PngPixmap)) :
  forall x,
  (above m x <= fuel)%nat ->
  QMap.contains (extendUp fuel m x) m = false
  /\ x <= extendUp fuel m x
  /\ forall k, x <= k < extendUp fuel m x -> QMap.contains k m = true.
Proof.
  induction fuel as [| fuel IH]; intros x Hfuel; simpl.
  - destruct (QMap.contains x m) eqn:Hc.
    + pose proof (above_step m x Hc). lia.
    + split; [first [reflexivity | exact Hc] |]. split; [lia |]. intros k Hk. lia.
  - destruct (QMap.contains x m) eqn:Hc.
    + pose proof (above_step m x Hc) as Hstep.
      destruct (IH (x + 1) ltac:(lia)) as (Hstop & Hle & Hall).
      split; [exact Hstop |]. split; [lia |].
      intros k Hk. destruct (Z.eq_dec k x) as [-> | Hne]; [exact Hc |].
      apply Hall. lia.
    + split; [first [reflexivity | exact Hc] |]. split; [lia |]. intros k Hk. lia.
Qed.

(** [pageNumberChanged] to a page that is cached moves the borders of the
    region outwards to the nearest pages that are not cached: the borders
    are uncached, the page lies strictly between them, and every page
    between a border and the place the search started from is cached.  The
    cache and the queue are untouched and the next scheduling pass is
    requested. *)
Theorem pageNumberChanged_cached (n : Z) (c : t) :
  QMap.contains n (cache c) = true ->
  let c1 := pageNumberChanged n c in
  let start :=
    if (fst (region c) >? n) || (snd (region c) <? n) then (n - 1, n + 1)
    else region c in
  cache c1 = cache c /\ priority c1 = priority c
  /\ trace c1 = trace c ++ [startTimer]
  /\ QMap.contains (fst (region c1)) (cache c) = false
  /\ QMap.contains (snd (region c1)) (cache c) = false
  /\ fst (region c1) < n < snd (region c1)
  /\ (forall k, fst (region c1) < k <= fst start -> QMap.contains k (cache c) = true)
  /\ (forall k, snd start <= k < snd (region c1) -> QMap.contains k (cache c) = true).
Proof.
  intros Hc c1 start. subst c1. unfold pageNumberChanged. rewrite Hc.
  cbn [negb]. cbv iota. fold start. cbv zeta.
  destruct (extendDown_stops (length (cache c)) (cache c) (fst start)
              (below_le_length _ _)) as (Hd1 & Hd2 & Hd3).
  destruct (extendUp_stops (length (cache c)) (cache c) (snd start)
              (above_le_length _ _)) as (Hu1 & Hu2 & Hu3).
  cbn [cache priority trace region emit setRegion fst snd].
  assert (Hstart : fst start <= n <= snd start).
  { unfold start.
    destruct (Z.gtb_spec (fst (region c)) n); simpl; [lia |].
    destruct (Z.ltb_spec (snd (region c)) n); simpl; lia. }
  repeat split; try assumption.
  - destruct (Z.eq_dec (extendDown (length (cache c)) (cache c) (fst start)) n)
      as [Heq | Hne]; [rewrite Heq in Hd1; congruence | lia].
  - destruct (Z.eq_dec (extendUp (length (cache c)) (cache c) (snd start)) n)
      as [Heq | Hne]; [rewrite Heq in Hu1; congruence | lia].
Qed.

(** Pages 0, 1 and 2 cached, and the region reset. *)
Definition threePages : t :=
  requestPage 2 2 true (requestPage 1 2 true (onePage 1000)).

Lemma pageNumberChanged_cached_witness :
  region threePages = (2147483647, -1)
  /\ region (pageNumberChanged 1 threePages) = (-1, 3)
  /\ QMap.contains (fst (region (pageNumberChanged 1 threePages)))
       (cache threePages) = false
  /\ QMap.contains (snd (region (pageNumberChanged 1 threePages)))
       (cache threePages) = false.
Proof.
  split; [reflexivity |]. split; [reflexivity |].
  destruct (pageNumberChanged_cached 1 threePages eq_refl)
    as (_ & _ & _ & Hfirst & Hsecond & _).
  split; [exact Hfirst | exact Hsecond].
Defined.

End CacheLookups.

(** ** Pages and slides of a document *)

Module PdfDocProofs.
Import PdfDoc.

Lemma at_inside {A : Type} (l : list A) (i : Z) :
  0 <= i < QList.size l -> exists x, at_ l i = Some x.
Proof.
  intros [Hlo Hhi]. unfold at_, QList.size in *.
  destruct (Z.ltb_spec i 0); [lia |].
  destruct (Z.geb_spec i (Z.of_nat (length l))); [lia |]. simpl.
  destruct (nth_error l (Z.to_nat i)) as [x |] eqn:Hnth; [exists x; reflexivity |].
  apply nth_error_None in Hnth. lia.
Qed.

Lemma at_outside {A : Type} (l : list A) (i : Z) :
  i < 0 \/ QList.size l <= i -> at_ l i = None.
Proof.
  intros H. unfold at_.
  destruct (Z.ltb_spec i 0); [reflexivity |].
  destruct (Z.geb_spec i (QList.size l)); [reflexivity | lia].
Qed.

Lemma size_labels (doc : t) : QList.size (labels doc) = numPages doc.
Proof. unfold labels, numPages, QList.size. rewrite length_map. reflexivity. Qed.

Lemma at_labels (doc : t) (i : Z) :
  at_ (labels doc) i = option_map label (at_ (pdfPages doc) i).
Proof.
  unfold at_. rewrite size_labels. fold (numPages doc).
  destruct ((i <? 0) || (i >=? numPages doc)); [reflexivity |].
  unfold labels. apply nth_error_map.
Qed.

(** *** [getPage] and [getLabel] *)

(** In a document with at least one page, [getPage] answers every page
    number with a page of the document, while [getLabel] reads outside
    [labels] for exactly one page number, the number of pages. *)
Theorem getLabel_past_the_end (doc : t) (pageNumber : Z) :
  pdfPages doc <> [] ->
  (exists p, getPage doc pageNumber = Some p /\ In p (pdfPages doc))
  /\ (getLabel doc pageNumber = None <-> pageNumber = numPages doc).
Proof.
  intros Hne.
  assert (Hpos : 0 < numPages doc).
  { unfold numPages, QList.size. destruct (pdfPages doc); [contradiction |].
    simpl. lia. }
  split.
  - assert (Hin : forall i, 0 <= i < numPages doc ->
                  exists p, at_ (pdfPages doc) i = Some p /\ In p (pdfPages doc)).
    { intros i Hi. destruct (at_inside (pdfPages doc) i Hi) as (p & Hp).
      exists p. split; [exact Hp |]. unfold at_ in Hp.
      destruct ((i <? 0) || (i >=? QList.size (pdfPages doc))); [discriminate |].
      exact (nth_error_In _ _ Hp). }
    unfold getPage.
    destruct (Z.ltb_spec pageNumber 0); [apply Hin; lia |].
    destruct (Z.geb_spec pageNumber (numPages doc)); apply Hin; lia.
  - unfold getLabel.
    destruct (Z.ltb_spec pageNumber 0) as [Hneg | Hnonneg].
    + unfold labels. destruct (pdfPages doc); [contradiction |]. simpl.
      split; [intros H; discriminate H | lia].
    + destruct (Z.gtb_spec pageNumber (numPages doc)) as [Hgt | Hle].
      * destruct (at_inside (labels doc) (QList.size (labels doc) - 1)) as (l & Hl).
        { rewrite size_labels. lia. }
        rewrite Hl. split; [intros H; discriminate H | lia].
      * destruct (Z.eq_dec pageNumber (numPages doc)) as [Heq | Hne'].
        -- split; [intros _; exact Heq |]. intros _. apply at_outside.
           rewrite size_labels. lia.
        -- destruct (at_inside (labels doc) pageNumber) as (l & Hl).
           { rewrite size_labels. lia. }
           rewrite Hl. split; [intros H; discriminate H | contradiction].
Qed.

Definition slide (name : QString) (d : Q) : Page := mkPage name d (400, 300).

(** Two overlays of slide "1" and one page of slide "2". *)
Definition threePageDoc : t :=
  mkDoc [slide ["1"%char] (-1); slide ["1"%char] (-1); slide ["2"%char] (-1)].

Lemma getLabel_past_the_end_witness :
  getPage threePageDoc 3 = Some (slide ["2"%char] (-1))
  /\ getLabel threePageDoc 3 = None
  /\ getLabel threePageDoc 4 = Some ["2"%char].
Proof.
  split; [reflexivity |]. split; [| reflexivity].
  apply (proj2 (getLabel_past_the_end threePageDoc 3 ltac:(discriminate))).
  reflexivity.
Defined.

(** *** [getNextSlideIndex] *)

Lemma nextSlideLoop_found (doc : t) (lbl : QString) (fuel : nat) :
  forall i,
  0 <= i -> fuel = Z.to_nat (numPages doc - i) ->
  exists r,
    nextSlideLoop doc fuel lbl i = Some r
    /\ ((i <= r < numPages doc
         /\ at_ (labels doc) r <> Some lbl
         /\ forall k, i <= k < r -> at_ (labels doc) k = Some lbl)
        \/ (r = numPages doc - 1
            /\ forall k, i <= k < numPages doc -> at_ (labels doc) k = Some lbl)).
Proof.
  induction fuel as [| fuel IH]; intros i Hi Hfuel.
  - exists (numPages doc - 1). split; [reflexivity |]. right.
    split; [reflexivity |]. intros k Hk. lia.
  - cbn [nextSlideLoop].
    destruct (Z.ltb_spec i (numPages doc)) as [Hlt | Hge]; [| lia].
    destruct (at_inside (labels doc) i) as (l & Hl);
      [rewrite size_labels; lia |].
    rewrite Hl.
    destruct (QString_eq_dec lbl l) as [Heq | Hne].
    + destruct (IH (i + 1) ltac:(lia) ltac:(lia)) as (r & Hr & Hcases).
      exists r. split; [exact Hr |].
      destruct Hcases as [(Hrange & Hdiff & Hsame) | (Hlast & Hsame)].
      * left. split; [lia |]. split; [exact Hdiff |].
        intros k Hk. destruct (Z.eq_dec k i) as [-> | Hki];
          [rewrite Hl, Heq; reflexivity | apply Hsame; lia].
      * right. split; [exact Hlast |].
        intros k Hk. destruct (Z.eq_dec k i) as [-> | Hki];
          [rewrite Hl, Heq; reflexivity | apply Hsame; lia].
    + exists i. split; [reflexivity |]. left. split; [lia |].
      split; [rewrite Hl; intros H; injection H as H; congruence |].
      intros k Hk. lia.
Qed.

(** [getNextSlideIndex] at a page of the document returns a page of the
    document that is not before it: the first page after it with another
    label, all pages in between having its label; or, when all pages to the
    end have its label, the last page. *)
Theorem getNextSlideIndex_first_other_label (doc : t) (index : Z) :
  0 <= index < numPages doc ->
  exists r,
    getNextSlideIndex doc index = Some r
    /\ index <= r < numPages doc
    /\ ((index < r
         /\ at_ (labels doc) r <> at_ (labels doc) index
         /\ forall k, index <= k < r -> at_ (labels doc) k = at_ (labels doc) index)
        \/ (r = numPages doc - 1
            /\ forall k, index <= k < numPages doc ->
                 at_ (labels doc) k = at_ (labels doc) index)).
Proof.
  intros Hindex. unfold getNextSlideIndex.
  destruct (at_inside (labels doc) index) as (lbl & Hlbl);
    [rewrite size_labels; exact Hindex |].
  rewrite Hlbl.
  destruct (nextSlideLoop_found doc lbl _ index (proj1 Hindex) eq_refl)
    as (r & Hr & Hcases).
  exists r. split; [exact Hr |].
  destruct Hcases as [(Hrange & Hdiff & Hsame) | (Hlast & Hsame)].
  - split; [lia |]. left.
    split; [| split; [exact Hdiff | exact Hsame]].
    destruct (Z.eq_dec r index) as [-> | Hne]; [contradiction | lia].
  - split; [lia |]. right. split; [exact Hlast | exact Hsame].
Qed.

Lemma getNextSlideIndex_first_other_label_witness :
  getNextSlideIndex threePageDoc 0 = Some 2
  /\ getNextSlideIndex threePageDoc 2 = Some 2
  /\ exists r,
       getNextSlideIndex threePageDoc 0 = Some r /\ 0 <= r < numPages threePageDoc.
Proof.
  split; [reflexivity |]. split; [reflexivity |].
  destruct (getNextSlideIndex_first_other_label threePageDoc 0
              ltac:(vm_compute; split; [discriminate | reflexivity]))
    as (r & Hr & Hrange & _).
  exists r. split; [exact Hr | exact Hrange].
Defined.

(** *** [getPreviousSlideEnd] *)

(** Page [k] has the label of page [i] and is shown for less than a
    second. *)
Definition shortOverlay (doc : t) (i k : Z) : Prop :=
  at_ (labels doc) k = at_ (labels doc) i
  /\ exists p, at_ (pdfPages doc) k = Some p /\ shortDuration (duration p) = true.

(** The inner loop never runs out of fuel. *)
Lemma skipShortPages_fuel (doc : t) (fuel : nat) :
  forall i j d,
  (Z.to_nat (j + 1) < fuel)%nat -> skipShortPages doc fuel i j d <> OutOfFuel.
Proof.
  induction fuel as [| fuel IH]; intros i j d Hfuel; [lia |].
  cbn [skipShortPages].
  destruct (shortDuration d); [| discriminate].
  destruct (at_ (labels doc) j) as [lj |]; [| discriminate].
  destruct (at_ (labels doc) i) as [li |]; [| discriminate].
  destruct (QString_eq_dec lj li); [| discriminate].
  destruct (at_ (pdfPages doc) (j - 1)) as [p |] eqn:Hp; [| discriminate].
  apply IH.
  assert (Hj : 0 <= j - 1).
  { unfold at_ in Hp. destruct (Z.ltb_spec (j - 1) 0); [discriminate Hp | lia]. }
  lia.
Qed.

Lemma previousSlideLoop_fuel (doc : t) (lbl : QString) (fuel : nat) :
  forall i, previousSlideLoop doc fuel lbl i <> OutOfFuel.
Proof.
  induction fuel as [| fuel IH]; intros i; [discriminate |].
  cbn [previousSlideLoop].
  destruct (i >? 0); [| discriminate].
  destruct (at_ (labels doc) i) as [l |]; [| discriminate].
  destruct (QString_eq_dec lbl l); [apply IH |].
  destruct (at_ (pdfPages doc) i) as [p |]; [| discriminate].
  apply skipShortPages_fuel. lia.
Qed.

Lemma getPreviousSlideEnd_fuel (doc : t) (index : Z) :
  getPreviousSlideEnd doc index <> OutOfFuel.
Proof.
  unfold getPreviousSlideEnd.
  destruct (at_ (labels doc) index); [apply previousSlideLoop_fuel | discriminate].
Qed.

(** The inner loop from [j'] down: the pages above [j] up to [i] are short
    overlays of the slide of page [i]. *)
Lemma skipShortPages_run (doc : t) (i j : Z) :
  0 <= j -> i < numPages doc ->
  (forall k, j < k <= i -> shortOverlay doc i k) ->
  forall (n fuel : nat) (j' : Z) (p : Page),
  j' = j + Z.of_nat n -> j' <= i -> (n < fuel)%nat ->
  at_ (pdfPages doc) j' = Some p ->
  forall p0, at_ (pdfPages doc) j = Some p0 ->
  skipShortPages doc fuel i j' (duration p)
  = skipShortPages doc (fuel - n) i j (duration p0).
Proof.
  intros Hj Hi Hshort. induction n as [| n IH];
    intros fuel j' p Hj' Hle Hfuel Hp p0 Hp0.
  - simpl in Hj'. rewrite Z.add_0_r in Hj'. subst j'. rewrite Hp in Hp0.
    injection Hp0 as ->.
    rewrite Nat.sub_0_r. reflexivity.
  - destruct fuel as [| fuel]; [lia |].
    cbn [skipShortPages].
    destruct (Hshort j' ltac:(lia)) as (Hlabel & q & Hq & Hdur).
    rewrite Hp in Hq. injection Hq as <-. rewrite Hdur.
    destruct (at_inside (labels doc) i) as (li & Hli);
      [rewrite size_labels; lia |].
    rewrite Hlabel, Hli.
    destruct (QString_eq_dec li li) as [_ | Habs]; [| contradiction].
    destruct (at_inside (pdfPages doc) (j' - 1)) as (p' & Hp');
      [fold (numPages doc); lia |].
    rewrite Hp'.
    rewrite (IH fuel (j' - 1) p' ltac:(lia) ltac:(lia) ltac:(lia) Hp' p0 Hp0).
    reflexivity.
Qed.

Lemma previousSlideLoop_run (doc : t) (lbl : QString) (index i : Z) :
  0 < i -> index < numPages doc ->
  (forall k, i < k <= index -> at_ (labels doc) k = Some lbl) ->
  forall (n fuel : nat) (i' : Z),
  i' = i + Z.of_nat n -> i' <= index -> (n < fuel)%nat ->
  previousSlideLoop doc fuel lbl i' = previousSlideLoop doc (fuel - n) lbl i.
Proof.
  intros Hi Hindex Hsame. induction n as [| n IH]; intros fuel i' Hi' Hle Hfuel.
  - simpl in Hi'. rewrite Z.add_0_r in Hi'. subst i'. rewrite Nat.sub_0_r.
    reflexivity.
  - destruct fuel as [| fuel]; [lia |].
    cbn [previousSlideLoop].
    destruct (Z.gtb_spec i' 0); [| lia].
    rewrite (Hsame i' ltac:(lia)).
    destruct (QString_eq_dec lbl lbl) as [_ | Habs]; [| contradiction].
    rewrite (IH fuel (i' - 1) ltac:(lia) ltac:(lia) ltac:(lia)).
    reflexivity.
Qed.

(** [getPreviousSlideEnd] from page [index], when page [i] is the last page
    before it with another label (and is not the first page): the function
    walks down from [i] over the pages of that slide that are shown for
    less than a second and returns the first page [j] that is shown longer
    or belongs to another slide.  If there is no such page, because the
    slide of page [i] starts the document and all its pages are short, it
    reads [pdfPages[-1]]. *)
Theorem getPreviousSlideEnd_skips_short_pages (doc : t) (index i : Z) :
  0 < i < index -> index < numPages doc ->
  at_ (labels doc) i <> at_ (labels doc) index ->
  (forall k, i < k <= index -> at_ (labels doc) k = at_ (labels doc) index) ->
  (forall j, 0 <= j <= i ->
     (forall k, j < k <= i -> shortOverlay doc i k) ->
     ~ shortOverlay doc i j ->
     getPreviousSlideEnd doc index = Returns j)
  /\ ((forall k, 0 <= k <= i -> shortOverlay doc i k) ->
      getPreviousSlideEnd doc index = ReadsOutside (-1)).
Proof.
  intros Hi Hindex Hdiff Hsame.
  destruct (at_inside (labels doc) index) as (lbl & Hlbl);
    [rewrite size_labels; lia |].
  destruct (at_inside (labels doc) i) as (li & Hli);
    [rewrite size_labels; lia |].
  destruct (at_inside (pdfPages doc) i) as (pi & Hpi);
    [fold (numPages doc); lia |].
  assert (Houter : getPreviousSlideEnd doc index
                   = skipShortPages doc (S (S (Z.to_nat i))) i i (duration pi)).
  { unfold getPreviousSlideEnd. rewrite Hlbl.
    rewrite (previousSlideLoop_run doc lbl index i (proj1 Hi) Hindex
               ltac:(intros k Hk; rewrite (Hsame k Hk); exact Hlbl)
               (Z.to_nat (index - i)) (Z.to_nat index) index
               ltac:(lia) ltac:(lia) ltac:(lia)).
    replace (Z.to_nat index - Z.to_nat (index - i))%nat with (S (Z.to_nat (i - 1)))
      by lia.
    cbn [previousSlideLoop].
    destruct (Z.gtb_spec i 0); [| lia].
    rewrite Hli.
    destruct (QString_eq_dec lbl li) as [Heq | _];
      [exfalso; apply Hdiff; rewrite Hli, Hlbl, Heq; reflexivity |].
    rewrite Hpi. reflexivity. }
  rewrite Houter. split.
  - intros j Hj Hshort Hstop.
    destruct (at_inside (pdfPages doc) j) as (pj & Hpj);
      [fold (numPages doc); lia |].
    rewrite (skipShortPages_run doc i j (proj1 Hj) ltac:(lia) Hshort
               (Z.to_nat (i - j)) (S (S (Z.to_nat i))) i pi
               ltac:(lia) ltac:(lia) ltac:(lia) Hpi pj Hpj).
    replace (S (S (Z.to_nat i)) - Z.to_nat (i - j))%nat
      with (S (S (Z.to_nat j))) by lia.
    cbn [skipShortPages].
    destruct (shortDuration (duration pj)) eqn:Hdur; [| reflexivity].
    destruct (at_inside (labels doc) j) as (lj & Hlj);
      [rewrite size_labels; lia |].
    rewrite Hlj, Hli.
    destruct (QString_eq_dec lj li) as [Heq | _]; [| reflexivity].
    exfalso. apply Hstop. split; [rewrite Hlj, Hli, Heq; reflexivity |].
    exists pj. split; [exact Hpj | exact Hdur].
  - intros Hall.
    destruct (at_inside (pdfPages doc) 0) as (p0 & Hp0);
      [fold (numPages doc); lia |].
    rewrite (skipShortPages_run doc i 0 ltac:(lia) ltac:(lia)
               ltac:(intros k Hk; apply Hall; lia)
               (Z.to_nat i) (S (S (Z.to_nat i))) i pi
               ltac:(lia) ltac:(lia) ltac:(lia) Hpi p0 Hp0).
    replace (S (S (Z.to_nat i)) - Z.to_nat i)%nat with 2%nat by lia.
    cbn [skipShortPages].
    destruct (Hall 0 ltac:(lia)) as (Hlabel & q & Hq & Hdur).
    rewrite Hp0 in Hq. injection Hq as <-. rewrite Hdur, Hlabel, Hli.
    destruct (QString_eq_dec li li) as [_ | Habs]; [| contradiction].
    reflexivity.
Qed.

(** A title slide that builds up in two steps of half a second, then a
    second slide. *)
Definition animatedStart : t :=
  mkDoc [slide ["1"%char] (1 # 2); slide ["1"%char] (1 # 2); slide ["2"%char] (-1);
         slide ["2"%char] (-1)].

(** The same with the title slide resting on its second page. *)
Definition restingStart : t :=
  mkDoc [slide ["1"%char] (1 # 2); slide ["1"%char] (-1); slide ["2"%char] (-1);
         slide ["2"%char] (-1)].

Lemma getPreviousSlideEnd_skips_short_pages_witness :
  getPreviousSlideEnd restingStart 3 = Returns 1
  /\ getPreviousSlideEnd animatedStart 3 = ReadsOutside (-1).
Proof.
  split; [reflexivity |].
  refine (proj2 (getPreviousSlideEnd_skips_short_pages animatedStart 3 1
                   _ _ _ _) _).
  - lia.
  - vm_compute. reflexivity.
  - vm_compute. intros H. discriminate H.
  - intros k Hk. assert (k = 2 \/ k = 3) as [-> | ->] by lia; reflexivity.
  - intros k Hk. assert (k = 0 \/ k = 1) as [-> | ->] by lia;
      (split; [reflexivity | eexists; split; reflexivity]).
Defined.

End PdfDocProofs.
